(** * Genius TCAD: discretised-equation assembly and nonlinear-solve orchestration

    A shallow embedding of the assembly and orchestration layer of the
    Genius device simulator:

    - [src/solver/ebm3/ebm3.cc]  (EBM3Solver: Newton damping, positivity
      projection, local truncation error, residual/Jacobian callbacks),
    - [src/solver/ebm3/ebm3_boundary_ohmic.cc]  (OhmicContactBC, level 3
      energy-balance equations, electrode circuit equation),
    - [src/solver/ddm1/ddm1_boundary_homo_interface.cc]  (HomoInterfaceBC,
      level 1 drift-diffusion equations),
    - [src/solver/ddm1/ddm1_semiconductor.cc]  (edge fluxes and time
      derivative of the semiconductor region),
    - [src/solver/ddm1/ddm1_resistance.cc]  (the resistive region),
    - [src/mesh/mesh_tools.cc], [include/math/type_vector.h],
      [include/geom/elem.h]  (bounding boxes, vectors, keys and neighbours
      of elements),
    - [include/bc/boundary_condition.h], [include/source/particle_source.h],
      [include/base/perf_log.h]  (offsets of a boundary condition, the
      particle source, the performance log).

    Conventions of the embedding.

    - [PetscScalar] is a C [double]; it is modelled by the real numbers [R]:
      the theorems speak about the arithmetic the code writes down, not about
      rounding.  Division by zero follows Rocq's convention [x / 0 = 0].
    - A [Vec], and an array obtained from it with [VecGetArray], is a
      [list R]; entries are read with [VecGetValue] and written with stdpp's
      list insert.  Reading or writing past the end is an error in PETSc and
      undefined for a raw array; the model reads [0] and leaves the vector
      unchanged there, and the theorems ask for indices in range where it
      matters.
    - Offsets ([unsigned int]) are natural numbers; they index vectors whose
      size is far below [2^32], so no wrap-around is modelled for them.  The
      counter [N] of [LTE_norm], an [int] fed from [unsigned int] products,
      keeps its wrap-around.
    - [genius_error()] aborts the process; fallible code returns [result].
      A failed [assert] ends the program as well; code that asserts returns
      [option], [None] being the failure.
    - [unsigned int] values that are computed with, as the keys of element
      sides, are integers with the 32-bit wrap-around written out.
    - One process (rank) is modelled at a time; what the other ranks
      contribute to a collective ([Parallel::max], [Parallel::sum]) is an
      explicit argument. *)

From Stdlib Require Import Reals Lra Lia ZArith.
From stdpp Require Import base list sorting gmap strings.

Set Default Proof Using "Type".

(** ** Fallible code: [genius_error] *)

Inductive result (A : Type) : Type :=
  | Ok (a : A)
  | genius_error.
Arguments Ok {A} a.
Arguments genius_error {A}.

Definition bind {A B : Type} (m : result A) (k : A -> result B) : result B :=
  match m with
  | Ok a => k a
  | genius_error => genius_error
  end.

Notation "'do' x <- m ;;; k" := (bind m (fun x => k))
  (at level 10, x name, m at level 100, k at level 200).

(** A loop with an accumulator whose body may abort. *)
Fixpoint foldM {A B : Type} (body : A -> B -> result A) (acc : A) (l : list B)
  : result A :=
  match l with
  | [] => Ok acc
  | b :: l' => do acc' <- body acc b ;;; foldM body acc' l'
  end.

(** [genius_assert(c)] *)
Definition genius_assert (c : bool) : result unit :=
  if c then Ok tt else genius_error.

(** ** PETSc vectors and matrices *)

Open Scope R_scope.

Inductive InsertMode := NOT_SET_VALUES | INSERT_VALUES | ADD_VALUES.

(** [VecGetValues] of one entry, also the read [xx[i]] of an array. *)
Definition VecGetValue (v : list R) (i : nat) : R := default 0 (v !! i).

Definition VecSetValue (v : list R) (i : nat) (a : R) (mode : InsertMode) : list R :=
  match mode with
  | ADD_VALUES => <[i := VecGetValue v i + a]> v
  | _ => <[i := a]> v
  end.

(** [VecSetValues(v, n, ix, y, mode)]: the entries are processed in order. *)
Fixpoint VecSetValues (v : list R) (ix : list nat) (y : list R) (mode : InsertMode)
  : list R :=
  match ix, y with
  | i :: ix', a :: y' => VecSetValues (VecSetValue v i a mode) ix' y' mode
  | _, _ => v
  end.

Definition VecZeroEntries (v : list R) : list R := replicate (length v) 0.

(** [VecAXPY(y, a, x)]: y = y + a*x. *)
Definition VecAXPY (y : list R) (a : R) (x : list R) : list R :=
  zip_with (fun yi xi => yi + a * xi) y x.

Definition sum_list (l : list R) : R := foldr Rplus 0 l.

(** [VecNorm(v, NORM_2, &r)] *)
Definition VecNorm_2 (v : list R) : R := sqrt (sum_list (map (fun a => a * a) v)).

(** A matrix is read entry-wise; entries never set are zero. *)
Definition Mat := nat -> nat -> R.

Definition MatGetValue (J : Mat) (i j : nat) : R := J i j.

(** [MatSetValue(J, i, j, a, ADD_VALUES)] *)
Definition MatSetValue (J : Mat) (i j : nat) (a : R) : Mat :=
  fun i' j' => if (Nat.eqb i' i && Nat.eqb j' j)%bool then J i' j' + a else J i' j'.

(** [MatSetValues(J, 1, &row, n, cols, vals, ADD_VALUES)] *)
Fixpoint MatSetValues_row (J : Mat) (row : nat) (cols : list nat) (vals : list R) : Mat :=
  match cols, vals with
  | c :: cols', a :: vals' => MatSetValues_row (MatSetValue J row c a) row cols' vals'
  | _, _ => J
  end.

(** ** Data model *)

(** [enum SimulationRegionType] (enum_region.h); the enumerators are the ones
    the solver files switch on. *)
Inductive SimulationRegionType :=
  | SemiconductorRegion
  | InsulatorRegion
  | ElectrodeRegion
  | MetalRegion
  | VacuumRegion
  | PMLRegion.

Definition SimulationRegionType_eqb (a b : SimulationRegionType) : bool :=
  match a, b with
  | SemiconductorRegion, SemiconductorRegion
  | InsulatorRegion, InsulatorRegion
  | ElectrodeRegion, ElectrodeRegion
  | MetalRegion, MetalRegion
  | VacuumRegion, VacuumRegion
  | PMLRegion, PMLRegion => true
  | _, _ => false
  end.

(** [enum SolutionVariable] (enum_solution.h), the unknowns of a node. *)
Inductive SolutionVariable :=
  | POTENTIAL | ELECTRON | HOLE | TEMPERATURE | E_TEMP | H_TEMP.

(** The switches of [get_advanced_model()] read by the solver. *)
Record AdvancedModel := {
  enable_Tl : bool;
  enable_Tn : bool;
  enable_Tp : bool;
  Fermi : bool
}.

(** The state attached to a control volume ([FVM_NodeData]). *)
Record FVM_NodeData := {
  affinity : R;
  Net_doping : R;
  eps : R;
  mun : R;
  mup : R;
  psi : R;
  psi_last : R;
  Nc : R;
  Nv : R
}.

(** A control volume of one region around a mesh node. *)
Record FVM_Node := {
  root_node_id : nat;
  local_offset : nat;
  global_offset : nat;
  on_processor : bool;
  node_data : FVM_NodeData;
  outside_boundary_surface_area : R
}.

Record SimulationRegion := {
  type : SimulationRegionType;
  get_advanced_model : AdvancedModel;
  ebm_variable_offset : SolutionVariable -> nat;
  ebm_n_variables : nat;
  on_processor_nodes : list FVM_Node
}.

Definition n_on_processor_node (region : SimulationRegion) : nat :=
  length (on_processor_nodes region).

(** A boundary node with the (region, FVM_Node) pairs that share it, in the
    order of the multimap [_bd_fvm_nodes] (sorted by region type), and the
    neighbours of its semiconductor control volume. *)
Record Neighbor := {
  nb_node : FVM_Node;
  nb_distance : R;
  nb_cv_surface_area : R
}.

Record BoundaryNode := {
  processor_id : nat;
  region_node : list (SimulationRegion * FVM_Node);
  neighbor_node : list Neighbor
}.

(** Row-surgery instructions collected by the [*_Preprocess] methods. *)
Record RowSurgery := {
  src_row : list nat;
  dst_row : list nat;
  clear_row : list nat
}.

Definition no_surgery : RowSurgery :=
  {| src_row := []; dst_row := []; clear_row := [] |}.

(** ** Row-surgery utility *)

Module PetscUtils.

(** Modelled from the spec: [PetscUtils::VecAddClearRow] (petsc_utils.h) is
    called by the residual callback but defined outside the sources at hand.
    The spec's contract is [add_row_to_row(vector, src, dst)] (algebraic add)
    followed by [zero_rows(vector, rows)]: "the equation currently written at
    row src must be algebraically added into row dst, and row src itself must
    subsequently be zeroed".  The values currently written at the source rows
    are read first, then added into the destination rows, then the rows to
    clear are zeroed; this is also the order of the two calls
    [MatAddRowToRow], [MatZeroRows] of the Jacobian callback. *)
Definition add_row_to_row (vec : list R) (src_rows dst_rows : list nat) : list R :=
  let buffer := map (VecGetValue vec) src_rows in
  VecSetValues vec dst_rows buffer ADD_VALUES.

Definition zero_rows (vec : list R) (rows : list nat) : list R :=
  VecSetValues vec rows (replicate (length rows) 0) INSERT_VALUES.

Definition VecAddClearRow (vec : list R) (src_rows dst_rows clear_rows : list nat)
  : list R :=
  zero_rows (add_row_to_row vec src_rows dst_rows) clear_rows.

End PetscUtils.

(** What [VecSetValues(v, n, ix, y, ADD_VALUES)] adds into row [d]: the sum
    of the values whose index is [d]. *)
Fixpoint added_into (ix : list nat) (y : list R) (d : nat) : R :=
  match ix, y with
  | i :: ix', a :: y' => (if Nat.eqb i d then a else 0) + added_into ix' y' d
  | _, _ => 0
  end.

(** What a list of (src, dst) pairs merges into row [d]: the sum of the
    values of the source rows whose destination is [d]. *)
Definition merged_into (vec : list R) (src_rows dst_rows : list nat) (d : nat) : R :=
  added_into dst_rows (map (VecGetValue vec) src_rows) d.

(** ** HomoInterfaceBC, level 1 drift-diffusion (ddm1_boundary_homo_interface.cc) *)

Module HomoInterfaceBC.

(** The body of the [switch] of [DDM1_Function_Preprocess] for a region other
    than the first. *)
Definition Preprocess_region (fvm0 : FVM_Node) (rs : RowSurgery)
    (rn : SimulationRegion * FVM_Node) : result RowSurgery :=
  let gi := global_offset rn.2 in
  let g0 := global_offset fvm0 in
  match type rn.1 with
  | SemiconductorRegion =>
      Ok {| src_row := src_row rs ++ [gi + 0; gi + 1; gi + 2]%nat;
            dst_row := dst_row rs ++ [g0 + 0; g0 + 1; g0 + 2]%nat;
            clear_row := clear_row rs ++ [gi + 0; gi + 1; gi + 2]%nat |}
  | InsulatorRegion =>
      Ok {| src_row := src_row rs ++ [gi + 0]%nat;
            dst_row := dst_row rs ++ [g0 + 0]%nat;
            clear_row := clear_row rs ++ [gi + 0]%nat |}
  | _ => genius_error
  end.

(** One boundary node: skipped when it belongs to another processor; the
    first (region, FVM_Node) pair is the reference. *)
Definition Preprocess_node (me : nat) (rs : RowSurgery) (nd : BoundaryNode)
  : result RowSurgery :=
  if negb (Nat.eqb (processor_id nd) me) then Ok rs
  else match region_node nd with
       | [] => Ok rs
       | rn0 :: others => foldM (Preprocess_region rn0.2) rs others
       end.

(** [HomoInterfaceBC::DDM1_Function_Preprocess]; [me] is
    [Genius::processor_id()], [rs] the three vectors passed by reference. *)
Definition DDM1_Function_Preprocess (me : nat) (bd_nodes : list BoundaryNode)
    (rs : RowSurgery) : result RowSurgery :=
  foldM (Preprocess_node me) rs bd_nodes.

(** The buffers [iy], [y_new] of [DDM1_Function]. *)
Record ValueBuffer := {
  iy : list nat;
  y_new : list R
}.

Definition Function_region (x : list R) (fvm0 : FVM_Node) (buf : ValueBuffer)
    (rn : SimulationRegion * FVM_Node) : result ValueBuffer :=
  let li := local_offset rn.2 in
  let l0 := local_offset fvm0 in
  let gi := global_offset rn.2 in
  match type rn.1 with
  | SemiconductorRegion =>
      let V := VecGetValue x (li + 0) in
      let n := VecGetValue x (li + 1) in
      let p := VecGetValue x (li + 2) in
      let V_semi := VecGetValue x (l0 + 0) in
      let n_semi := VecGetValue x (l0 + 1) in
      let p_semi := VecGetValue x (l0 + 2) in
      let ff1 := V - V_semi in
      let ff2 := n - n_semi in
      let ff3 := p - p_semi in
      Ok {| iy := iy buf ++ [gi + 0; gi + 1; gi + 2]%nat;
            y_new := y_new buf ++ [ff1; ff2; ff3] |}
  | InsulatorRegion =>
      let V := VecGetValue x (li + 0) in
      let V_semi := VecGetValue x (l0 + 0) in
      let ff1 := V - V_semi in
      Ok {| iy := iy buf ++ [gi + 0]%nat; y_new := y_new buf ++ [ff1] |}
  | _ => genius_error
  end.

Definition Function_node (me : nat) (x : list R) (buf : ValueBuffer)
    (nd : BoundaryNode) : result ValueBuffer :=
  if negb (Nat.eqb (processor_id nd) me) then Ok buf
  else match region_node nd with
       | [] => Ok buf
       | rn0 :: others =>
           do _ <- genius_assert
                     (SimulationRegionType_eqb (type rn0.1) SemiconductorRegion) ;;;
           foldM (Function_region x rn0.2) buf others
       end.

Definition DDM1_Function_buffer (me : nat) (bd_nodes : list BoundaryNode)
    (x : list R) : result ValueBuffer :=
  foldM (Function_node me x) {| iy := []; y_new := [] |} bd_nodes.

(** [HomoInterfaceBC::DDM1_Function]: the buffered values are added to [f].
    The flush of a pending insert ([VecAssemblyBegin/End]) changes no value
    on one rank. *)
Definition DDM1_Function (me : nat) (bd_nodes : list BoundaryNode) (x f : list R)
    (add_value_flag : InsertMode) : result (list R * InsertMode) :=
  do buf <- DDM1_Function_buffer me bd_nodes x ;;;
  Ok (if bool_decide (iy buf = []) then f
      else VecSetValues f (iy buf) (y_new buf) ADD_VALUES,
      ADD_VALUES).

End HomoInterfaceBC.

(** ** Forward-mode automatic differentiation *)

Module adtl.

(** Modelled from the spec: [adtl::AutoDScalar] is "a reusable
    dual-number-like type providing forward-mode automatic differentiation
    with a settable number of active directions"; its header is not among the
    sources.  A value carries its derivative in every direction; a scalar
    converted to an [AutoDScalar] has derivative zero, [setADValue(i, d)]
    sets direction [i], and the arithmetic operators propagate derivatives. *)
Record AutoDScalar := {
  getValue : R;
  getADValue : nat -> R
}.

Definition of_scalar (a : R) : AutoDScalar :=
  {| getValue := a; getADValue := fun _ => 0 |}.

Definition setADValue (a : AutoDScalar) (i : nat) (d : R) : AutoDScalar :=
  {| getValue := getValue a;
     getADValue := fun j => if Nat.eqb j i then d else getADValue a j |}.

Definition sub (a b : AutoDScalar) : AutoDScalar :=
  {| getValue := getValue a - getValue b;
     getADValue := fun j => getADValue a j - getADValue b j |}.

Definition add (a b : AutoDScalar) : AutoDScalar :=
  {| getValue := getValue a + getValue b;
     getADValue := fun j => getADValue a j + getADValue b j |}.

(** scalar * AutoDScalar *)
Definition scale (c : R) (a : AutoDScalar) : AutoDScalar :=
  {| getValue := c * getValue a; getADValue := fun j => c * getADValue a j |}.

(** AutoDScalar / scalar *)
Definition div_scalar (a : AutoDScalar) (c : R) : AutoDScalar :=
  {| getValue := getValue a / c; getADValue := fun j => getADValue a j / c |}.

End adtl.

(** ** Solver settings ([namespace SolverSpecify]) *)

(** [enum TemporalScheme]: the code tests [BDF1] and [BDF2]; any further
    enumerator takes neither branch. *)
Inductive TemporalScheme := BDF1 | BDF2 | OtherScheme.

Record SolverSpecify := {
  TimeDependent : bool;
  TS_type : TemporalScheme;
  BDF2_restart : bool;
  dt : R;
  dt_last : R;
  dt_last_last : R;
  TS_rtol : R;
  TS_atol : R;
  potential_update : R
}.

(** ** OhmicContactBC, level 3 energy balance (ebm3_boundary_ohmic.cc) *)

(** The lumped circuit of an electrode ([class ExternalCircuit]); [current],
    [cap_current] and [potential] are the values of the previous step. *)
Record ExternalCircuit := {
  ckt_R : R;
  ckt_C : R;
  ckt_L : R;
  Vapp : R;
  Iapp : R;
  current_prev : R;                  (* [current()] *)
  cap_current : R;
  potential : R;
  is_voltage_driven : bool;
  is_current_driven : bool
}.

Record OhmicContactBC := {
  bd_nodes : list BoundaryNode;
  z_width : R;
  bc_global_offset : nat;
  bc_local_offset : option nat;      (* [None] is [invalid_uint] *)
  ext_circuit : ExternalCircuit;
  is_inter_connect_bc : bool;
  hub_local_offset : nat;            (* [inter_connect_hub()->local_offset()] *)
  hub_global_offset : nat;
  Heat_Transfer : R
}.

(** The material library of a semiconductor region, mapped to a node. *)
Record Material := {
  band_nie : FVM_Node -> R -> R -> R -> R;     (* nie(p, n, T) *)
  band_Nc : FVM_Node -> R -> R;
  band_Nv : FVM_Node -> R -> R;
  band_Eg : FVM_Node -> R -> R;
  fermi_half : R -> R
}.

(** Derivative vectors of the node equations of an Ohmic node, as
    [getADValue()] returns them after the material library has been evaluated
    on [AutoDScalar] arguments. *)
Record OhmicDerivatives := {
  dff1 : list R;
  dff2 : list R;
  dff3 : list R;
  dfT : list R;
  dfTn : list R;
  dfTp : list R
}.

Module OhmicContact.

Section Equations.

Variables (kb e : R).                  (* PhysicalUnit::kb, PhysicalUnit::e *)
Variable T_external : R.
Variable mt : Material.
Variable ohmic_AD : list R -> FVM_Node -> OhmicDerivatives.
Variable spec : SolverSpecify.
Variable me : nat.                     (* Genius::processor_id() *)
Variable is_last_processor : bool.
Variable bc : OhmicContactBC.

Definition node_on_boundary (nd : BoundaryNode) : bool :=
  Nat.eqb (length (region_node nd)) 1.

Definition has_associated_region (nd : BoundaryNode) (rt : SimulationRegionType) : bool :=
  existsb (fun rn => SimulationRegionType_eqb (type rn.1) rt) (region_node nd).

(** [get_region_fvm_node] / [get_fvm_node_region]: the region type must be
    unique at the node ([genius_assert(count(type) == 1)]). *)
Definition get_region_fvm_node (nd : BoundaryNode) (rt : SimulationRegionType)
  : result (SimulationRegion * FVM_Node) :=
  match filter (fun rn => SimulationRegionType_eqb (type rn.1) rt = true) (region_node nd) with
  | [rn] => Ok rn
  | _ => genius_error
  end.

(** *** EBM3_Function_Preprocess *)

Definition Preprocess_region (f : list R) (rn0 : SimulationRegion * FVM_Node)
    (st : RowSurgery * list R) (rn : SimulationRegion * FVM_Node)
  : result (RowSurgery * list R) :=
  let rs := st.1 in
  let current_buffer := st.2 in
  let g := global_offset rn.2 in
  let model := get_advanced_model rn.1 in
  match type rn.1 with
  | SemiconductorRegion =>
      let clear := clear_row rs ++ [g + 0; g + 1; g + 2]%nat in
      let clear := if enable_Tn model
                   then clear ++ [(g + ebm_variable_offset rn.1 E_TEMP)%nat] else clear in
      let clear := if enable_Tp model
                   then clear ++ [(g + ebm_variable_offset rn.1 H_TEMP)%nat] else clear in
      let I0 := VecGetValue f (g + 1) in
      let I1 := VecGetValue f (g + 2) in
      Ok ({| src_row := src_row rs; dst_row := dst_row rs; clear_row := clear |},
          current_buffer ++ [I0 - I1])
  | ElectrodeRegion | InsulatorRegion =>
      let clear := clear_row rs ++ [(g + 0)%nat] in
      if enable_Tl model then
        Ok ({| src_row := src_row rs ++ [(g + 1)%nat];
               dst_row := dst_row rs ++
                 [(global_offset rn0.2 + ebm_variable_offset rn0.1 TEMPERATURE)%nat];
               clear_row := clear ++ [(g + 1)%nat] |}, current_buffer)
      else
        Ok ({| src_row := src_row rs; dst_row := dst_row rs; clear_row := clear |},
            current_buffer)
  | VacuumRegion => Ok st
  | _ => genius_error
  end.

Definition Preprocess_node (f : list R) (st : RowSurgery * list R) (nd : BoundaryNode)
  : result (RowSurgery * list R) :=
  if negb (Nat.eqb (processor_id nd) me) then Ok st
  else match region_node nd with
       | [] => Ok st
       | rn0 :: _ => foldM (Preprocess_region f rn0) st (region_node nd)
       end.

(** Returns the row-surgery vectors and the member [_current_buffer], which
    is cleared on entry and then holds the conduction current [In - Ip] of
    every semiconductor boundary cell. *)
Definition EBM3_Function_Preprocess (f : list R) (rs : RowSurgery)
  : result (RowSurgery * list R) :=
  foldM (Preprocess_node f) (rs, []) (bd_nodes bc).

(** *** EBM3_Function *)

Record FunctionState := {
  iy : list nat;
  y : list R;
  current_buffer : list R
}.

(** The displacement current through the surface shared with a neighbour. *)
Definition displacement_current (x : list R) (fvm : FVM_Node) (V : R) (nb : Neighbor) : R :=
  let nd_data := node_data fvm in
  let nb_data := node_data (nb_node nb) in
  let V_nb := VecGetValue x (local_offset (nb_node nb) + 0) in
  let distance := nb_distance nb in
  let cv_boundary := nb_cv_surface_area nb in
  let dEdt :=
    match TS_type spec, BDF2_restart spec with
    | BDF2, false =>
        let r := dt_last spec / (dt_last spec + dt spec) in
        ((2 - r) / (1 - r) * (V - V_nb)
         - 1 / (r * (1 - r)) * (psi nd_data - psi nb_data)
         + (1 - r) / r * (psi_last nd_data - psi_last nb_data))
          / distance / (dt_last spec + dt spec)
    | _, _ => ((V - V_nb) - (psi nd_data - psi nb_data)) / distance / dt spec
    end in
  cv_boundary * eps nd_data * dEdt.

Definition Function_semiconductor (x : list R) (Ve : R) (nd : BoundaryNode) (i : nat)
    (st : FunctionState) (rn : SimulationRegion * FVM_Node) : result FunctionState :=
  do _ <- genius_assert (Nat.eqb i 0) ;;;
  let semi_region := rn.1 in
  let fvm := rn.2 in
  let model := get_advanced_model semi_region in
  let nd_data := node_data fvm in
  let node_psi_offset := ebm_variable_offset semi_region POTENTIAL in
  let node_n_offset := ebm_variable_offset semi_region ELECTRON in
  let node_p_offset := ebm_variable_offset semi_region HOLE in
  let node_Tl_offset := ebm_variable_offset semi_region TEMPERATURE in
  let node_Tn_offset := ebm_variable_offset semi_region E_TEMP in
  let node_Tp_offset := ebm_variable_offset semi_region H_TEMP in
  let l := local_offset fvm in
  let g := global_offset fvm in
  let V := VecGetValue x (l + node_psi_offset) in
  let n := VecGetValue x (l + node_n_offset) in
  let p := VecGetValue x (l + node_p_offset) in
  let T := if enable_Tl model then VecGetValue x (l + node_Tl_offset) else T_external in
  let nie := band_nie mt fvm p n T in
  let Nc_ := band_Nc mt fvm T in
  let Nv_ := band_Nv mt fvm T in
  let Eg := band_Eg mt fvm T in
  let y1 :=
    if Fermi model then
      let Ec := - (e * V + affinity nd_data) in
      let Ev := - (e * V + affinity nd_data + Eg) in
      let phin := Ve in
      let phip := Ve in
      let etan := (- e * phin - Ec) / kb / T in
      let etap := (Ev + e * phip) / kb / T in
      [ Nc_ * fermi_half mt etan - Nv_ * fermi_half mt etap - Net_doping nd_data;
        n - Nc_ * fermi_half mt etan;
        p - Nv_ * fermi_half mt etap ]
    else
      let net_dpoing := Net_doping nd_data in
      let hole_density_p := (- net_dpoing + sqrt (net_dpoing * net_dpoing + 4 * nie * nie)) / 2 in
      let electron_density_n := (net_dpoing + sqrt (net_dpoing * net_dpoing + 4 * nie * nie)) / 2 in
      let electron_density :=
        if Rlt_dec net_dpoing 0 then nie * nie / hole_density_p else electron_density_n in
      let hole_density :=
        if Rlt_dec net_dpoing 0 then hole_density_p else nie * nie / electron_density_n in
      [ V - kb * T / e * arcsinh (Net_doping nd_data / (2 * nie))
          + Eg / (2 * e)
          + kb * T * ln (Nc_ / Nv_) / (2 * e)
          + affinity nd_data
          - Ve;
        n - electron_density;
        p - hole_density ] in
  let y := y st ++ y1 in
  let iy := iy st ++ [g + node_psi_offset; g + node_n_offset; g + node_p_offset]%nat in
  let heat := (enable_Tl model && (node_on_boundary nd || has_associated_region nd VacuumRegion))%bool in
  let y := if heat
           then y ++ [Heat_Transfer bc * (T_external - T) * outside_boundary_surface_area fvm]
           else y in
  let iy := if heat then iy ++ [(g + node_Tl_offset)%nat] else iy in
  let y := if enable_Tn model
           then y ++ [n * (VecGetValue x (l + node_Tn_offset) / n - T)] else y in
  let iy := if enable_Tn model then iy ++ [(g + node_Tn_offset)%nat] else iy in
  let y := if enable_Tp model
           then y ++ [p * (VecGetValue x (l + node_Tp_offset) / p - T)] else y in
  let iy := if enable_Tp model then iy ++ [(g + node_Tp_offset)%nat] else iy in
  let current_buffer :=
    if TimeDependent spec
    then current_buffer st ++ map (displacement_current x fvm V) (neighbor_node nd)
    else current_buffer st in
  Ok {| iy := iy; y := y; current_buffer := current_buffer |}.

Definition Function_conductor (x : list R) (rn0 : SimulationRegion * FVM_Node)
    (st : FunctionState) (rn : SimulationRegion * FVM_Node) : result FunctionState :=
  let model := get_advanced_model rn.1 in
  let node_psi_offset := ebm_variable_offset rn.1 POTENTIAL in
  let node_Tl_offset := ebm_variable_offset rn.1 TEMPERATURE in
  let semiregion_node_psi_offset := ebm_variable_offset rn0.1 POTENTIAL in
  let semiregion_node_Tl_offset := ebm_variable_offset rn0.1 TEMPERATURE in
  let l := local_offset rn.2 in
  let g := global_offset rn.2 in
  let V := VecGetValue x (l + node_psi_offset) in
  let T := if enable_Tl model then VecGetValue x (l + node_Tl_offset) else T_external in
  do _ <- genius_assert (SimulationRegionType_eqb (type rn0.1) SemiconductorRegion) ;;;
  let V_semi := VecGetValue x (local_offset rn0.2 + semiregion_node_psi_offset) in
  let y := y st ++ [V - V_semi] in
  let iy := iy st ++ [(g + node_psi_offset)%nat] in
  let T_semi := VecGetValue x (local_offset rn0.2 + semiregion_node_Tl_offset) in
  let y := if enable_Tl model then y ++ [T - T_semi] else y in
  let iy := if enable_Tl model then iy ++ [(g + node_Tl_offset)%nat] else iy in
  Ok {| iy := iy; y := y; current_buffer := current_buffer st |}.

Definition Function_region (x : list R) (Ve : R) (nd : BoundaryNode)
    (rn0 : SimulationRegion * FVM_Node) (st : FunctionState)
    (irn : nat * (SimulationRegion * FVM_Node)) : result FunctionState :=
  match type irn.2.1 with
  | SemiconductorRegion => Function_semiconductor x Ve nd irn.1 st irn.2
  | ElectrodeRegion | InsulatorRegion => Function_conductor x rn0 st irn.2
  | VacuumRegion => Ok st
  | _ => genius_error
  end.

Definition Function_node (x : list R) (Ve : R) (st : FunctionState) (nd : BoundaryNode)
  : result FunctionState :=
  if negb (Nat.eqb (processor_id nd) me) then Ok st
  else match region_node nd with
       | [] => Ok st
       | rn0 :: _ => foldM (Function_region x Ve nd rn0) st (imap pair (region_node nd))
       end.

(** The extra equation of the electrode, added to row [global_offset()]. *)
Definition circuit_equation (x f : list R) (Ve current : R) : list R :=
  let ckt := ext_circuit bc in
  let row := bc_global_offset bc in
  let f :=
    if is_inter_connect_bc bc then
      let R := ckt_R ckt in
      let f_ext := R * current in
      VecSetValue f row f_ext ADD_VALUES
    else
      let f :=
        if is_voltage_driven ckt then
          let R := ckt_R ckt in
          let L := ckt_L ckt in
          let f_ext := (L / dt spec + R) * current in
          VecSetValue f row f_ext ADD_VALUES
        else f in
      if is_current_driven ckt then
        let f_ext := current in
        VecSetValue f row f_ext ADD_VALUES
      else f in
  if is_last_processor then
    if is_inter_connect_bc bc then
      let V_ic := VecGetValue x (hub_local_offset bc) in
      let f_ext := Ve - V_ic in
      VecSetValue f row f_ext ADD_VALUES
    else
      let f :=
        if is_voltage_driven ckt then
          let R := ckt_R ckt in
          let C := ckt_C ckt in
          let L := ckt_L ckt in
          let I := current_prev ckt in
          let Ic := cap_current ckt in
          let P := potential ckt in
          let f_ext := (Ve - Vapp ckt) + (L / dt spec + R) * C / dt spec * Ve
                       - (L / dt spec + R) * C / dt spec * P - L / dt spec * (I + Ic) in
          VecSetValue f row f_ext ADD_VALUES
        else f in
      if is_current_driven ckt then
        let f_ext := cap_current ckt - Iapp ckt in
        VecSetValue f row f_ext ADD_VALUES
      else f
  else f.

Record FunctionResult := {
  f_out : list R;
  add_value_flag_out : InsertMode;
  current_itering : R;
  potential_itering : R
}.

(** [OhmicContactBC::EBM3_Function]; [current_buffer0] is the member
    [_current_buffer] as [EBM3_Function_Preprocess] left it. *)
Definition EBM3_Function (current_buffer0 : list R) (x f : list R)
    (add_value_flag : InsertMode) : result FunctionResult :=
  match bc_local_offset bc with
  | None => genius_error
  | Some local_offset =>
      let current_scale := z_width bc in
      let Ve := VecGetValue x local_offset in
      do st <- foldM (Function_node x Ve)
                 {| iy := []; y := []; current_buffer := current_buffer0 |}
                 (bd_nodes bc) ;;;
      let f := if bool_decide (iy st = []) then f
               else VecSetValues f (iy st) (y st) ADD_VALUES in
      let current := current_scale * sum_list (current_buffer st) in
      Ok {| f_out := circuit_equation x f Ve current;
            add_value_flag_out := ADD_VALUES;
            current_itering := current;
            potential_itering := Ve |}
  end.

(** *** EBM3_Jacobian_Preprocess *)

(** The members [_buffer_cols] and [_buffer_jacobian_entries]. *)
Record JacobianBuffer := {
  buffer_cols : list (list nat);
  buffer_jacobian_entries : list (list R)
}.

(** The vectors [JM], [JN]: the current term of the circuit equation
    differentiated, from the rows [A1], [A2] of the electron and hole
    continuity equations.  They start as [n_node_var] zeros. *)
Definition current_term_jacobian (A1 A2 : list R) (n_node_var : nat) : list R :=
  let ckt := ext_circuit bc in
  let current_scale := z_width bc in
  let R := ckt_R ckt in
  let L := ckt_L ckt in
  if is_inter_connect_bc bc then
    zip_with (fun a1 a2 => R * (a1 - a2) * current_scale) A1 A2
  else
    let J := if is_voltage_driven ckt
             then zip_with (fun a1 a2 => (L / dt spec + R) * (a1 - a2) * current_scale) A1 A2
             else replicate n_node_var 0 in
    if is_current_driven ckt
    then zip_with (fun a1 a2 => (a1 - a2) * current_scale) A1 A2
    else J.

Definition Jacobian_Preprocess_current (jac : Mat) (buf : JacobianBuffer)
    (nd : BoundaryNode) : result JacobianBuffer :=
  if negb (Nat.eqb (processor_id nd) me) then Ok buf
  else
    do rn <- get_region_fvm_node nd SemiconductorRegion ;;;
    let region := rn.1 in
    let fvm_node := rn.2 in
    let n_node_var := ebm_n_variables region in
    let node_n_offset := ebm_variable_offset region ELECTRON in
    let node_p_offset := ebm_variable_offset region HOLE in
    let row := map (fun nv => (global_offset fvm_node + nv)%nat) (seq 0 n_node_var) in
    let row_n := (global_offset fvm_node + node_n_offset)%nat in
    let row_p := (global_offset fvm_node + node_p_offset)%nat in
    let A1 := map (MatGetValue jac row_n) row in
    let A2 := map (MatGetValue jac row_p) row in
    let JM := current_term_jacobian A1 A2 n_node_var in
    let buf :=
      foldl (fun buf nb =>
               let col := map (fun i => (global_offset (nb_node nb) + i)%nat)
                              (seq 0 n_node_var) in
               let A1 := map (MatGetValue jac row_n) col in
               let A2 := map (MatGetValue jac row_p) col in
               let JN := current_term_jacobian A1 A2 n_node_var in
               {| buffer_cols := buffer_cols buf ++ [col];
                  buffer_jacobian_entries := buffer_jacobian_entries buf ++ [JN] |})
            buf (neighbor_node nd) in
    Ok {| buffer_cols := buffer_cols buf ++ [row];
          buffer_jacobian_entries := buffer_jacobian_entries buf ++ [JM] |}.

Definition Jacobian_Preprocess_region (rn0 : SimulationRegion * FVM_Node)
    (rs : RowSurgery) (rn : SimulationRegion * FVM_Node) : result RowSurgery :=
  let row := global_offset rn.2 in
  let model := get_advanced_model rn.1 in
  match type rn.1 with
  | SemiconductorRegion =>
      let clear := clear_row rs ++
        [row + ebm_variable_offset rn.1 POTENTIAL;
         row + ebm_variable_offset rn.1 ELECTRON;
         row + ebm_variable_offset rn.1 HOLE]%nat in
      let clear := if enable_Tn model
                   then clear ++ [(row + ebm_variable_offset rn.1 E_TEMP)%nat] else clear in
      let clear := if enable_Tp model
                   then clear ++ [(row + ebm_variable_offset rn.1 H_TEMP)%nat] else clear in
      Ok {| src_row := src_row rs; dst_row := dst_row rs; clear_row := clear |}
  | ElectrodeRegion | InsulatorRegion =>
      let clear := clear_row rs ++ [(row + ebm_variable_offset rn.1 POTENTIAL)%nat] in
      if enable_Tl model then
        Ok {| src_row := src_row rs ++
                [(global_offset rn.2 + ebm_variable_offset rn.1 TEMPERATURE)%nat];
              dst_row := dst_row rs ++
                [(global_offset rn0.2 + ebm_variable_offset rn0.1 TEMPERATURE)%nat];
              clear_row := clear ++ [(row + ebm_variable_offset rn.1 TEMPERATURE)%nat] |}
      else Ok {| src_row := src_row rs; dst_row := dst_row rs; clear_row := clear |}
  | VacuumRegion => Ok rs
  | _ => genius_error
  end.

Definition Jacobian_Preprocess_node (rs : RowSurgery) (nd : BoundaryNode)
  : result RowSurgery :=
  if negb (Nat.eqb (processor_id nd) me) then Ok rs
  else match region_node nd with
       | [] => Ok rs
       | rn0 :: _ => foldM (Jacobian_Preprocess_region rn0) rs (region_node nd)
       end.

Definition EBM3_Jacobian_Preprocess (jac : Mat) (rs : RowSurgery)
  : result (RowSurgery * JacobianBuffer) :=
  do buf <- foldM (Jacobian_Preprocess_current jac)
              {| buffer_cols := []; buffer_jacobian_entries := [] |} (bd_nodes bc) ;;;
  do rs <- foldM Jacobian_Preprocess_node rs (bd_nodes bc) ;;;
  Ok (rs, buf).

(** *** EBM3_Jacobian *)

(** d(current)/d(independent variables of the boundary node and its
    neighbours), added to the row of the electrode equation. *)
Fixpoint Jacobian_current_entries (jac : Mat) (cols : list (list nat))
    (entries : list (list R)) : Mat :=
  match cols, entries with
  | c :: cols', v :: entries' =>
      Jacobian_current_entries (MatSetValues_row jac (bc_global_offset bc) c v) cols' entries'
  | _, _ => jac
  end.

(** The displacement current through the surface shared with one neighbour,
    differentiated with respect to [V] (direction [node_psi_offset]) and
    [V_nb] (direction 1). *)
Definition displacement_current_AD (x : list R) (fvm : FVM_Node) (node_psi_offset : nat)
    (nb : Neighbor) : adtl.AutoDScalar :=
  let ckt := ext_circuit bc in
  let current_scale := z_width bc in
  let R := ckt_R ckt in
  let L := ckt_L ckt in
  let nd_data := node_data fvm in
  let nb_data := node_data (nb_node nb) in
  let V := adtl.setADValue
             (adtl.of_scalar (VecGetValue x (local_offset fvm + node_psi_offset)))
             node_psi_offset 1 in
  let V_nb := adtl.setADValue
                (adtl.of_scalar (VecGetValue x (local_offset (nb_node nb) + 0))) 1 1 in
  let distance := nb_distance nb in
  let cv_boundary := nb_cv_surface_area nb in
  let dEdt :=
    match TS_type spec, BDF2_restart spec with
    | BDF2, false =>
        let r := dt_last spec / (dt_last spec + dt spec) in
        adtl.div_scalar
          (adtl.div_scalar
             (adtl.add
                (adtl.sub
                   (adtl.scale ((2 - r) / (1 - r)) (adtl.sub V V_nb))
                   (adtl.of_scalar (1 / (r * (1 - r)) * (psi nd_data - psi nb_data))))
                (adtl.of_scalar ((1 - r) / r * (psi_last nd_data - psi_last nb_data))))
             distance)
          (dt_last spec + dt spec)
    | _, _ =>
        adtl.div_scalar
          (adtl.div_scalar
             (adtl.sub (adtl.sub V V_nb) (adtl.of_scalar (psi nd_data - psi nb_data)))
             distance)
          (dt spec)
    end in
  let current_disp :=
    adtl.scale current_scale (adtl.scale (cv_boundary * eps nd_data) dEdt) in
  let current_disp :=
    if is_inter_connect_bc bc then adtl.scale R current_disp else current_disp in
  if is_voltage_driven ckt then adtl.scale (L / dt spec + R) current_disp
  else current_disp.

Definition Jacobian_displacement (x : list R) (fvm : FVM_Node) (node_psi_offset : nat)
    (jac : Mat) (nb : Neighbor) : Mat :=
  let current_disp := displacement_current_AD x fvm node_psi_offset nb in
  let jac := MatSetValue jac (bc_global_offset bc) (global_offset fvm + 0)
               (adtl.getADValue current_disp 0) in
  MatSetValue jac (bc_global_offset bc) (global_offset (nb_node nb) + 0)
    (adtl.getADValue current_disp 1).

Definition Jacobian_semiconductor (x : list R) (nd : BoundaryNode) (i : nat)
    (jac : Mat) (rn : SimulationRegion * FVM_Node) : result Mat :=
  do _ <- genius_assert (Nat.eqb i 0) ;;;
  do _ <- genius_assert (bool_decide (bc_local_offset bc <> None)) ;;;
  let semi_region := rn.1 in
  let fvm := rn.2 in
  let model := get_advanced_model semi_region in
  let n_node_var := ebm_n_variables semi_region in
  let g := global_offset fvm in
  let row := map (fun nv => (g + nv)%nat) (seq 0 n_node_var) in
  let col := row ++ [bc_global_offset bc] in
  let d := ohmic_AD x fvm in
  let jac := MatSetValues_row jac (g + ebm_variable_offset semi_region POTENTIAL) col (dff1 d) in
  let jac := MatSetValues_row jac (g + ebm_variable_offset semi_region ELECTRON) col (dff2 d) in
  let jac := MatSetValues_row jac (g + ebm_variable_offset semi_region HOLE) col (dff3 d) in
  let jac :=
    if (enable_Tl model && (node_on_boundary nd || has_associated_region nd VacuumRegion))%bool
    then MatSetValues_row jac (g + ebm_variable_offset semi_region TEMPERATURE) col (dfT d)
    else jac in
  let jac :=
    if enable_Tn model
    then MatSetValues_row jac (g + ebm_variable_offset semi_region E_TEMP) col (dfTn d)
    else jac in
  let jac :=
    if enable_Tp model
    then MatSetValues_row jac (g + ebm_variable_offset semi_region H_TEMP) col (dfTp d)
    else jac in
  Ok (if TimeDependent spec
      then foldl (Jacobian_displacement x fvm (ebm_variable_offset semi_region POTENTIAL))
                 jac (neighbor_node nd)
      else jac).

(** An equality equation "this unknown equals the semiconductor one",
    differentiated in two directions. *)
Definition Jacobian_equality (jac : Mat) (a a_semi : R) (row col_semi : nat) : Mat :=
  let V := adtl.setADValue (adtl.of_scalar a) 0 1 in
  let V_semi := adtl.setADValue (adtl.of_scalar a_semi) 1 1 in
  let ff := adtl.sub V V_semi in
  MatSetValues_row jac row [row; col_semi] [adtl.getADValue ff 0; adtl.getADValue ff 1].

Definition Jacobian_conductor (x : list R) (rn0 : SimulationRegion * FVM_Node)
    (jac : Mat) (rn : SimulationRegion * FVM_Node) : Mat :=
  let model := get_advanced_model rn.1 in
  let node_psi_offset := ebm_variable_offset rn.1 POTENTIAL in
  let node_Tl_offset := ebm_variable_offset rn.1 TEMPERATURE in
  let semiregion_node_psi_offset := ebm_variable_offset rn0.1 POTENTIAL in
  let semiregion_node_Tl_offset := ebm_variable_offset rn0.1 TEMPERATURE in
  let l := local_offset rn.2 in
  let g := global_offset rn.2 in
  let jac :=
    Jacobian_equality jac
      (VecGetValue x (l + node_psi_offset))
      (VecGetValue x (local_offset rn0.2 + semiregion_node_psi_offset))
      (g + node_psi_offset) (global_offset rn0.2 + semiregion_node_psi_offset) in
  if enable_Tl model then
    Jacobian_equality jac
      (VecGetValue x (l + node_Tl_offset))
      (VecGetValue x (local_offset rn0.2 + semiregion_node_Tl_offset))
      (g + node_Tl_offset) (global_offset rn0.2 + semiregion_node_Tl_offset)
  else jac.

Definition Jacobian_region (x : list R) (nd : BoundaryNode)
    (rn0 : SimulationRegion * FVM_Node) (jac : Mat)
    (irn : nat * (SimulationRegion * FVM_Node)) : result Mat :=
  match type irn.2.1 with
  | SemiconductorRegion => Jacobian_semiconductor x nd irn.1 jac irn.2
  | ElectrodeRegion | InsulatorRegion => Ok (Jacobian_conductor x rn0 jac irn.2)
  | VacuumRegion => Ok jac
  | _ => genius_error
  end.

Definition Jacobian_node (x : list R) (jac : Mat) (nd : BoundaryNode) : result Mat :=
  if negb (Nat.eqb (processor_id nd) me) then Ok jac
  else match region_node nd with
       | [] => Ok jac
       | rn0 :: _ => foldM (Jacobian_region x nd rn0) jac (imap pair (region_node nd))
       end.

(** The circuit equation differentiated with respect to [Ve]; "we do not use
    AD here". *)
Definition Jacobian_circuit (jac : Mat) : Mat :=
  let ckt := ext_circuit bc in
  let bc_global_offset := bc_global_offset bc in
  let R := ckt_R ckt in
  let C := ckt_C ckt in
  let L := ckt_L ckt in
  if is_last_processor then
    if is_inter_connect_bc bc then
      let jac := MatSetValue jac bc_global_offset bc_global_offset 1 in
      MatSetValue jac bc_global_offset (hub_global_offset bc) (-1)
    else if is_voltage_driven ckt then
      MatSetValue jac bc_global_offset bc_global_offset (1 + (L / dt spec + R) * C / dt spec)
    else jac
  else jac.

(** [OhmicContactBC::EBM3_Jacobian]; [buf] is what
    [EBM3_Jacobian_Preprocess] buffered. *)
Definition EBM3_Jacobian (buf : JacobianBuffer) (x : list R) (jac : Mat)
    (add_value_flag : InsertMode) : result (Mat * InsertMode) :=
  let jac := Jacobian_current_entries jac (buffer_cols buf) (buffer_jacobian_entries buf) in
  do jac <- foldM (Jacobian_node x) jac (bd_nodes bc) ;;;
  Ok (Jacobian_circuit jac, ADD_VALUES).

End Equations.

End OhmicContact.

(** ** EBM3Solver (ebm3.cc) *)

(** What the solver reads from [_system]: the regions, the array offset of
    every boundary condition ([None] is [invalid_uint]) and the external
    temperature. *)
Record SimulationSystem := {
  regions : list SimulationRegion;
  bcs_array_offset : list (option nat);
  T_external : R
}.

(** [int N] and the [unsigned int] products added to it. *)
Definition to_unsigned (z : Z) : Z := (z mod 2 ^ 32)%Z.

Definition to_int (z : Z) : Z :=
  let u := to_unsigned z in
  if (u <? 2 ^ 31)%Z then u else (u - 2 ^ 32)%Z.

Module EBM3Solver.

Section Solver.

Variables (kb e cm K : R).             (* PhysicalUnit *)
Variable spec : SolverSpecify.
Variable _system : SimulationSystem.
Variable is_last_processor : bool.

Definition onePerCMC : R := 1 * powerRZ cm (-3).

(** [if (a[i] < floor) a[i] = floor;] *)
Definition clamp_below (a : list R) (i : nat) (floor : R) : list R :=
  if Rlt_dec (VecGetValue a i) floor then <[i := floor]> a else a.

(** The carrier-temperature limit: the unknown at [temp_index] is the
    product of the carrier density and the carrier temperature; [old] holds
    the previous iterate and [a] the candidate. *)
Definition limit_carrier_temperature (old a : list R) (carrier_index temp_index : nat)
  : list R :=
  let n0 := VecGetValue old carrier_index in
  let n1 := VecGetValue a carrier_index in
  let T0 := VecGetValue old temp_index / n0 in
  let T1 := T0 * (1 - Rmin (n1 / n0) 2) + VecGetValue a temp_index / n0 in
  let T1 := if Rlt_dec T1 (0.9 * T_external _system) then 0.9 * T_external _system else T1 in
  <[temp_index := T1 * n1]> a.

(** The limits every candidate iterate is subjected to at one node. *)
Definition limit_node (region : SimulationRegion) (old a : list R) (fvm_node : FVM_Node)
  : list R :=
  let model := get_advanced_model region in
  let node_n_offset := ebm_variable_offset region ELECTRON in
  let node_p_offset := ebm_variable_offset region HOLE in
  let node_Tl_offset := ebm_variable_offset region TEMPERATURE in
  let node_Tn_offset := ebm_variable_offset region E_TEMP in
  let node_Tp_offset := ebm_variable_offset region H_TEMP in
  let local_offset := local_offset fvm_node in
  let a := clamp_below a (local_offset + node_n_offset) onePerCMC in
  let a := clamp_below a (local_offset + node_p_offset) onePerCMC in
  let a := if enable_Tl model
           then clamp_below a (local_offset + node_Tl_offset) (T_external _system - 50 * K)
           else a in
  let a := if enable_Tn model
           then limit_carrier_temperature old a (local_offset + node_n_offset)
                  (local_offset + node_Tn_offset)
           else a in
  if enable_Tp model
  then limit_carrier_temperature old a (local_offset + node_p_offset)
         (local_offset + node_Tp_offset)
  else a.

(** *** potential_damping *)

Definition damping_scan_node (region : SimulationRegion) (xx yy : list R)
    (st : R * list R) (fvm_node : FVM_Node) : R * list R :=
  let dV_max := st.1 in
  let ww := st.2 in
  let node_psi_offset := ebm_variable_offset region POTENTIAL in
  let dV := Rabs (VecGetValue yy (local_offset fvm_node + node_psi_offset)) in
  let dV_max := if Rgt_dec dV dV_max then dV else dV_max in
  (dV_max, limit_node region xx ww fvm_node).

Definition damping_scan_region (xx yy : list R) (st : R * list R)
    (region : SimulationRegion) : R * list R :=
  match type region with
  | SemiconductorRegion => foldl (damping_scan_node region xx yy) st (on_processor_nodes region)
  | _ => st
  end.

(** [Parallel::max(dV_max)]: the maximum over this rank and the others. *)
Definition Parallel_max (others : list R) (mine : R) : R := foldr Rmax mine others.

(** [ww[i] = xx[i] - f*yy[i];] *)
Definition damp_at (f : R) (xx yy ww : list R) (i : nat) : list R :=
  <[i := VecGetValue xx i - f * VecGetValue yy i]> ww.

Definition damp_region (f : R) (xx yy ww : list R) (region : SimulationRegion) : list R :=
  match type region with
  | SemiconductorRegion =>
      foldl (fun ww fvm_node =>
               damp_at f xx yy ww (local_offset fvm_node + ebm_variable_offset region POTENTIAL))
            ww (on_processor_nodes region)
  | _ => ww
  end.

Definition damp_bc (f : R) (xx yy ww : list R) (array_offset : option nat) : list R :=
  match array_offset with
  | Some i => damp_at f xx yy ww i
  | None => ww
  end.

(** The global maximum potential update. *)
Definition dV_max_global (others : list R) (xx yy ww : list R) : R :=
  Parallel_max others (foldl (damping_scan_region xx yy) (0, ww) (regions _system)).1.

(** The logarithmic potential damping factor. *)
Definition damping_factor (dV_max : R) : R :=
  let Vut := kb * T_external _system / e * potential_update spec in
  ln (1 + dV_max / Vut) / (dV_max / Vut).

(** [EBM3Solver::potential_damping(x, y, w, changed_y, changed_w)]; returns
    the candidate iterate and the two flags. *)
Definition potential_damping (others : list R) (xx yy ww : list R)
  : list R * bool * bool :=
  let st := foldl (damping_scan_region xx yy) (0, ww) (regions _system) in
  let dV_max := Parallel_max others st.1 in
  let ww := st.2 in
  let ww :=
    if Rgt_dec dV_max 1e-6 then
      let f := damping_factor dV_max in
      let ww := foldl (damp_region f xx yy) ww (regions _system) in
      if is_last_processor
      then foldl (damp_bc f xx yy) ww (bcs_array_offset _system)
      else ww
    else ww in
  (ww, false, true).

(** *** projection_positive_density_check *)

Definition projection_region (oo xx : list R) (region : SimulationRegion) : list R :=
  match type region with
  | SemiconductorRegion =>
      foldl (limit_node region oo) xx (on_processor_nodes region)
  | _ => xx
  end.

(** [EBM3Solver::projection_positive_density_check(x, xo)]; returns [x]. *)
Definition projection_positive_density_check (xx oo : list R) : list R :=
  foldl (projection_region oo) xx (regions _system).

(** *** LTE_norm *)

(** The predicted solution [xp]. *)
Definition predictor (xp x_n x_n1 x_n2 : list R) : list R :=
  let hn := dt spec in
  let hn1 := dt_last spec in
  let hn2 := dt_last_last spec in
  let xp := VecZeroEntries xp in
  match TS_type spec with
  | BDF1 =>
      let xp := VecAXPY xp (1 + hn / hn1) x_n in
      VecAXPY xp (- hn / hn1) x_n1
  | BDF2 =>
      let cn := 1 + hn * (hn + 2 * hn1 + hn2) / (hn1 * (hn1 + hn2)) in
      let cn1 := - hn * (hn + hn1 + hn2) / (hn1 * hn2) in
      let cn2 := hn * (hn + hn1) / (hn2 * (hn1 + hn2)) in
      let xp := VecAXPY xp cn x_n in
      let xp := VecAXPY xp cn1 x_n1 in
      VecAXPY xp cn2 x_n2
  | OtherScheme => xp
  end.

(** The raw error vector [LTE], before it is weighted. *)
Definition LTE_vector (LTE x xp : list R) : list R :=
  let hn := dt spec in
  let hn1 := dt_last spec in
  let hn2 := dt_last_last spec in
  let LTE := VecZeroEntries LTE in
  match TS_type spec with
  | BDF1 =>
      let LTE := VecAXPY LTE (hn / (hn + hn1)) x in
      VecAXPY LTE (- hn / (hn + hn1)) xp
  | BDF2 =>
      let LTE := VecAXPY LTE (hn / (hn + hn1 + hn2)) x in
      VecAXPY LTE (- hn / (hn + hn1 + hn2)) xp
  | OtherScheme => LTE
  end.

(** [ll[i] = ll[i]/(eps_r*xx[i]+eps_a);] *)
Definition weigh (xx ll : list R) (i : nat) : list R :=
  <[i := VecGetValue ll i / (TS_rtol spec * VecGetValue xx i + TS_atol spec)]> ll.

Definition LTE_semiconductor_node (region : SimulationRegion) (xx ll : list R)
    (fvm_node : FVM_Node) : list R :=
  let model := get_advanced_model region in
  let local_offset := local_offset fvm_node in
  let ll := <[(local_offset + ebm_variable_offset region POTENTIAL)%nat := 0]> ll in
  let ll := weigh xx ll (local_offset + ebm_variable_offset region ELECTRON) in
  let ll := weigh xx ll (local_offset + ebm_variable_offset region HOLE) in
  let ll := if enable_Tl model
            then weigh xx ll (local_offset + ebm_variable_offset region TEMPERATURE) else ll in
  let ll := if enable_Tn model
            then weigh xx ll (local_offset + ebm_variable_offset region E_TEMP) else ll in
  if enable_Tp model
  then weigh xx ll (local_offset + ebm_variable_offset region H_TEMP) else ll.

Definition LTE_conductor_node (region : SimulationRegion) (xx ll : list R)
    (fvm_node : FVM_Node) : list R :=
  let model := get_advanced_model region in
  let local_offset := local_offset fvm_node in
  let ll := <[(local_offset + ebm_variable_offset region POTENTIAL)%nat := 0]> ll in
  if enable_Tl model
  then weigh xx ll (local_offset + ebm_variable_offset region TEMPERATURE) else ll.

(** [N += (region->ebm_n_variables()-1)*region->n_on_processor_node();] *)
Definition count_unknowns (N : Z) (region : SimulationRegion) : Z :=
  let product :=
    to_unsigned (to_unsigned (Z.of_nat (ebm_n_variables region) - 1)
                 * Z.of_nat (n_on_processor_node region)) in
  to_int (to_unsigned N + product).

Definition LTE_region (xx : list R) (st : Z * list R) (region : SimulationRegion)
  : result (Z * list R) :=
  let N := st.1 in
  let ll := st.2 in
  match type region with
  | SemiconductorRegion =>
      Ok (count_unknowns N region,
          foldl (LTE_semiconductor_node region xx) ll (on_processor_nodes region))
  | InsulatorRegion | ElectrodeRegion | MetalRegion =>
      Ok (count_unknowns N region,
          foldl (LTE_conductor_node region xx) ll (on_processor_nodes region))
  | VacuumRegion => Ok st
  | _ => genius_error
  end.

Definition LTE_bc (ll : list R) (array_offset : option nat) : list R :=
  match array_offset with
  | Some i => <[i := 0]> ll
  | None => ll
  end.

(** [Parallel::sum(N)] *)
Definition Parallel_sum (others : list Z) (mine : Z) : Z :=
  to_int (foldr Z.add mine others).

(** The number [N] of error-carrying unknowns after the global reduction. *)
Definition LTE_count (others : list Z) : Z :=
  Parallel_sum others (foldl count_unknowns 0%Z
    (filter (fun region => SimulationRegionType_eqb (type region) VacuumRegion = false)
            (regions _system))).

(** [EBM3Solver::LTE_norm()]; [x] is the corrector solution, [x_n], [x_n1],
    [x_n2] the previous accepted solutions, [xp] and [LTE] the work vectors,
    [others] what the other ranks add to [N]. *)
Definition LTE_norm (others : list Z) (x x_n x_n1 x_n2 xp LTE : list R) : result R :=
  let xp := predictor xp x_n x_n1 x_n2 in
  let LTE := LTE_vector LTE x xp in
  do st <- foldM (LTE_region x) (0%Z, LTE) (regions _system) ;;;
  let ll := if is_last_processor
            then foldl LTE_bc st.2 (bcs_array_offset _system) else st.2 in
  let r := VecNorm_2 ll in
  let N := Parallel_sum others st.1 in
  if (0 <? N)%Z then Ok (r / sqrt (IZR N)) else Ok 1.

End Solver.

End EBM3Solver.

(** ** Edge fluxes of the semiconductor region (ddm1_semiconductor.cc) *)

(** An edge of the region with the geometry [fvm_n1] knows about it. *)
Record Edge := {
  fvm_n1 : FVM_Node;
  fvm_n2 : FVM_Node;
  distance : R;                        (* fvm_n1->distance(fvm_n2) *)
  cv_surface_area : R                  (* fvm_n1->cv_surface_area(fvm_n2->root_node()) *)
}.

(** An edge as a cell sees it. *)
Record CellEdge := {
  edge_fvm_n1 : FVM_Node;              (* elem->get_fvm_node(edge_nodes.first) *)
  edge_fvm_n2 : FVM_Node;
  elem_edge_index : nat;               (* this->elem_edge_index(elem, ne) *)
  edge_length : R;
  partial_area_with_edge : R;
  partial_area_with_edge_truncated : R
}.

Record Elem := {
  elem_edges : list CellEdge;
  on_boundary : bool;
  on_interface : bool
}.

(** [SolverSpecify::VoronoiTruncation] *)
Inductive VoronoiTruncationFlag :=
  | VoronoiTruncationOff | VoronoiTruncationBoundary | VoronoiTruncationAlways.

Module SemiconductorSimulationRegion.

Section DDM1.

Variables (kb e : R).                  (* PhysicalUnit *)
Variable T : R.                        (* T_external() *)
Variable nie : FVM_Node -> R -> R -> R -> R.   (* mt->band->nie(p, n, T) at a node *)
Variable gamma_f : R -> R.
Variables In_dd Ip_dd : R -> R -> R -> R -> R -> R.
Variable Fermi_statistics : bool.      (* get_advanced_model()->Fermi *)
Variable highfield_mob : bool.
(** The high-field mobilities [(mun1, mup1, mun2, mup2)] of a cell edge, from
    the material library and the field reconstructed in the cell. *)
Variable highfield_mobility : Elem -> CellEdge -> list R -> R * R * R * R.
Variable VoronoiTruncation : VoronoiTruncationFlag.
Variable edges : list Edge.
Variable elements : list Elem.

Definition Vt : R := kb * T / e.

(** The effective band edges [(Ec, Ev)] at one end of an edge. *)
Definition band_edges (x : list R) (fvm : FVM_Node) : R * R :=
  let data := node_data fvm in
  let V := VecGetValue x (local_offset fvm + 0) in
  let n := VecGetValue x (local_offset fvm + 1) in
  let p := VecGetValue x (local_offset fvm + 2) in
  let Ec := - (e * V + affinity data + kb * T * ln (nie fvm p n T)) in
  let Ev := - (e * V + affinity data - kb * T * ln (nie fvm p n T)) in
  if Fermi_statistics
  then (Ec - e * Vt * ln (gamma_f (Rabs n / Nc data)),
        Ev + e * Vt * ln (gamma_f (Rabs p / Nv data)))
  else (Ec, Ev).

Record EdgeBuffers := {
  Jn_edge_buffer : list R;
  Jp_edge_buffer : list R;
  iy : list nat;
  y : list R
}.

(** The "flux" of Poisson's equation from node 2 to node 1. *)
Definition poisson_flux (x : list R) (edge : Edge) : R :=
  let V1 := VecGetValue x (local_offset (fvm_n1 edge) + 0) in
  let V2 := VecGetValue x (local_offset (fvm_n2 edge) + 0) in
  let eps1 := eps (node_data (fvm_n1 edge)) in
  let eps2 := eps (node_data (fvm_n2 edge)) in
  let eps := 0.5 * (eps1 + eps2) in
  eps * cv_surface_area edge * (V2 - V1) / distance edge.

(** One turn of the loop over the edges of the region. *)
Definition edge_step (x : list R) (st : EdgeBuffers) (edge : Edge) : EdgeBuffers :=
  let length := distance edge in
  let n1 := VecGetValue x (local_offset (fvm_n1 edge) + 1) in
  let p1 := VecGetValue x (local_offset (fvm_n1 edge) + 2) in
  let n2 := VecGetValue x (local_offset (fvm_n2 edge) + 1) in
  let p2 := VecGetValue x (local_offset (fvm_n2 edge) + 2) in
  let Ec1 := (band_edges x (fvm_n1 edge)).1 in
  let Ev1 := (band_edges x (fvm_n1 edge)).2 in
  let Ec2 := (band_edges x (fvm_n2 edge)).1 in
  let Ev2 := (band_edges x (fvm_n2 edge)).2 in
  let Jn := Jn_edge_buffer st ++ [In_dd Vt ((Ec2 - Ec1) / e) n1 n2 length] in
  let Jp := Jp_edge_buffer st ++ [Ip_dd Vt ((Ev2 - Ev1) / e) p1 p2 length] in
  let f := poisson_flux x edge in
  let iy1 := if on_processor (fvm_n1 edge) then iy st ++ [global_offset (fvm_n1 edge)] else iy st in
  let y1 := if on_processor (fvm_n1 edge) then y st ++ [f] else y st in
  let iy2 := if on_processor (fvm_n2 edge) then iy1 ++ [global_offset (fvm_n2 edge)] else iy1 in
  let y2 := if on_processor (fvm_n2 edge) then y1 ++ [- f] else y1 in
  {| Jn_edge_buffer := Jn; Jp_edge_buffer := Jp; iy := iy2; y := y2 |}.

Definition truncation (elem : Elem) : bool :=
  match VoronoiTruncation with
  | VoronoiTruncationAlways => true
  | VoronoiTruncationBoundary => (on_boundary elem || on_interface elem)%bool
  | VoronoiTruncationOff => false
  end.

(** The S-G currents of a cell edge, from the precomputed edge values. *)
Definition cell_edge_currents (x : list R) (st : EdgeBuffers) (elem : Elem)
    (ce : CellEdge) : R * R :=
  let inverse := Nat.ltb (root_node_id (edge_fvm_n2 ce)) (root_node_id (edge_fvm_n1 ce)) in
  let mob :=
    if highfield_mob then highfield_mobility elem ce x
    else (mun (node_data (edge_fvm_n1 ce)), mup (node_data (edge_fvm_n1 ce)),
          mun (node_data (edge_fvm_n2 ce)), mup (node_data (edge_fvm_n2 ce))) in
  let mun1 := mob.1.1.1 in
  let mup1 := mob.1.1.2 in
  let mun2 := mob.1.2 in
  let mup2 := mob.2 in
  let mun := 0.5 * (mun1 + mun2) in
  let mup := 0.5 * (mup1 + mup2) in
  let edge_index := elem_edge_index ce in
  let Jn := mun * (if inverse then - VecGetValue (Jn_edge_buffer st) edge_index
                   else VecGetValue (Jn_edge_buffer st) edge_index) in
  let Jp := mup * (if inverse then - VecGetValue (Jp_edge_buffer st) edge_index
                   else VecGetValue (Jp_edge_buffer st) edge_index) in
  (Jn, Jp).

(** One turn of the loop over the edges of a cell: the continuity equations
    of electrons (row +1) and holes (row +2). *)
Definition cell_edge_step (x : list R) (elem : Elem) (st : EdgeBuffers) (ce : CellEdge)
  : EdgeBuffers :=
  let truncated_partial_area :=
    if truncation elem then partial_area_with_edge_truncated ce
    else partial_area_with_edge ce in
  let Jn := (cell_edge_currents x st elem ce).1 in
  let Jp := (cell_edge_currents x st elem ce).2 in
  let n1_global_offset := global_offset (edge_fvm_n1 ce) in
  let n2_global_offset := global_offset (edge_fvm_n2 ce) in
  let iy1 := if on_processor (edge_fvm_n1 ce)
             then iy st ++ [n1_global_offset + 1; n1_global_offset + 2]%nat else iy st in
  let y1 := if on_processor (edge_fvm_n1 ce)
            then y st ++ [Jn * truncated_partial_area; - Jp * truncated_partial_area]
            else y st in
  let iy2 := if on_processor (edge_fvm_n2 ce)
             then iy1 ++ [n2_global_offset + 1; n2_global_offset + 2]%nat else iy1 in
  let y2 := if on_processor (edge_fvm_n2 ce)
            then y1 ++ [- Jn * truncated_partial_area; Jp * truncated_partial_area]
            else y1 in
  {| Jn_edge_buffer := Jn_edge_buffer st; Jp_edge_buffer := Jp_edge_buffer st;
     iy := iy2; y := y2 |}.

Definition no_buffers : EdgeBuffers :=
  {| Jn_edge_buffer := []; Jp_edge_buffer := []; iy := []; y := [] |}.

(** The edge-wise part of [SemiconductorSimulationRegion::DDM1_Function]:
    the loop over the edges (S-G currents precomputed, Poisson flux buffered)
    followed by the loop over the cells and their edges (continuity fluxes
    buffered).  The generation, recombination and node-wise terms the
    function buffers besides are sources and are not part of it. *)
Definition DDM1_Function_fluxes (x : list R) : EdgeBuffers :=
  let st := foldl (edge_step x) no_buffers edges in
  foldl (fun st elem => foldl (cell_edge_step x elem) st (elem_edges elem)) st elements.

(** The buffered values added to the residual. *)
Definition DDM1_Function_add_fluxes (x f : list R) : list R :=
  let st := DDM1_Function_fluxes x in
  if bool_decide (iy st = []) then f else VecSetValues f (iy st) (y st) ADD_VALUES.

(** *** The buffered fluxes in closed form *)

(** The S-G currents the edge loop stores for one edge. *)
Definition edge_current_n (x : list R) (edge : Edge) : R :=
  let n1 := VecGetValue x (local_offset (fvm_n1 edge) + 1) in
  let n2 := VecGetValue x (local_offset (fvm_n2 edge) + 1) in
  let Ec1 := (band_edges x (fvm_n1 edge)).1 in
  let Ec2 := (band_edges x (fvm_n2 edge)).1 in
  In_dd Vt ((Ec2 - Ec1) / e) n1 n2 (distance edge).

Definition edge_current_p (x : list R) (edge : Edge) : R :=
  let p1 := VecGetValue x (local_offset (fvm_n1 edge) + 2) in
  let p2 := VecGetValue x (local_offset (fvm_n2 edge) + 2) in
  let Ev1 := (band_edges x (fvm_n1 edge)).2 in
  let Ev2 := (band_edges x (fvm_n2 edge)).2 in
  Ip_dd Vt ((Ev2 - Ev1) / e) p1 p2 (distance edge).

(** Rows and values an edge contributes to Poisson's equation when both
    its ends are on this processor. *)
Definition edge_flux_rows (edge : Edge) : list nat :=
  [global_offset (fvm_n1 edge); global_offset (fvm_n2 edge)].

Definition edge_flux_values (x : list R) (edge : Edge) : list R :=
  [poisson_flux x edge; - poisson_flux x edge].

(** Rows and values an edge of a cell contributes to the continuity
    equations when both its ends are on this processor.  The currents are
    the Scharfetter-Gummel currents of the edge of the region the cell edge
    lies on (the edge at [elem_edge_index]), against their direction when
    the cell edge runs from the node with the larger id to the one with
    the smaller, times the mobility at the mid point of the edge; [Jn*A]
    and [-Jp*A] go to the first end, [-Jn*A] and [Jp*A] to the second. *)
Definition cell_edge_flux_rows (ce : CellEdge) : list nat :=
  [global_offset (edge_fvm_n1 ce) + 1; global_offset (edge_fvm_n1 ce) + 2;
   global_offset (edge_fvm_n2 ce) + 1; global_offset (edge_fvm_n2 ce) + 2]%nat.

Definition cell_edge_flux_values (x : list R) (elem : Elem) (ce : CellEdge) : list R :=
  let A := if truncation elem then partial_area_with_edge_truncated ce
           else partial_area_with_edge ce in
  let In := VecGetValue (map (edge_current_n x) edges) (elem_edge_index ce) in
  let Ip := VecGetValue (map (edge_current_p x) edges) (elem_edge_index ce) in
  let orientation :=
    if Nat.ltb (root_node_id (edge_fvm_n2 ce)) (root_node_id (edge_fvm_n1 ce))
    then -1 else 1 in
  let mobilities :=
    if highfield_mob then highfield_mobility elem ce x
    else (mun (node_data (edge_fvm_n1 ce)), mup (node_data (edge_fvm_n1 ce)),
          mun (node_data (edge_fvm_n2 ce)), mup (node_data (edge_fvm_n2 ce))) in
  let mun := 0.5 * (mobilities.1.1.1 + mobilities.1.2) in
  let mup := 0.5 * (mobilities.1.1.2 + mobilities.2) in
  let Jn := mun * orientation * In in
  let Jp := mup * orientation * Ip in
  [Jn * A; - (Jp * A); - (Jn * A); Jp * A].

(** No end of an edge is a ghost node. *)
Definition edges_on_processor (l : list Edge) : bool :=
  forallb (fun edge => on_processor (fvm_n1 edge) && on_processor (fvm_n2 edge)) l.

Definition cell_edges_on_processor (l : list CellEdge) : bool :=
  forallb (fun ce => on_processor (edge_fvm_n1 ce) && on_processor (edge_fvm_n2 ce)) l.

Definition closed_mesh : bool :=
  edges_on_processor edges
  && forallb (fun elem => cell_edges_on_processor (elem_edges elem)) elements.

End DDM1.

End SemiconductorSimulationRegion.

(** ** Rows and values of the homogeneous interface, in closed form *)

(** The rows a region other than the reference one is coupled through. *)
Definition coupling_rows (rn : SimulationRegion * FVM_Node) : list nat :=
  let gi := global_offset rn.2 in
  match type rn.1 with
  | SemiconductorRegion => [gi + 0; gi + 1; gi + 2]%nat
  | InsulatorRegion => [(gi + 0)%nat]
  | _ => []
  end.

(** The equality equations written there. *)
Definition coupling_values (x : list R) (fvm0 : FVM_Node)
    (rn : SimulationRegion * FVM_Node) : list R :=
  let li := local_offset rn.2 in
  let l0 := local_offset fvm0 in
  match type rn.1 with
  | SemiconductorRegion =>
      [VecGetValue x (li + 0) - VecGetValue x (l0 + 0);
       VecGetValue x (li + 1) - VecGetValue x (l0 + 1);
       VecGetValue x (li + 2) - VecGetValue x (l0 + 2)]
  | InsulatorRegion => [VecGetValue x (li + 0) - VecGetValue x (l0 + 0)]
  | _ => []
  end.

Definition node_coupling_rows (me : nat) (nd : BoundaryNode) : list nat :=
  if negb (Nat.eqb (processor_id nd) me) then []
  else match region_node nd with
       | [] => []
       | rn0 :: others => flat_map coupling_rows others
       end.

Definition node_coupling_values (me : nat) (x : list R) (nd : BoundaryNode) : list R :=
  if negb (Nat.eqb (processor_id nd) me) then []
  else match region_node nd with
       | [] => []
       | rn0 :: others => flat_map (coupling_values x rn0.2) others
       end.



(** ** The setup of the boundaries *)




(** ** Layout of the electrode unknown *)

(** The scalar slot of the electrode lies apart from the rows of the
    control volumes on the boundary. *)
Definition electrode_row_apart (bc : OhmicContactBC) : Prop :=
  forall nd rn v,
    nd ∈ bd_nodes bc -> rn ∈ region_node nd ->
    (global_offset rn.2 + ebm_variable_offset rn.1 v)%nat <> bc_global_offset bc.

(** The circuit equation of a voltage-driven electrode, as the spec writes
    it; [I] is the current into the electrode, [Ve] its potential. *)
Definition voltage_driven_equation (spec : SolverSpecify) (ckt : ExternalCircuit)
    (I Ve : R) : R :=
  (ckt_L ckt / dt spec + ckt_R ckt) * I
  + (Ve - Vapp ckt)
  + (ckt_L ckt / dt spec + ckt_R ckt) * (ckt_C ckt / dt spec) * (Ve - potential ckt)
  - (ckt_L ckt / dt spec) * (current_prev ckt + cap_current ckt).

(** The currents an Ohmic boundary accumulates, in closed form: the
    conduction current [In - Ip] read from the assembled residual at every
    semiconductor control volume of the boundary, and the displacement
    currents towards its neighbours. *)
Definition node_conduction_currents (me : nat) (f : list R) (nd : BoundaryNode) : list R :=
  if negb (Nat.eqb (processor_id nd) me) then []
  else flat_map
         (fun rn : SimulationRegion * FVM_Node =>
            match type rn.1 with
            | SemiconductorRegion =>
                [VecGetValue f (global_offset rn.2 + 1)
                 - VecGetValue f (global_offset rn.2 + 2)]
            | _ => []
            end)
         (region_node nd).

Definition node_displacement_currents (spec : SolverSpecify) (me : nat) (x : list R)
    (nd : BoundaryNode) : list R :=
  if negb (Nat.eqb (processor_id nd) me) then []
  else flat_map
         (fun rn : SimulationRegion * FVM_Node =>
            match type rn.1 with
            | SemiconductorRegion =>
                if TimeDependent spec
                then map (OhmicContact.displacement_current spec x rn.2
                            (VecGetValue x
                               (local_offset rn.2 + ebm_variable_offset rn.1 POTENTIAL)))
                         (neighbor_node nd)
                else []
            | _ => []
            end)
         (region_node nd).

(** The net conduction plus displacement current into the electrode. *)
Definition electrode_current (spec : SolverSpecify) (me : nat) (bc : OhmicContactBC)
    (f x : list R) : R :=
  z_width bc *
  (sum_list (flat_map (node_conduction_currents me f) (bd_nodes bc))
   + sum_list (flat_map (node_displacement_currents spec me x) (bd_nodes bc))).

(** The buffered derivatives of the current term all vanish. *)
Definition all_zero (buf : OhmicContact.JacobianBuffer) : Prop :=
  Forall (Forall (fun a => a = 0)) (OhmicContact.buffer_jacobian_entries buf).

(** Two matrices agree on one row. *)
Definition same_row (row : nat) (jac1 jac2 : Mat) : Prop :=
  forall c, jac2 row c = jac1 row c.

(** ** The limits of the solver, in closed form *)

(** A batch of lower limits [(index, floor)], applied in order. *)
Definition apply_clamps (clamps : list (nat * R)) (a : list R) : list R :=
  foldl (fun a c => EBM3Solver.clamp_below a c.1 c.2) a clamps.

(** The lower limits of one node: carrier densities, and the lattice
    temperature where it is solved for. *)
Definition node_clamps (cm K : R) (_system : SimulationSystem) (region : SimulationRegion)
    (fvm_node : FVM_Node) : list (nat * R) :=
  let l := local_offset fvm_node in
  [ ((l + ebm_variable_offset region ELECTRON)%nat, EBM3Solver.onePerCMC cm);
    ((l + ebm_variable_offset region HOLE)%nat, EBM3Solver.onePerCMC cm) ]
  ++ (if enable_Tl (get_advanced_model region)
      then [((l + ebm_variable_offset region TEMPERATURE)%nat, T_external _system - 50 * K)]
      else []).

Definition region_clamps (cm K : R) (_system : SimulationSystem)
    (region : SimulationRegion) : list (nat * R) :=
  match type region with
  | SemiconductorRegion =>
      flat_map (node_clamps cm K _system region) (on_processor_nodes region)
  | _ => []
  end.

Definition system_clamps (cm K : R) (_system : SimulationSystem) : list (nat * R) :=
  flat_map (region_clamps cm K _system) (regions _system).

(** No semiconductor region solves for a carrier temperature. *)
Definition carrier_temperatures_off (_system : SimulationSystem) : Prop :=
  forall region,
    region ∈ regions _system -> type region = SemiconductorRegion ->
    enable_Tn (get_advanced_model region) = false /\
    enable_Tp (get_advanced_model region) = false.

(** The potential unknowns of the semiconductor regions on this processor. *)
Definition semiconductor_potentials (regions : list SimulationRegion) : list nat :=
  flat_map
    (fun region =>
       match type region with
       | SemiconductorRegion =>
           map (fun fvm_node =>
                  (local_offset fvm_node + ebm_variable_offset region POTENTIAL)%nat)
               (on_processor_nodes region)
       | _ => []
       end)
    regions.

(** The potential unknowns of all the regions that carry one. *)
Definition all_potentials (regions : list SimulationRegion) : list nat :=
  flat_map
    (fun region =>
       match type region with
       | VacuumRegion | PMLRegion => []
       | _ =>
           map (fun fvm_node =>
                  (local_offset fvm_node + ebm_variable_offset region POTENTIAL)%nat)
               (on_processor_nodes region)
       end)
    regions.

(** The unknowns of the boundary conditions (electrodes). *)
Definition boundary_unknowns (_system : SimulationSystem) : list nat :=
  omap (fun array_offset : option nat => array_offset) (bcs_array_offset _system).

(** A vector whose entries are all zero. *)
Definition zero_vector (l : list R) : Prop := Forall (fun a => a = 0) l.

(** The running maximum of the potential updates. *)
Definition dV_scan (yy : list R) (dV_max : R) (indices : list nat) : R :=
  foldl (fun dV_max i =>
           if Rgt_dec (Rabs (VecGetValue yy i)) dV_max
           then Rabs (VecGetValue yy i) else dV_max)
        dV_max indices.

(** The unknowns the limits of a candidate iterate may write. *)
Definition node_limited_unknowns (region : SimulationRegion) (fvm_node : FVM_Node)
  : list nat :=
  let l := local_offset fvm_node in
  [ l + ebm_variable_offset region ELECTRON;
    l + ebm_variable_offset region HOLE;
    l + ebm_variable_offset region TEMPERATURE;
    l + ebm_variable_offset region E_TEMP;
    l + ebm_variable_offset region H_TEMP ]%nat.

Definition limited_unknowns (regions : list SimulationRegion) : list nat :=
  flat_map
    (fun region =>
       match type region with
       | SemiconductorRegion =>
           flat_map (node_limited_unknowns region) (on_processor_nodes region)
       | _ => []
       end)
    regions.

(** ** Scenarios

    The boundary node of the scenarios: [n] semiconductor control
    volumes at one geometric point, the one of region [i] holding its three
    unknowns at offsets [3*i .. 3*i+2]. *)
Definition plain_model : AdvancedModel :=
  {| enable_Tl := false; enable_Tn := false; enable_Tp := false; Fermi := false |}.

Definition plain_data : FVM_NodeData :=
  {| affinity := 0; Net_doping := 0; eps := 1; mun := 1; mup := 1;
     psi := 0; psi_last := 0; Nc := 1; Nv := 1 |}.

Definition fvm_at (id offset : nat) : FVM_Node :=
  {| root_node_id := id; local_offset := offset; global_offset := offset;
     on_processor := true; node_data := plain_data;
     outside_boundary_surface_area := 0 |}.

Definition ddm_offset (v : SolutionVariable) : nat :=
  match v with
  | POTENTIAL => 0 | ELECTRON => 1 | HOLE => 2
  | TEMPERATURE => 3 | E_TEMP => 4 | H_TEMP => 5
  end.

Definition region_of (t : SimulationRegionType) (nodes : list FVM_Node) : SimulationRegion :=
  {| type := t; get_advanced_model := plain_model;
     ebm_variable_offset := ddm_offset; ebm_n_variables := 3;
     on_processor_nodes := nodes |}.

Definition shared_node (types : list SimulationRegionType) : BoundaryNode :=
  {| processor_id := 0;
     region_node := imap (fun i t => (region_of t [fvm_at 0 (3 * i)], fvm_at 0 (3 * i))) types;
     neighbor_node := [] |}.

(** An electrode on one semiconductor control volume (unknowns at 0..5), its
    own unknown in slot 6, with a constant material and a steady-state
    solve. *)
Definition constant_material : Material :=
  {| band_nie := fun _ _ _ _ => 1;
     band_Nc := fun _ _ => 1;
     band_Nv := fun _ _ => 1;
     band_Eg := fun _ _ => 1;
     fermi_half := fun eta => eta |}.

Definition ohmic_derivatives (x : list R) (fvm : FVM_Node) : OhmicDerivatives :=
  {| dff1 := [1; 0; 0; -1]; dff2 := [0; 1; 0; 0]; dff3 := [0; 0; 1; 0];
     dfT := []; dfTn := []; dfTp := [] |}.

Definition steady_state : SolverSpecify :=
  {| TimeDependent := false; TS_type := BDF1; BDF2_restart := true;
     dt := 1; dt_last := 1; dt_last_last := 1;
     TS_rtol := 1; TS_atol := 1; potential_update := 1 |}.

Definition voltage_source (V : R) : ExternalCircuit :=
  {| ckt_R := 0; ckt_C := 0; ckt_L := 0; Vapp := V; Iapp := 0;
     current_prev := 0; cap_current := 0; potential := 0;
     is_voltage_driven := true; is_current_driven := false |}.

Definition current_source (I : R) : ExternalCircuit :=
  {| ckt_R := 0; ckt_C := 0; ckt_L := 0; Vapp := 0; Iapp := I;
     current_prev := 0; cap_current := 0; potential := 0;
     is_voltage_driven := false; is_current_driven := true |}.

Definition electrode (ckt : ExternalCircuit) : OhmicContactBC :=
  {| bd_nodes := [shared_node [SemiconductorRegion]];
     z_width := 1;
     bc_global_offset := 6;
     bc_local_offset := Some 6%nat;
     ext_circuit := ckt;
     is_inter_connect_bc := false;
     hub_local_offset := 0;
     hub_global_offset := 0;
     Heat_Transfer := 0 |}.

(** A system of one semiconductor region with one control volume, its six
    unknowns at 0..5 (potential, n, p, Tl, n*Tn, p*Tp), at 300 K. *)
Definition one_region (t : SimulationRegionType) (model : AdvancedModel) (n_variables : nat)
    (offset : nat) : SimulationRegion :=
  {| type := t; get_advanced_model := model;
     ebm_variable_offset := ddm_offset; ebm_n_variables := n_variables;
     on_processor_nodes := [fvm_at 0 offset] |}.

Definition one_region_system (model : AdvancedModel) : SimulationSystem :=
  {| regions := [one_region SemiconductorRegion model 6 0];
     bcs_array_offset := [];
     T_external := 300 |}.

Definition electron_temperature_model : AdvancedModel :=
  {| enable_Tl := false; enable_Tn := true; enable_Tp := false; Fermi := false |}.

(** An insulator alone, solved for its potential only: one unknown per
    control volume. *)
Definition insulator_system : SimulationSystem :=
  {| regions := [one_region InsulatorRegion plain_model 1 0];
     bcs_array_offset := [];
     T_external := 300 |}.

(** A semiconductor control volume (unknowns 0..5) next to an insulator
    control volume (potential at 6), at 300 K. *)
Definition two_region_system : SimulationSystem :=
  {| regions := [one_region SemiconductorRegion plain_model 6 0;
                 one_region InsulatorRegion plain_model 1 6];
     bcs_array_offset := [];
     T_external := 300 |}.

(** Two control volumes joined by one edge, inside one cell. *)
Definition two_node_edge : Edge :=
  {| fvm_n1 := fvm_at 0 0; fvm_n2 := fvm_at 1 3; distance := 1; cv_surface_area := 1 |}.

Definition two_node_cell : Elem :=
  {| elem_edges := [ {| edge_fvm_n1 := fvm_at 0 0; edge_fvm_n2 := fvm_at 1 3;
                        elem_edge_index := 0; edge_length := 1;
                        partial_area_with_edge := 1;
                        partial_area_with_edge_truncated := 1 |} ];
     on_boundary := false; on_interface := false |}.

(** Four control volumes on a closed loop of four edges around one cell. *)
Definition loop_edge (a b : nat) : Edge :=
  {| fvm_n1 := fvm_at a (3 * a); fvm_n2 := fvm_at b (3 * b);
     distance := 1; cv_surface_area := 1 |}.

Definition loop_cell_edge (a b index : nat) : CellEdge :=
  {| edge_fvm_n1 := fvm_at a (3 * a); edge_fvm_n2 := fvm_at b (3 * b);
     elem_edge_index := index; edge_length := 1;
     partial_area_with_edge := 1; partial_area_with_edge_truncated := 1 |}.

Definition four_node_loop : list Edge :=
  [loop_edge 0 1; loop_edge 1 2; loop_edge 2 3; loop_edge 0 3].

Definition four_node_cell : Elem :=
  {| elem_edges := [loop_cell_edge 0 1 0; loop_cell_edge 1 2 1;
                    loop_cell_edge 2 3 2; loop_cell_edge 3 0 3];
     on_boundary := false; on_interface := false |}.

(** * Vectors in space (type_vector.h)

    [TypeVector<Real>] at [DIM == 3], the branch a three-dimensional
    simulator is compiled with ([cross] asserts it). *)

Module TypeVector.

Record t := mk {
  _coords0 : R;
  _coords1 : R;
  _coords2 : R
}.

(** [coord(i)], [operator()(i)]: [assert (i<3)]. *)
Definition coord (v : t) (i : nat) : option R :=
  match i with
  | 0%nat => Some (_coords0 v)
  | 1%nat => Some (_coords1 v)
  | 2%nat => Some (_coords2 v)
  | _ => None
  end.

(** Assignment through the writable [operator()(i)]. *)
Definition set_coord (v : t) (i : nat) (a : R) : option t :=
  match i with
  | 0%nat => Some (mk a (_coords1 v) (_coords2 v))
  | 1%nat => Some (mk (_coords0 v) a (_coords2 v))
  | 2%nat => Some (mk (_coords0 v) (_coords1 v) a)
  | _ => None
  end.

(** [operator +], [add] *)
Definition add (a p : t) : t :=
  mk (_coords0 a + _coords0 p) (_coords1 a + _coords1 p) (_coords2 a + _coords2 p).

Definition add_scaled (a p : t) (factor : R) : t :=
  mk (_coords0 a + factor * _coords0 p) (_coords1 a + factor * _coords1 p)
     (_coords2 a + factor * _coords2 p).

(** [operator -], [subtract] *)
Definition subtract (a p : t) : t :=
  mk (_coords0 a - _coords0 p) (_coords1 a - _coords1 p) (_coords2 a - _coords2 p).

Definition subtract_scaled (a p : t) (factor : R) : t :=
  mk (_coords0 a - factor * _coords0 p) (_coords1 a - factor * _coords1 p)
     (_coords2 a - factor * _coords2 p).

(** unary [operator -] *)
Definition opp (a : t) : t := mk (- _coords0 a) (- _coords1 a) (- _coords2 a).

(** [operator * (Scalar)] *)
Definition scale (a : t) (factor : R) : t :=
  mk (_coords0 a * factor) (_coords1 a * factor) (_coords2 a * factor).

(** [operator / (T)]: [assert (factor != 0)]. *)
Definition div (a : t) (factor : R) : option t :=
  if Req_EM_T factor 0 then None
  else Some (mk (_coords0 a / factor) (_coords1 a / factor) (_coords2 a / factor)).

(** [operator * (TypeVector)], [dot] *)
Definition dot (a p : t) : R :=
  _coords0 a * _coords0 p + _coords1 a * _coords1 p + _coords2 a * _coords2 p.

Definition cross (a p : t) : t :=
  mk (_coords1 a * _coords2 p - _coords2 a * _coords1 p)
     (- _coords0 a * _coords2 p + _coords2 a * _coords0 p)
     (_coords0 a * _coords1 p - _coords1 a * _coords0 p).

Definition size_sq (a : t) : R := dot a a.

Definition size (a : t) : R := sqrt (size_sq a).

Definition cos_angle (a p : t) : R :=
  let len1 := size a in
  let len2 := size p in
  let denom := len1 * len2 in
  dot a p / denom.

Definition angle (a p : t) : R :=
  let len1 := size a in
  let len2 := size p in
  let denom := len1 * len2 in
  let cosa := dot a p / denom in
  let cosa := if Rgt_dec cosa 1 then 1 else cosa in
  let cosa := if Rlt_dec cosa (-1) then -1 else cosa in
  acos cosa.

Definition zero : t := mk 0 0 0.

(** [p.assign_min_to(v)]: returns the new [v]. *)
Definition assign_min_to (p v : t) : t :=
  mk (if Rlt_dec (_coords0 p) (_coords0 v) then _coords0 p else _coords0 v)
     (if Rlt_dec (_coords1 p) (_coords1 v) then _coords1 p else _coords1 v)
     (if Rlt_dec (_coords2 p) (_coords2 v) then _coords2 p else _coords2 v).

Definition assign_max_to (p v : t) : t :=
  mk (if Rgt_dec (_coords0 p) (_coords0 v) then _coords0 p else _coords0 v)
     (if Rgt_dec (_coords1 p) (_coords1 v) then _coords1 p else _coords1 v)
     (if Rgt_dec (_coords2 p) (_coords2 v) then _coords2 p else _coords2 v).

Definition absolute_fuzzy_equals (a rhs : t) (tol : R) : bool :=
  if Rle_dec (Rabs (_coords0 a - _coords0 rhs) + Rabs (_coords1 a - _coords1 rhs)
              + Rabs (_coords2 a - _coords2 rhs)) tol
  then true else false.

Definition relative_fuzzy_equals (a rhs : t) (tol : R) : bool :=
  absolute_fuzzy_equals a rhs
    (tol * (Rabs (_coords0 a) + Rabs (_coords0 rhs) + Rabs (_coords1 a)
            + Rabs (_coords1 rhs) + Rabs (_coords2 a) + Rabs (_coords2 rhs))).

(** [operator ==] *)
Definition eqb (a rhs : t) : bool :=
  (if Req_EM_T (_coords0 a) (_coords0 rhs) then true else false)
  && (if Req_EM_T (_coords1 a) (_coords1 rhs) then true else false)
  && (if Req_EM_T (_coords2 a) (_coords2 rhs) then true else false).

(** [operator !=] *)
Definition neqb (a rhs : t) : bool := negb (eqb a rhs).

End TypeVector.


(** * Mesh utilities (mesh_tools.cc) *)

Module MeshTools.

(** What the utilities read of an element of the mesh. *)
Record MeshElem := {
  elem_id : nat;                       (* id() *)
  elem_node : list nat;                (* node(0), ..., node(n_nodes()-1) *)
  elem_processor_id : nat;
  elem_subdomain_id : nat
}.

(** What they read of the mesh: [point(n)] for [n < n_nodes()], the
    elements in iteration order, and [spatial_dimension()]. *)
Record MeshBase := {
  mesh_point : list TypeVector.t;
  mesh_elements : list MeshElem;
  spatial_dimension : nat
}.

Definition n_nodes (mesh : MeshBase) : nat := length (mesh_point mesh).

Definition n_elem (mesh : MeshBase) : nat := length (mesh_elements mesh).

(** [std::pair<Point, Point>] *)
Definition BoundingBox : Type := TypeVector.t * TypeVector.t.

(** [Sphere(cent, radius)] *)
Definition Sphere : Type := TypeVector.t * R.

(** [min(i) = std::min(min(i), p(i)); max(i) = std::max(max(i), p(i));]
    [None] when a coordinate is out of range. *)
Definition extend_coord (p : TypeVector.t) (box : option BoundingBox) (i : nat)
  : option BoundingBox :=
  match box with
  | None => None
  | Some (min, max) =>
      match TypeVector.coord min i, TypeVector.coord max i, TypeVector.coord p i with
      | Some mi, Some ma, Some pi =>
          match TypeVector.set_coord min i (Rmin mi pi),
                TypeVector.set_coord max i (Rmax ma pi) with
          | Some min', Some max' => Some (min', max')
          | _, _ => None
          end
      | _, _, _ => None
      end
  end.

(** The loop over [i < spatial_dimension()] for one point; [None] also when
    the point does not exist. *)
Definition extend (d : nat) (box : option BoundingBox) (p : option TypeVector.t)
  : option BoundingBox :=
  match p with
  | None => None
  | Some p => foldl (extend_coord p) box (seq 0 d)
  end.

Definition empty_box : BoundingBox :=
  (TypeVector.mk 1e30 1e30 1e30, TypeVector.mk (-1e30) (-1e30) (-1e30)).

(** [processor_bounding_box(mesh, pid)]; [pid = None] is [invalid_uint], the
    default.  [None] is the failure of an assertion. *)
Definition processor_bounding_box (mesh : MeshBase) (pid : option nat)
  : option BoundingBox :=
  if Nat.eqb (n_nodes mesh) 0 then None
  else
    match pid with
    | None =>
        foldl (fun box p => extend (spatial_dimension mesh) box (Some p))
              (Some empty_box) (mesh_point mesh)
    | Some pid =>
        foldl (fun box el =>
                 foldl (fun box n => extend (spatial_dimension mesh) box (mesh_point mesh !! n))
                       box (elem_node el))
              (Some empty_box)
              (filter (fun el => elem_processor_id el = pid) (mesh_elements mesh))
    end.

Definition bounding_box (mesh : MeshBase) : option BoundingBox :=
  processor_bounding_box mesh None.

(** [subdomain_bounding_box(mesh, sid)] *)
Definition subdomain_bounding_box (mesh : MeshBase) (sid : option nat)
  : option BoundingBox :=
  if Nat.eqb (n_nodes mesh) 0 then None
  else
    match sid with
    | None =>
        foldl (fun box p => extend (spatial_dimension mesh) box (Some p))
              (Some empty_box) (mesh_point mesh)
    | Some sid =>
        foldl (fun box el =>
                 if Nat.eqb (elem_subdomain_id el) sid
                 then foldl (fun box n =>
                               extend (spatial_dimension mesh) box (mesh_point mesh !! n))
                            box (elem_node el)
                 else box)
              (Some empty_box) (mesh_elements mesh)
    end.

(** The sphere around a box: [Sphere (cent, .5*diag)]. *)
Definition sphere_of_box (bbox : BoundingBox) : option Sphere :=
  let diag := TypeVector.size (TypeVector.subtract bbox.2 bbox.1) in
  match TypeVector.div (TypeVector.add bbox.2 bbox.1) 2 with
  | Some cent => Some (cent, 0.5 * diag)
  | None => None
  end.

Definition bounding_sphere (mesh : MeshBase) : option Sphere :=
  match bounding_box mesh with
  | Some bbox => sphere_of_box bbox
  | None => None
  end.

Definition processor_bounding_sphere (mesh : MeshBase) (pid : option nat) : option Sphere :=
  match processor_bounding_box mesh pid with
  | Some bbox => sphere_of_box bbox
  | None => None
  end.

Definition subdomain_bounding_sphere (mesh : MeshBase) (sid : option nat) : option Sphere :=
  match subdomain_bounding_box mesh sid with
  | Some bbox => sphere_of_box bbox
  | None => None
  end.

Definition geb (a b : R) : bool := if Rge_dec a b then true else false.

Definition leb (a b : R) : bool := if Rle_dec a b then true else false.

Definition in_bounding_box (b : BoundingBox) (p : TypeVector.t) : bool :=
  geb (TypeVector._coords0 p) (TypeVector._coords0 b.1)
  && leb (TypeVector._coords0 p) (TypeVector._coords0 b.2)
  && geb (TypeVector._coords1 p) (TypeVector._coords1 b.1)
  && leb (TypeVector._coords1 p) (TypeVector._coords1 b.2)
  && geb (TypeVector._coords2 p) (TypeVector._coords2 b.1)
  && leb (TypeVector._coords2 p) (TypeVector._coords2 b.2).

(** [in_bounding_box(b, p, d)]: the test in the plane normal to axis [d]. *)
Definition in_bounding_box_d (b : BoundingBox) (p : TypeVector.t) (d : nat) : bool :=
  match d with
  | 0%nat =>
      geb (TypeVector._coords1 p) (TypeVector._coords1 b.1)
      && leb (TypeVector._coords1 p) (TypeVector._coords1 b.2)
      && geb (TypeVector._coords2 p) (TypeVector._coords2 b.1)
      && leb (TypeVector._coords2 p) (TypeVector._coords2 b.2)
  | 1%nat =>
      geb (TypeVector._coords0 p) (TypeVector._coords0 b.1)
      && leb (TypeVector._coords0 p) (TypeVector._coords0 b.2)
      && geb (TypeVector._coords2 p) (TypeVector._coords2 b.1)
      && leb (TypeVector._coords2 p) (TypeVector._coords2 b.2)
  | 2%nat =>
      geb (TypeVector._coords0 p) (TypeVector._coords0 b.1)
      && leb (TypeVector._coords0 p) (TypeVector._coords0 b.2)
      && geb (TypeVector._coords1 p) (TypeVector._coords1 b.1)
      && leb (TypeVector._coords1 p) (TypeVector._coords1 b.2)
  | _ => false
  end.

(** [fill_bounding_box(b, points)]: [points] is resized to 8 and every
    entry assigned. *)
Definition fill_bounding_box (b : BoundingBox) : list TypeVector.t :=
  let _p1 := b.1 in
  let _p2 := b.2 in
  [ _p1;
    TypeVector.mk (TypeVector._coords0 _p2) (TypeVector._coords1 _p1) (TypeVector._coords2 _p1);
    TypeVector.mk (TypeVector._coords0 _p2) (TypeVector._coords1 _p1) (TypeVector._coords2 _p2);
    TypeVector.mk (TypeVector._coords0 _p1) (TypeVector._coords1 _p1) (TypeVector._coords2 _p2);
    TypeVector.mk (TypeVector._coords0 _p1) (TypeVector._coords1 _p2) (TypeVector._coords2 _p1);
    TypeVector.mk (TypeVector._coords0 _p2) (TypeVector._coords1 _p2) (TypeVector._coords2 _p1);
    _p2;
    TypeVector.mk (TypeVector._coords0 _p1) (TypeVector._coords1 _p2) (TypeVector._coords2 _p2) ].

(** [(p < _p1) ? _p1 : (p > _p2) ? _p2 : p] *)
Definition nearest (p _p1 _p2 : R) : R :=
  if Rlt_dec p _p1 then _p1 else if Rgt_dec p _p2 then _p2 else p.

(** [minimal_distance(b, p)] for a point: inside the box the local [d] is
    assigned three times and the last assignment is the one returned. *)
Definition minimal_distance (b : BoundingBox) (p : TypeVector.t) : R :=
  if in_bounding_box b p then
    let d := Rmin (TypeVector._coords0 p - TypeVector._coords0 b.1)
                  (TypeVector._coords0 b.2 - TypeVector._coords0 p) in
    let d := Rmin (TypeVector._coords1 p - TypeVector._coords1 b.1)
                  (TypeVector._coords1 b.2 - TypeVector._coords1 p) in
    let d := Rmin (TypeVector._coords2 p - TypeVector._coords2 b.1)
                  (TypeVector._coords2 b.2 - TypeVector._coords2 p) in
    - d
  else
    let MPoint :=
      TypeVector.mk
        (nearest (TypeVector._coords0 p) (TypeVector._coords0 b.1) (TypeVector._coords0 b.2))
        (nearest (TypeVector._coords1 p) (TypeVector._coords1 b.1) (TypeVector._coords1 b.2))
        (nearest (TypeVector._coords2 p) (TypeVector._coords2 b.1) (TypeVector._coords2 b.2)) in
    TypeVector.size (TypeVector.subtract MPoint p).

(** [std::vector::resize(n)] with empty vectors as the new entries. *)
Definition resize {A : Type} (n : nat) (fill : A) (l : list A) : list A :=
  take n l ++ replicate (n - length l) fill.

(** [build_nodes_to_elem_map(mesh, nodes_to_elem_map)], the overload that
    stores element ids; [None] is the failure of one of its assertions. *)
Definition build_nodes_to_elem_map (mesh : MeshBase) (nodes_to_elem_map : list (list nat))
  : option (list (list nat)) :=
  foldl (fun map el =>
           foldl (fun map n =>
                    match map with
                    | None => None
                    | Some map =>
                        if Nat.ltb n (length map) && Nat.ltb (elem_id el) (n_elem mesh)
                        then Some (alter (fun ids => ids ++ [elem_id el]) n map)
                        else None
                    end)
                 map (elem_node el))
        (Some (resize (n_nodes mesh) [] nodes_to_elem_map)) (mesh_elements mesh).

(** [total_weight(mesh)], an [unsigned int]. *)
Definition total_weight (mesh : MeshBase) : Z :=
  foldl (fun weight el => to_unsigned (weight + Z.of_nat (length (elem_node el)))) 0%Z
        (mesh_elements mesh).

(** [elem_types(mesh, et)]; [type] is the virtual [Elem::type()].  The
    first element is read without a test: on a mesh without elements there
    is nothing to read ([None]). *)
Definition elem_types {ElemType : Type} `{EqDecision ElemType} (type : MeshElem -> ElemType)
    (mesh : MeshBase) (et : list ElemType) : option (list ElemType) :=
  match mesh_elements mesh with
  | [] => None
  | el :: rest =>
      Some (foldl (fun et el => if bool_decide (type el ∈ et) then et else et ++ [type el])
                  (et ++ [type el]) rest)
  end.

End MeshTools.

(** * Elements (elem.h) *)

Module ElemBase.

(** ** Keys of sides

    [unsigned int] is 32 bits wide; node ids are values of that type. *)

(** big prime number *)
Definition bp : Z := 65449.

(** [n << k] on [unsigned int] *)
Definition shl (n k : Z) : Z := to_unsigned (Z.shiftl n k).

(** [a + b] on [unsigned int] *)
Definition uadd (a b : Z) : Z := to_unsigned (a + b).

(** [if (a > b) std::swap (a, b);] *)
Definition order (a b : Z) : Z * Z := if (a >? b)%Z then (b, a) else (a, b).

(** [compute_key (n0)] *)
Definition compute_key_1 (n0 : Z) : Z := n0.

(** [compute_key (n0, n1)] *)
Definition compute_key_2 (n0 n1 : Z) : Z :=
  let '(n0, n1) := order n0 n1 in
  uadd (n0 mod bp) (shl n1 5 mod bp).

(** [compute_key (n0, n1, n2)]; [None] is the failure of its [assert]. *)
Definition compute_key_3 (n0 n1 n2 : Z) : option Z :=
  let '(n0, n1) := order n0 n1 in
  let '(n1, n2) := order n1 n2 in
  let '(n0, n1) := order n0 n1 in
  if (n0 <? n1)%Z && (n1 <? n2)%Z
  then Some (uadd (uadd (n0 mod bp) (shl n1 5 mod bp)) (shl n2 10 mod bp))
  else None.

(** [compute_key (n0, n1, n2, n3)] *)
Definition compute_key_4 (n0 n1 n2 n3 : Z) : option Z :=
  let '(n0, n1) := order n0 n1 in
  let '(n2, n3) := order n2 n3 in
  let '(n0, n2) := order n0 n2 in
  let '(n1, n3) := order n1 n3 in
  let '(n1, n2) := order n1 n2 in
  if (n0 <? n1)%Z && (n1 <? n2)%Z && (n2 <? n3)%Z
  then Some (uadd (uadd (uadd (n0 mod bp) (shl n1 5 mod bp)) (shl n2 10 mod bp))
                  (shl n3 15 mod bp))
  else None.

(** ** Neighbours

    What an element knows of the element behind a side: which element it
    is, and its subdomain. *)
Record Neighbor := {
  neighbor_elem : nat;
  neighbor_subdomain_id : nat
}.

Record Elem := {
  _sbd_id : nat;
  _neighbors : list (option Neighbor)      (* [None] is a NULL pointer *)
}.

Definition n_neighbors (elem : Elem) : nat := length (_neighbors elem).

(** [neighbor(i)]: [assert (i < n_neighbors())]; the outer [None] is the
    failure of the assertion. *)
Definition neighbor (elem : Elem) (i : nat) : option (option Neighbor) :=
  _neighbors elem !! i.

(** [is_neighbor(e)], a comparison of pointers. *)
Definition is_neighbor (elem : Elem) (e : option nat) : bool :=
  existsb (fun nb => bool_decide (neighbor_elem <$> nb = e)) (_neighbors elem).

(** [on_boundary()] *)
Definition on_boundary (elem : Elem) : bool := is_neighbor elem None.

(** [on_boundary(s)] *)
Definition on_boundary_side (elem : Elem) (s : nat) : option bool :=
  match neighbor elem s with
  | Some nb => Some (bool_decide (nb = None))
  | None => None
  end.

(** [on_interface()] *)
Definition on_interface (elem : Elem) : result bool :=
  do _ <- genius_assert (Nat.ltb 0 (n_neighbors elem)) ;;;
  Ok (existsb (fun nb => match nb with
                         | None => false
                         | Some nb => negb (Nat.eqb (neighbor_subdomain_id nb) (_sbd_id elem))
                         end) (_neighbors elem)).

(** [on_interface(s)]; the inner [None] is the failure of the assertion of
    [neighbor(s)]. *)
Definition on_interface_side (elem : Elem) (s : nat) : result (option bool) :=
  do _ <- genius_assert (Nat.ltb 0 (n_neighbors elem)) ;;;
  Ok match neighbor elem s with
     | None => None
     | Some None => Some false
     | Some (Some nb) => Some (negb (Nat.eqb (neighbor_subdomain_id nb) (_sbd_id elem)))
     end.

End ElemBase.

(** * The particle source (particle_source.h) *)

Module Particle_Source.

Section Source.

Variables (_t0 _t_max _t_char : R).

(** [carrier_generation(t)] *)
Definition carrier_generation (t : R) : R :=
  if Rge_dec t _t0 then
    if Rlt_dec ((t - _t_max) * (t - _t_max) / (_t_char * _t_char)) 30
    then exp (- (t - _t_max) * (t - _t_max) / (_t_char * _t_char))
    else 0
  else 0.

End Source.

End Particle_Source.

(** * The resistive region (ddm1_resistance.cc)

    [MetalSimulationRegion] solves the current continuity equation
    div(J) = 0 with J = sigma*E and E = -grad(phi). *)

Module MetalSimulationRegion.

Section DDM1.

Variable sigma : R.                            (* mt->basic->Conductance() *)
Variable volume : FVM_Node -> R.               (* fvm_node->volume() *)
Variable on_processor_nodes : list FVM_Node.
Variable on_local_nodes : list FVM_Node.
Variable edges : list Edge.

(** [DDM1_Fill_Value(x, L)]; returns [(x, L)]. *)
Definition DDM1_Fill_Value (x L : list R) : list R * list R :=
  let ix := map global_offset on_processor_nodes in
  let y := map (fun fvm_node => psi (node_data fvm_node)) on_processor_nodes in
  let s := map (fun fvm_node => 1.0 / (sigma * volume fvm_node)) on_processor_nodes in
  if bool_decide (ix = []) then (x, L)
  else (VecSetValues x ix y INSERT_VALUES, VecSetValues L ix s INSERT_VALUES).

(** "flux" from node 2 to node 1 *)
Definition flux (x : list R) (edge : Edge) : R :=
  let V1 := VecGetValue x (local_offset (fvm_n1 edge)) in
  let V2 := VecGetValue x (local_offset (fvm_n2 edge)) in
  sigma * cv_surface_area edge * (V2 - V1) / distance edge.

(** One turn of the loop over the edges: the buffers [iy] and [y]. *)
Definition edge_step (x : list R) (st : list nat * list R) (edge : Edge)
  : list nat * list R :=
  let f := flux x edge in
  let st := if on_processor (fvm_n1 edge)
            then (st.1 ++ [global_offset (fvm_n1 edge)], st.2 ++ [f]) else st in
  if on_processor (fvm_n2 edge)
  then (st.1 ++ [global_offset (fvm_n2 edge)], st.2 ++ [- f]) else st.

(** [DDM1_Function(x, f, add_value_flag)]; returns [f] and the flag. *)
Definition DDM1_Function (x f : list R) (add_value_flag : InsertMode)
  : list R * InsertMode :=
  let st := foldl (edge_step x) ([], []) edges in
  (if bool_decide (st.1 = []) then f else VecSetValues f st.1 st.2 ADD_VALUES,
   ADD_VALUES).

(** [DDM1_Update_Solution(lxx)]: the data of the local nodes afterwards. *)
Definition DDM1_Update_Solution (lxx : list R) : list FVM_Node :=
  map (fun fvm_node =>
         let node_data := node_data fvm_node in
         {| root_node_id := root_node_id fvm_node;
            local_offset := local_offset fvm_node;
            global_offset := global_offset fvm_node;
            on_processor := on_processor fvm_node;
            node_data :=
              {| affinity := affinity node_data;
                 Net_doping := Net_doping node_data;
                 eps := eps node_data;
                 mun := mun node_data;
                 mup := mup node_data;
                 psi := VecGetValue lxx (local_offset fvm_node);
                 psi_last := psi node_data;
                 Nc := Nc node_data;
                 Nv := Nv node_data |};
            outside_boundary_surface_area := outside_boundary_surface_area fvm_node |})
      on_local_nodes.

End DDM1.

End MetalSimulationRegion.

(** * The time derivative of the carrier densities (ddm1_semiconductor.cc) *)

Module SemiconductorTimeDerivative.

Section DDM1.

Variable spec : SolverSpecify.
Variable volume : FVM_Node -> R.                     (* fvm_node->volume() *)
(** The carrier densities kept with a node: [n()], [p()] of the last
    accepted step and [n_last()], [p_last()] of the one before. *)
Variables n p n_last p_last : FVM_NodeData -> R.
Variable on_processor_nodes : list FVM_Node.

(** [TS_type==BDF2 && BDF2_restart==false] *)
Definition second_order : bool :=
  match TS_type spec with
  | BDF2 => negb (BDF2_restart spec)
  | _ => false
  end.

(** The values [Tn], [Tp] buffered for one node. *)
Definition time_terms (x : list R) (fvm_node : FVM_Node) : list R :=
  let node_data := node_data fvm_node in
  let n1 := VecGetValue x (local_offset fvm_node + 1) in
  let p1 := VecGetValue x (local_offset fvm_node + 2) in
  if second_order then
    let r := dt_last spec / (dt_last spec + dt spec) in
    let Tn := - ((2 - r) / (1 - r) * n1 - 1.0 / (r * (1 - r)) * n node_data
                 + (1 - r) / r * n_last node_data)
              / (dt_last spec + dt spec) * volume fvm_node in
    let Tp := - ((2 - r) / (1 - r) * p1 - 1.0 / (r * (1 - r)) * p node_data
                 + (1 - r) / r * p_last node_data)
              / (dt_last spec + dt spec) * volume fvm_node in
    [Tn; Tp]
  else
    let Tn := - (n1 - n node_data) / dt spec * volume fvm_node in
    let Tp := - (p1 - p node_data) / dt spec * volume fvm_node in
    [Tn; Tp].

Definition time_rows (fvm_node : FVM_Node) : list nat :=
  [global_offset fvm_node + 1; global_offset fvm_node + 2]%nat.

(** [DDM1_Time_Dependent_Function(x, f, add_value_flag)] *)
Definition DDM1_Time_Dependent_Function (x f : list R) (add_value_flag : InsertMode)
  : list R * InsertMode :=
  let iy := flat_map time_rows on_processor_nodes in
  let y := flat_map (time_terms x) on_processor_nodes in
  (if bool_decide (iy = []) then f else VecSetValues f iy y ADD_VALUES, ADD_VALUES).

End DDM1.

End SemiconductorTimeDerivative.

(** * The initial value of an Ohmic electrode (ebm3_boundary_ohmic.cc) *)

Module OhmicContactInit.

(** [OhmicContactBC::EBM3_Fill_Value(x, L)]; returns [(x, L)]. *)
Definition EBM3_Fill_Value (is_last_processor : bool) (bc : OhmicContactBC)
    (x L : list R) : list R * list R :=
  let current_scale := z_width bc in
  if is_last_processor then
    let x := VecSetValue x (bc_global_offset bc) (potential (ext_circuit bc)) INSERT_VALUES in
    if is_inter_connect_bc bc then
      (x, VecSetValue L (bc_global_offset bc) 1.0 INSERT_VALUES)
    else
      let L := if is_voltage_driven (ext_circuit bc)
               then VecSetValue L (bc_global_offset bc)
                      (1.0 / ((1.0 + ckt_R (ext_circuit bc)) * current_scale)) INSERT_VALUES
               else L in
      let L := if is_current_driven (ext_circuit bc)
               then VecSetValue L (bc_global_offset bc) (1.0 / current_scale) INSERT_VALUES
               else L in
      (x, L)
  else (x, L).

(** The boundary part of [EBM3Solver::pre_solve_process] and of
    [diverged_recovery] over Ohmic electrodes. *)
Definition Fill_Values (is_last_processor : bool) (bcs : list OhmicContactBC)
    (x L : list R) : list R * list R :=
  foldl (fun xL bc => EBM3_Fill_Value is_last_processor bc xL.1 xL.2) (x, L) bcs.

End OhmicContactInit.

(** * The norms of the solution and of the residual (ebm3.cc)

    [EBM3Solver::error_norm()] over the local solution [xx] and the local
    residual [ff]. *)

Module ErrorNorm.

(** The thirteen norms kept by the solver. *)
Record Norms := {
  potential_norm : R;
  electron_norm : R;
  hole_norm : R;
  temperature_norm : R;
  elec_temperature_norm : R;
  hole_temperature_norm : R;
  poisson_norm : R;
  elec_continuity_norm : R;
  hole_continuity_norm : R;
  heat_equation_norm : R;
  elec_energy_equation_norm : R;
  hole_energy_equation_norm : R;
  electrode_norm : R
}.

(** do clear *)
Definition cleared : Norms :=
  {| potential_norm := 0; electron_norm := 0; hole_norm := 0; temperature_norm := 0;
     elec_temperature_norm := 0; hole_temperature_norm := 0;
     poisson_norm := 0; elec_continuity_norm := 0; hole_continuity_norm := 0;
     heat_equation_norm := 0; elec_energy_equation_norm := 0;
     hole_energy_equation_norm := 0; electrode_norm := 0 |}.

(** [v[i]*v[i]] *)
Definition squared (v : list R) (i : nat) : R := VecGetValue v i * VecGetValue v i.

(** One node of a semiconductor region. *)
Definition semiconductor_node (region : SimulationRegion) (xx ff : list R) (N : Norms)
    (fvm_node : FVM_Node) : Norms :=
  let model := get_advanced_model region in
  let offset := local_offset fvm_node in
  let node_psi_offset := ebm_variable_offset region POTENTIAL in
  let node_n_offset := ebm_variable_offset region ELECTRON in
  let node_p_offset := ebm_variable_offset region HOLE in
  let node_Tl_offset := ebm_variable_offset region TEMPERATURE in
  let node_Tn_offset := ebm_variable_offset region E_TEMP in
  let node_Tp_offset := ebm_variable_offset region H_TEMP in
  {| potential_norm := potential_norm N + squared xx (offset + node_psi_offset);
     electron_norm := electron_norm N + squared xx (offset + node_n_offset);
     hole_norm := hole_norm N + squared xx (offset + node_p_offset);
     temperature_norm :=
       if enable_Tl model
       then temperature_norm N + squared xx (offset + node_Tl_offset)
       else temperature_norm N;
     elec_temperature_norm :=
       if enable_Tn model
       then elec_temperature_norm N
            + VecGetValue xx (offset + node_Tn_offset) / VecGetValue xx (offset + node_n_offset)
              * VecGetValue xx (offset + node_Tn_offset) / VecGetValue xx (offset + node_n_offset)
       else elec_temperature_norm N;
     hole_temperature_norm :=
       if enable_Tp model
       then hole_temperature_norm N
            + VecGetValue xx (offset + node_Tp_offset) / VecGetValue xx (offset + node_p_offset)
              * VecGetValue xx (offset + node_Tp_offset) / VecGetValue xx (offset + node_p_offset)
       else hole_temperature_norm N;
     poisson_norm := poisson_norm N + squared ff (offset + node_psi_offset);
     elec_continuity_norm := elec_continuity_norm N + squared ff (offset + node_n_offset);
     hole_continuity_norm := hole_continuity_norm N + squared ff (offset + node_p_offset);
     heat_equation_norm :=
       if enable_Tl model
       then heat_equation_norm N + squared ff (offset + node_Tl_offset)
       else heat_equation_norm N;
     elec_energy_equation_norm :=
       if enable_Tn model
       then elec_energy_equation_norm N + squared ff (offset + node_Tn_offset)
       else elec_energy_equation_norm N;
     hole_energy_equation_norm :=
       if enable_Tp model
       then hole_energy_equation_norm N + squared ff (offset + node_Tp_offset)
       else hole_energy_equation_norm N;
     electrode_norm := electrode_norm N |}.

(** One node of an insulator, electrode or metal region. *)
Definition conductor_node (region : SimulationRegion) (xx ff : list R) (N : Norms)
    (fvm_node : FVM_Node) : Norms :=
  let model := get_advanced_model region in
  let offset := local_offset fvm_node in
  let node_psi_offset := ebm_variable_offset region POTENTIAL in
  let node_Tl_offset := ebm_variable_offset region TEMPERATURE in
  {| potential_norm := potential_norm N + squared xx (offset + node_psi_offset);
     electron_norm := electron_norm N;
     hole_norm := hole_norm N;
     temperature_norm :=
       if enable_Tl model
       then temperature_norm N + squared xx (offset + node_Tl_offset)
       else temperature_norm N;
     elec_temperature_norm := elec_temperature_norm N;
     hole_temperature_norm := hole_temperature_norm N;
     poisson_norm := poisson_norm N + squared ff (offset + node_psi_offset);
     elec_continuity_norm := elec_continuity_norm N;
     hole_continuity_norm := hole_continuity_norm N;
     heat_equation_norm :=
       if enable_Tl model
       then heat_equation_norm N + squared ff (offset + node_Tl_offset)
       else heat_equation_norm N;
     elec_energy_equation_norm := elec_energy_equation_norm N;
     hole_energy_equation_norm := hole_energy_equation_norm N;
     electrode_norm := electrode_norm N |}.

(** The [switch] over the type of a region. *)
Definition norm_region (xx ff : list R) (N : Norms) (region : SimulationRegion)
  : result Norms :=
  match type region with
  | SemiconductorRegion =>
      Ok (foldl (semiconductor_node region xx ff) N (on_processor_nodes region))
  | InsulatorRegion | ElectrodeRegion | MetalRegion =>
      Ok (foldl (conductor_node region xx ff) N (on_processor_nodes region))
  | VacuumRegion => Ok N
  | _ => genius_error
  end.

(** One boundary condition; [None] is [invalid_uint]. *)
Definition norm_bc (xx ff : list R) (N : Norms) (offset : option nat) : Norms :=
  match offset with
  | Some offset =>
      {| potential_norm := potential_norm N + squared xx offset;
         electron_norm := electron_norm N;
         hole_norm := hole_norm N;
         temperature_norm := temperature_norm N;
         elec_temperature_norm := elec_temperature_norm N;
         hole_temperature_norm := hole_temperature_norm N;
         poisson_norm := poisson_norm N;
         elec_continuity_norm := elec_continuity_norm N;
         hole_continuity_norm := hole_continuity_norm N;
         heat_equation_norm := heat_equation_norm N;
         elec_energy_equation_norm := elec_energy_equation_norm N;
         hole_energy_equation_norm := hole_energy_equation_norm N;
         electrode_norm := electrode_norm N + squared ff offset |}
  | None => N
  end.

Definition norm_buffer (N : Norms) : list R :=
  [ potential_norm N; electron_norm N; hole_norm N; temperature_norm N;
    elec_temperature_norm N; hole_temperature_norm N;
    poisson_norm N; elec_continuity_norm N; hole_continuity_norm N;
    heat_equation_norm N; elec_energy_equation_norm N; hole_energy_equation_norm N;
    electrode_norm N ].

(** [Parallel::sum(norm_buffer)]: [others] are the buffers of the other
    processors. *)
Definition Parallel_sum_buffer (others : list (list R)) (mine : list R) : list R :=
  foldl (zip_with Rplus) mine others.

(** [error_norm()]; [bcs_local_offset] is [bc->local_offset()] of the
    boundary conditions in order. *)
Definition error_norm (_system : SimulationSystem) (is_last_processor : bool)
    (bcs_local_offset : list (option nat)) (others : list (list R)) (xx ff : list R)
  : result Norms :=
  do N <- foldM (norm_region xx ff) cleared (regions _system) ;;;
  let N := if is_last_processor then foldl (norm_bc xx ff) N bcs_local_offset else N in
  let norm_buffer := Parallel_sum_buffer others (norm_buffer N) in
  Ok {| potential_norm := sqrt (VecGetValue norm_buffer 0);
        electron_norm := sqrt (VecGetValue norm_buffer 1);
        hole_norm := sqrt (VecGetValue norm_buffer 2);
        temperature_norm := sqrt (VecGetValue norm_buffer 3);
        elec_temperature_norm := sqrt (VecGetValue norm_buffer 4);
        hole_temperature_norm := sqrt (VecGetValue norm_buffer 5);
        poisson_norm := sqrt (VecGetValue norm_buffer 6);
        elec_continuity_norm := sqrt (VecGetValue norm_buffer 7);
        hole_continuity_norm := sqrt (VecGetValue norm_buffer 8);
        heat_equation_norm := sqrt (VecGetValue norm_buffer 9);
        elec_energy_equation_norm := sqrt (VecGetValue norm_buffer 10);
        hole_energy_equation_norm := sqrt (VecGetValue norm_buffer 11);
        electrode_norm := sqrt (VecGetValue norm_buffer 12) |}.

End ErrorNorm.

(** * The performance log (perf_log.h)

    What [START_LOG] and [STOP_LOG] of the solvers expand to.  The clock
    ([gettimeofday]) is an input of every operation. *)

Module PerfLog.

Record timeval := {
  tv_sec : Z;
  tv_usec : Z
}.

Record PerfData := {
  tot_time : R;
  tstart : timeval;
  count : Z;                           (* unsigned int *)
  open : bool;
  called_recursively : Z               (* int *)
}.

(** [PerfData()]; [tstart] is not initialised, and is set before it is
    read. *)
Definition PerfData_new : PerfData :=
  {| tot_time := 0; tstart := {| tv_sec := 0; tv_usec := 0 |}; count := 0;
     open := false; called_recursively := 0 |}.

Definition start (now : timeval) (d : PerfData) : PerfData :=
  {| tot_time := tot_time d; tstart := now; count := to_unsigned (count d + 1);
     open := open d; called_recursively := to_int (called_recursively d + 1) |}.

Definition restart (now : timeval) (d : PerfData) : PerfData :=
  {| tot_time := tot_time d; tstart := now; count := count d;
     open := open d; called_recursively := called_recursively d |}.

Definition elapsed_time (now : timeval) (d : PerfData) : R :=
  (IZR (tv_sec now) - IZR (tv_sec (tstart d)))
  + (IZR (tv_usec now) - IZR (tv_usec (tstart d))) * 1e-6.

(** [pause()]: the data afterwards; the value returned is [elapsed_time]. *)
Definition pause (now : timeval) (d : PerfData) : PerfData :=
  {| tot_time := tot_time d + elapsed_time now d; tstart := now; count := count d;
     open := open d; called_recursively := called_recursively d |}.

Definition stopit (now : timeval) (d : PerfData) : PerfData :=
  pause now
    {| tot_time := tot_time d; tstart := tstart d; count := count d;
       open := open d; called_recursively := to_int (called_recursively d - 1) |}.

(** An event is known by its header and its label; the stack holds
    pointers to entries of the log, here their keys. *)
Definition Event : Type := string * string.

Record t := {
  log_events : bool;
  total_time : R;
  log : gmap Event PerfData;
  log_stack : list Event               (* top first *)
}.

(** [log[key]]: the entry is created when it is missing. *)
Definition entry (key : Event) (log : gmap Event PerfData) : gmap Event PerfData :=
  match log !! key with
  | Some _ => log
  | None => <[key := PerfData_new]> log
  end.

(** The data a pointer of the stack points to. *)
Definition deref (log : gmap Event PerfData) (key : Event) : PerfData :=
  default PerfData_new (log !! key).

(** [push(label, header)] at time [now]. *)
Definition push (label header : string) (now : timeval) (s : t) : t :=
  if log_events s then
    let key := (header, label) in
    let log := entry key (log s) in
    let paused :=
      match log_stack s with
      | [] => (log, total_time s)
      | top :: _ =>
          (<[top := pause now (deref log top)]> log,
           total_time s + elapsed_time now (deref log top))
      end in
    let log := <[key := start now (deref paused.1 key)]> paused.1 in
    {| log_events := true; total_time := paused.2; log := log;
       log_stack := key :: log_stack s |}
  else s.

(** [pop(label, header)] at time [now]; [None] is the failure of one of
    its assertions. *)
Definition pop (label header : string) (now : timeval) (s : t) : option t :=
  if log_events s then
    match log_stack s with
    | [] => None
    | top :: rest =>
        let key := (header, label) in
        let log := entry key (log s) in
        if bool_decide (key = top) then
          let total := total_time s + elapsed_time now (deref log top) in
          let log := <[top := stopit now (deref log top)]> log in
          let log := match rest with
                     | [] => log
                     | below :: _ => <[below := restart now (deref log below)]> log
                     end in
          Some {| log_events := true; total_time := total; log := log; log_stack := rest |}
        else None
    end
  else Some s.

(** The time booked on the events of a log. *)
Definition booked (log : gmap Event PerfData) : R :=
  map_fold (fun _ d acc => tot_time d + acc) 0 log.

End PerfLog.

(** * Offsets of a boundary condition (boundary_condition.h)

    A boundary condition keeps one offset of each kind for each of up to
    four solvers; the static [_solver_index], shared by all boundary
    conditions, selects the solver. *)

Module BoundaryCondition.

Record t := {
  _solver_index : nat;                 (* static *)
  _global_offset : list nat;           (* unsigned int [4] *)
  _local_offset : list nat;
  _array_offset : list nat
}.

Definition solver_index (bc : t) : nat := _solver_index bc.

Definition set_solver_index (s : nat) (bc : t) : result t :=
  do _ <- genius_assert (Nat.ltb s 4) ;;;
  Ok {| _solver_index := s; _global_offset := _global_offset bc;
        _local_offset := _local_offset bc; _array_offset := _array_offset bc |}.

Definition global_offset (bc : t) : nat := default 0%nat (_global_offset bc !! _solver_index bc).

Definition set_global_offset (pos : nat) (bc : t) : t :=
  {| _solver_index := _solver_index bc;
     _global_offset := <[_solver_index bc := pos]> (_global_offset bc);
     _local_offset := _local_offset bc; _array_offset := _array_offset bc |}.

Definition local_offset (bc : t) : nat := default 0%nat (_local_offset bc !! _solver_index bc).

Definition set_local_offset (pos : nat) (bc : t) : t :=
  {| _solver_index := _solver_index bc;
     _global_offset := _global_offset bc;
     _local_offset := <[_solver_index bc := pos]> (_local_offset bc);
     _array_offset := _array_offset bc |}.

Definition array_offset (bc : t) : nat := default 0%nat (_array_offset bc !! _solver_index bc).

Definition set_array_offset (pos : nat) (bc : t) : t :=
  {| _solver_index := _solver_index bc;
     _global_offset := _global_offset bc;
     _local_offset := _local_offset bc;
     _array_offset := <[_solver_index bc := pos]> (_array_offset bc) |}.

End BoundaryCondition.

(** * Verification *)

(** ** Vectors *)

Lemma VecGetValue_insert_eq (v : list R) (i : nat) (a : R) :
  (i < length v)%nat -> VecGetValue (<[i := a]> v) i = a.
Proof.
  intros Hi. unfold VecGetValue. by rewrite list_lookup_insert_eq.
Qed.

Lemma VecGetValue_insert_ne (v : list R) (i j : nat) (a : R) :
  i <> j -> VecGetValue (<[i := a]> v) j = VecGetValue v j.
Proof.
  intros Hij. unfold VecGetValue. by rewrite list_lookup_insert_ne.
Qed.

Lemma VecGetValue_insert (v : list R) (i j : nat) (a : R) :
  (j < length v)%nat ->
  VecGetValue (<[i := a]> v) j = if Nat.eqb i j then a else VecGetValue v j.
Proof.
  intros Hj. destruct (Nat.eqb_spec i j) as [->|Hne].
  - by apply VecGetValue_insert_eq.
  - by apply VecGetValue_insert_ne.
Qed.

Lemma VecGetValue_ge (v : list R) (i : nat) :
  (length v <= i)%nat -> VecGetValue v i = 0.
Proof.
  intros Hi. unfold VecGetValue. by rewrite lookup_ge_None_2.
Qed.

Lemma length_VecSetValue (v : list R) (i : nat) (a : R) (mode : InsertMode) :
  length (VecSetValue v i a mode) = length v.
Proof. destruct mode; apply length_insert. Qed.

Lemma length_VecSetValues (ix : list nat) :
  forall (y v : list R) (mode : InsertMode),
    length (VecSetValues v ix y mode) = length v.
Proof.
  induction ix as [|i ix IH]; intros [|a y] v mode; simpl; try done.
  by rewrite IH, length_VecSetValue.
Qed.

Lemma VecSetValues_nil_r (ix : list nat) (v : list R) (mode : InsertMode) :
  VecSetValues v ix [] mode = v.
Proof. by destruct ix. Qed.

(** Adding a batch of values changes every row by what the batch holds for
    it. *)
Lemma VecSetValues_ADD_get (ix : list nat) :
  forall (y v : list R) (d : nat),
    (d < length v)%nat ->
    VecGetValue (VecSetValues v ix y ADD_VALUES) d = VecGetValue v d + added_into ix y d.
Proof.
  induction ix as [|i ix IH]; intros [|a y] v d Hd; simpl; try lra.
  rewrite IH by (by rewrite length_insert).
  rewrite VecGetValue_insert by done.
  destruct (Nat.eqb_spec i d) as [->|Hne]; lra.
Qed.

Lemma VecSetValues_ADD_untouched (ix : list nat) (y v : list R) (d : nat) :
  d ∉ ix -> VecGetValue (VecSetValues v ix y ADD_VALUES) d = VecGetValue v d.
Proof.
  revert y v. induction ix as [|i ix IH]; intros [|a y] v Hd; simpl; try done.
  apply not_elem_of_cons in Hd as [Hne Hd].
  rewrite IH by done. by apply VecGetValue_insert_ne.
Qed.

Lemma added_into_untouched (ix : list nat) (y : list R) (d : nat) :
  d ∉ ix -> added_into ix y d = 0.
Proof.
  revert y. induction ix as [|i ix IH]; intros [|a y] Hd; simpl; try done.
  apply not_elem_of_cons in Hd as [Hne Hd].
  rewrite IH by done. destruct (Nat.eqb_spec i d); [congruence | lra].
Qed.

(** With a single entry for row [d] in the batch, that entry is what is
    added. *)
Lemma added_into_unique (ix : list nat) :
  forall (y : list R) (k d : nat) (a : R),
    ix !! k = Some d -> y !! k = Some a ->
    (forall j, j <> k -> ix !! j <> Some d) ->
    added_into ix y d = a.
Proof.
  induction ix as [|i ix IH]; intros [|b y] k d a Hk Ha Huniq; try done.
  destruct k as [|k]; simpl in *.
  - injection Hk as ->. injection Ha as ->.
    rewrite Nat.eqb_refl, added_into_untouched; [lra |].
    intros Hin. apply list_elem_of_lookup in Hin as [j Hj].
    by apply (Huniq (S j)).
  - rewrite (IH y k d a) by (try done; intros j Hj; apply (Huniq (S j)); lia).
    destruct (Nat.eqb_spec i d) as [->|Hne]; [|lra].
    by destruct (Huniq 0%nat).
Qed.

Lemma zero_rows_get (rows : list nat) :
  forall (v : list R) (d : nat),
    (d < length v)%nat ->
    VecGetValue (PetscUtils.zero_rows v rows) d
    = if bool_decide (d ∈ rows) then 0 else VecGetValue v d.
Proof.
  unfold PetscUtils.zero_rows.
  induction rows as [|i rows IH]; intros v d Hd; simpl.
  - done.
  - rewrite IH by (by rewrite length_insert).
    destruct (decide (d ∈ rows)) as [Hin|Hnin].
    + rewrite !bool_decide_eq_true_2; [done | by right | done].
    + rewrite (bool_decide_eq_false_2 (d ∈ rows)) by done.
      rewrite VecGetValue_insert by done.
      destruct (Nat.eqb_spec i d) as [->|Hne].
      * rewrite bool_decide_eq_true_2; [done | by left].
      * rewrite bool_decide_eq_false_2; [done |].
        intros Hin. apply elem_of_cons in Hin as [->|Hin]; done.
Qed.

Lemma length_add_row_to_row (v : list R) (src dst : list nat) :
  length (PetscUtils.add_row_to_row v src dst) = length v.
Proof. apply length_VecSetValues. Qed.

(** ** Row surgery (C1) *)

(** C1, as stated, fails: the claim asks [result[dst] = original[dst] +
    original[src]] for every (src, dst) pair of the list.  Where three
    semiconductor regions meet in a node, [DDM1_Function_Preprocess] emits two
    pairs with the same destination row, and that row receives both sources:
    row 0 ends as 1 + 10 + 100, not as 1 + 10. *)
Lemma row_surgery_claim_fails :
  exists rs : RowSurgery,
    HomoInterfaceBC.DDM1_Function_Preprocess 0
      [shared_node [SemiconductorRegion; SemiconductorRegion; SemiconductorRegion]]
      no_surgery = Ok rs /\
    let vec := [1; 2; 3; 10; 20; 30; 100; 200; 300] in
    let result := PetscUtils.VecAddClearRow vec (src_row rs) (dst_row rs) (clear_row rs) in
    ~ ((forall k s d,
          src_row rs !! k = Some s -> dst_row rs !! k = Some d ->
          (s < length vec)%nat -> (d < length vec)%nat ->
          VecGetValue result d = VecGetValue vec d + VecGetValue vec s) /\
       (forall c, c ∈ clear_row rs -> (c < length vec)%nat -> VecGetValue result c = 0)).
Proof.
  eexists. split; [reflexivity |].
  intros vec result [Hpair _].
  specialize (Hpair 0%nat 3%nat 0%nat eq_refl eq_refl).
  cbn in Hpair.
  assert (H : 1 + 10 + 100 = 1 + 10) by (apply Hpair; lia).
  lra.
Qed.

(** C1 (amended).  After [VecAddClearRow(vec, src_rows, dst_rows, clear_rows)]
    every cleared row in range is zero; every row in range that is not
    cleared holds its original value plus the original values of all the
    source rows merged into it; and when a row is the destination of a
    single pair (src, dst) and is not cleared, [result[dst] = original[dst] +
    original[src]]. *)
Theorem VecAddClearRow_sound (vec : list R) (src_rows dst_rows clear_rows : list nat) :
  let result := PetscUtils.VecAddClearRow vec src_rows dst_rows clear_rows in
  (forall c, c ∈ clear_rows -> (c < length vec)%nat -> VecGetValue result c = 0) /\
  (forall d, d ∉ clear_rows -> (d < length vec)%nat ->
     VecGetValue result d = VecGetValue vec d + merged_into vec src_rows dst_rows d) /\
  (forall k s d,
     src_rows !! k = Some s -> dst_rows !! k = Some d ->
     (forall j, j <> k -> dst_rows !! j <> Some d) ->
     d ∉ clear_rows -> (d < length vec)%nat ->
     VecGetValue result d = VecGetValue vec d + VecGetValue vec s).
Proof.
  intros result.
  assert (Hclear : forall c, c ∈ clear_rows -> (c < length vec)%nat ->
                             VecGetValue result c = 0).
  { intros c Hc Hlen. unfold result, PetscUtils.VecAddClearRow.
    rewrite zero_rows_get by (by rewrite length_add_row_to_row).
    by rewrite bool_decide_eq_true_2. }
  assert (Hkeep : forall d, d ∉ clear_rows -> (d < length vec)%nat ->
            VecGetValue result d = VecGetValue vec d + merged_into vec src_rows dst_rows d).
  { intros d Hd Hlen. unfold result, PetscUtils.VecAddClearRow.
    rewrite zero_rows_get by (by rewrite length_add_row_to_row).
    rewrite bool_decide_eq_false_2 by done.
    unfold PetscUtils.add_row_to_row. by apply VecSetValues_ADD_get. }
  split; [done | split; [done |]].
  intros k s d Hs Hd Huniq Hnc Hlen.
  rewrite Hkeep by done. f_equal.
  unfold merged_into. apply (added_into_unique _ _ k); [done | | done].
  by rewrite list_lookup_fmap, Hs.
Qed.

Lemma VecAddClearRow_sound_witness :
  let result := PetscUtils.VecAddClearRow [1; 2; 3] [1%nat] [0%nat] [1%nat] in
  VecGetValue result 1 = 0 /\ VecGetValue result 0 = 1 + 2.
Proof.
  destruct (VecAddClearRow_sound [1; 2; 3] [1%nat] [0%nat] [1%nat]) as (Hclear & _ & Hpair).
  split.
  - apply Hclear; [apply list_elem_of_In; simpl; auto | simpl; lia].
  - apply (Hpair 0%nat 1%nat 0%nat); [reflexivity | reflexivity | | | simpl; lia].
    + intros [|j] Hj; [done | by destruct j].
    + intros Hin. apply list_elem_of_In in Hin. simpl in Hin. intuition lia.
Defined.

(** ** Loops that may abort *)

(** A loop whose every turn appends to a buffer appends the turns' items in
    order. *)
Lemma foldM_app {A B C : Type} (body : A -> B -> result A) (proj : A -> list C)
    (g : B -> list C) :
  (forall a b a', body a b = Ok a' -> proj a' = proj a ++ g b) ->
  forall l a a', foldM body a l = Ok a' -> proj a' = proj a ++ flat_map g l.
Proof.
  intros Hstep. induction l as [|b l IH]; intros a a' Hrun; simpl in *.
  - injection Hrun as <-. by rewrite app_nil_r.
  - destruct (body a b) as [a1|] eqn:Hb; simpl in Hrun; [|done].
    rewrite (IH _ _ Hrun), (Hstep _ _ _ Hb). by rewrite app_assoc.
Qed.

(** A turn that aborts from every state aborts the loop. *)
Lemma foldM_abort {A B : Type} (body : A -> B -> result A) (l : list B) (b : B) :
  b ∈ l -> (forall a, body a b = genius_error) ->
  forall a, foldM body a l = genius_error.
Proof.
  intros Hin Hb. induction l as [|b' l IH]; intros a; [by apply elem_of_nil in Hin |].
  simpl. apply elem_of_cons in Hin as [<-|Hin].
  - by rewrite Hb.
  - destruct (body a b'); simpl; [by apply IH | done].
Qed.

(** Two buffers filled in lockstep hold the items of one turn at the same
    position. *)
Lemma flat_map_lockstep {B : Type} (g : B -> list nat) (h : B -> list R) (l : list B)
    (b : B) (j r : nat) (a : R) :
  (forall b, length (g b) = length (h b)) ->
  b ∈ l -> g b !! j = Some r -> h b !! j = Some a ->
  exists k, flat_map g l !! k = Some r /\ flat_map h l !! k = Some a.
Proof.
  intros Hlen Hin Hr Ha. induction l as [|b' l IH]; [by apply elem_of_nil in Hin |].
  simpl. apply elem_of_cons in Hin as [<-|Hin].
  - exists j. split; by apply lookup_app_l_Some.
  - destruct (IH Hin) as (k & Hk1 & Hk2).
    exists (length (g b') + k)%nat. split.
    + by rewrite lookup_app_r, Nat.add_comm, Nat.add_sub by lia.
    + by rewrite (Hlen b'), lookup_app_r, Nat.add_comm, Nat.add_sub by lia.
Qed.

(** ** Homogeneous interface (C2, C9) *)

Section HomoInterface.

Import HomoInterfaceBC.

Variable me : nat.

Lemma Preprocess_region_rows fvm0 rs rn rs' :
  Preprocess_region fvm0 rs rn = Ok rs' ->
  clear_row rs' = clear_row rs ++ coupling_rows rn.
Proof.
  unfold Preprocess_region, coupling_rows.
  destruct (type rn.1); intros H; try done; by injection H as <-.
Qed.

Lemma Preprocess_node_rows rs nd rs' :
  Preprocess_node me rs nd = Ok rs' ->
  clear_row rs' = clear_row rs ++ node_coupling_rows me nd.
Proof.
  unfold Preprocess_node, node_coupling_rows.
  destruct (negb _).
  - intros H. injection H as <-. by rewrite app_nil_r.
  - destruct (region_node nd) as [|rn0 others].
    + intros H. injection H as <-. by rewrite app_nil_r.
    + apply (foldM_app _ clear_row). apply Preprocess_region_rows.
Qed.

Lemma DDM1_Function_Preprocess_rows bd_nodes rs rs' :
  DDM1_Function_Preprocess me bd_nodes rs = Ok rs' ->
  clear_row rs' = clear_row rs ++ flat_map (node_coupling_rows me) bd_nodes.
Proof. apply (foldM_app _ clear_row). apply Preprocess_node_rows. Qed.

Lemma Function_region_buffer x fvm0 buf rn buf' :
  Function_region x fvm0 buf rn = Ok buf' ->
  iy buf' = iy buf ++ coupling_rows rn /\
  y_new buf' = y_new buf ++ coupling_values x fvm0 rn.
Proof.
  unfold Function_region, coupling_rows, coupling_values.
  destruct (type rn.1); intros H; try done; by injection H as <-.
Qed.

Lemma Function_node_buffer x buf nd buf' :
  Function_node me x buf nd = Ok buf' ->
  iy buf' = iy buf ++ node_coupling_rows me nd /\
  y_new buf' = y_new buf ++ node_coupling_values me x nd.
Proof.
  unfold Function_node, node_coupling_rows, node_coupling_values.
  destruct (negb _).
  - intros H. injection H as <-. by rewrite !app_nil_r.
  - destruct (region_node nd) as [|rn0 others].
    + intros H. injection H as <-. by rewrite !app_nil_r.
    + destruct (genius_assert _); simpl; [|done]. intros H. split.
      * revert H. apply (foldM_app _ iy). intros s1 b s2 Hb.
        by apply Function_region_buffer in Hb as [? _].
      * revert H. apply (foldM_app _ y_new). intros s1 b s2 Hb.
        by apply Function_region_buffer in Hb as [_ ?].
Qed.

(** The rows [DDM1_Function] writes and the values it writes there. *)
Lemma DDM1_Function_buffer_closed bd_nodes x buf :
  DDM1_Function_buffer me bd_nodes x = Ok buf ->
  iy buf = flat_map (node_coupling_rows me) bd_nodes /\
  y_new buf = flat_map (node_coupling_values me x) bd_nodes.
Proof.
  unfold DDM1_Function_buffer. intros H. split.
  - revert H. apply (foldM_app _ iy (node_coupling_rows me)). intros s1 b s2 Hb.
    by apply Function_node_buffer in Hb as [? _].
  - revert H. apply (foldM_app _ y_new (node_coupling_values me x)). intros s1 b s2 Hb.
    by apply Function_node_buffer in Hb as [_ ?].
Qed.

Lemma coupling_lockstep x fvm0 rn :
  length (coupling_rows rn) = length (coupling_values x fvm0 rn).
Proof. unfold coupling_rows, coupling_values. by destruct (type rn.1). Qed.

Lemma node_coupling_lockstep x nd :
  length (node_coupling_rows me nd) = length (node_coupling_values me x nd).
Proof.
  unfold node_coupling_rows, node_coupling_values.
  destruct (negb _); [done |]. destruct (region_node nd) as [|rn0 others]; [done |].
  induction others as [|rn others IH]; [done |]. simpl.
  by rewrite !length_app, IH, (coupling_lockstep x rn0.2 rn).
Qed.

End HomoInterface.

Lemma coupling_entry_semiconductor (x : list R) (fvm0 : FVM_Node)
    (rn : SimulationRegion * FVM_Node) (k : nat) :
  type rn.1 = SemiconductorRegion -> (k < 3)%nat ->
  coupling_rows rn !! k = Some (global_offset rn.2 + k)%nat /\
  coupling_values x fvm0 rn !! k
  = Some (VecGetValue x (local_offset rn.2 + k) - VecGetValue x (local_offset fvm0 + k)).
Proof.
  intros Ht Hk. unfold coupling_rows, coupling_values. rewrite Ht.
  destruct k as [|[|[|k]]]; [done | done | done | lia].
Qed.

(** Where a semiconductor control volume other than the reference one is
    coupled, [DDM1_Function] buffers the difference of the two unknowns. *)
Lemma coupling_entry_buffered (me : nat) (bd_nodes : list BoundaryNode) (x : list R)
    (nd : BoundaryNode) (rn0 rn : SimulationRegion * FVM_Node)
    (others : list (SimulationRegion * FVM_Node)) (k : nat) :
  nd ∈ bd_nodes -> processor_id nd = me -> region_node nd = rn0 :: others ->
  rn ∈ others -> type rn.1 = SemiconductorRegion -> (k < 3)%nat ->
  exists j,
    flat_map (node_coupling_rows me) bd_nodes !! j = Some (global_offset rn.2 + k)%nat /\
    flat_map (node_coupling_values me x) bd_nodes !! j
    = Some (VecGetValue x (local_offset rn.2 + k) - VecGetValue x (local_offset rn0.2 + k)).
Proof.
  intros Hnd Hme Hrn0 Hrn Ht Hk.
  destruct (coupling_entry_semiconductor x rn0.2 rn k Ht Hk) as [Hr Hv].
  destruct (flat_map_lockstep coupling_rows (coupling_values x rn0.2) others rn k _ _
              (coupling_lockstep x rn0.2) Hrn Hr Hv) as (j1 & Hj1r & Hj1v).
  apply (flat_map_lockstep (node_coupling_rows me) (node_coupling_values me x)
           bd_nodes nd j1); [apply node_coupling_lockstep | done | |].
  - unfold node_coupling_rows. by rewrite Hme, Nat.eqb_refl, Hrn0.
  - unfold node_coupling_values. by rewrite Hme, Nat.eqb_refl, Hrn0.
Qed.

(** C2, as stated, fails twice.  With both regions' unknowns equal, the
    reference region's rows (0..2) hold the merged residuals of the two
    control volumes (11 + 14 in row 0), not zero; the rows that vanish are the
    ones of the other region.  With potentials 1.0 (region 0) and 0.3 (region
    1) the coupling row 3 holds [V - V_semi = 0.3 - 1.0], which is not 0.7. *)
Lemma boundary_equality_claim_fails :
  let bd := [shared_node [SemiconductorRegion; SemiconductorRegion]] in
  let f := [11; 12; 13; 14; 15; 16] in
  exists rs : RowSurgery,
    HomoInterfaceBC.DDM1_Function_Preprocess 0 bd no_surgery = Ok rs /\
    let f1 := PetscUtils.VecAddClearRow f (src_row rs) (dst_row rs) (clear_row rs) in
    (exists f',
       HomoInterfaceBC.DDM1_Function 0 bd [1; 5; 7; 1; 5; 7] f1 NOT_SET_VALUES
       = Ok (f', ADD_VALUES) /\
       VecGetValue f' 0 <> 0) /\
    (exists f',
       HomoInterfaceBC.DDM1_Function 0 bd [1; 5; 7; 0.3; 5; 7] f1 NOT_SET_VALUES
       = Ok (f', ADD_VALUES) /\
       VecGetValue f' 3 <> 1 - 0.3).
Proof.
  intros bd f. eexists. split; [reflexivity |].
  split; eexists; (split; [reflexivity |]); cbn; lra.
Qed.

(** C2 (amended).  At a homogeneous interface, after the row surgery the
    boundary asked for and after [DDM1_Function], each row of a semiconductor
    control volume other than the reference one holds the difference between
    its unknown and the reference region's unknown (potential, electron
    density, hole density for k = 0, 1, 2); it is zero when the two unknowns
    are equal.  For potentials 1.0 (region 0) and 0.3 (region 1) the
    potential row of region 1 holds 0.3 - 1.0 = -0.7. *)
Theorem homo_interface_coupling_row (me : nat) (bd_nodes : list BoundaryNode)
    (x f f' : list R) (flag flag' : InsertMode) (rs : RowSurgery)
    (nd : BoundaryNode) (rn0 rn : SimulationRegion * FVM_Node)
    (others : list (SimulationRegion * FVM_Node)) (k : nat) :
  HomoInterfaceBC.DDM1_Function_Preprocess me bd_nodes no_surgery = Ok rs ->
  HomoInterfaceBC.DDM1_Function me bd_nodes x
    (PetscUtils.VecAddClearRow f (src_row rs) (dst_row rs) (clear_row rs)) flag
  = Ok (f', flag') ->
  NoDup (clear_row rs) ->
  nd ∈ bd_nodes -> processor_id nd = me -> region_node nd = rn0 :: others ->
  rn ∈ others -> type rn.1 = SemiconductorRegion -> (k < 3)%nat ->
  (global_offset rn.2 + k < length f)%nat ->
  VecGetValue f' (global_offset rn.2 + k)
  = VecGetValue x (local_offset rn.2 + k) - VecGetValue x (local_offset rn0.2 + k) /\
  (VecGetValue x (local_offset rn.2 + k) = VecGetValue x (local_offset rn0.2 + k) ->
   VecGetValue f' (global_offset rn.2 + k) = 0).
Proof.
  intros Hpre Hfun Hnodup Hnd Hme Hrn0 Hrn Ht Hk Hlen.
  apply DDM1_Function_Preprocess_rows in Hpre as Hrows. simpl in Hrows.
  unfold HomoInterfaceBC.DDM1_Function in Hfun.
  destruct (HomoInterfaceBC.DDM1_Function_buffer me bd_nodes x) as [buf|] eqn:Hbuf;
    simpl in Hfun; [|done].
  apply DDM1_Function_buffer_closed in Hbuf as [Hiy Hy].
  set (f1 := PetscUtils.VecAddClearRow f (src_row rs) (dst_row rs) (clear_row rs)) in *.
  assert (Hf' : f' = VecSetValues f1 (HomoInterfaceBC.iy buf)
                       (HomoInterfaceBC.y_new buf) ADD_VALUES).
  { injection Hfun as <- _. case_bool_decide as Hnil; [by rewrite Hnil | done]. }
  destruct (coupling_entry_buffered me bd_nodes x nd rn0 rn others k
              Hnd Hme Hrn0 Hrn Ht Hk) as (j & Hjr & Hjv).
  rewrite <- Hiy in Hjr. rewrite <- Hy in Hjv. rewrite <- Hrows in Hiy.
  assert (Hlen1 : length f1 = length f).
  { unfold f1, PetscUtils.VecAddClearRow, PetscUtils.zero_rows.
    by rewrite length_VecSetValues, length_add_row_to_row. }
  assert (Hval : VecGetValue f' (global_offset rn.2 + k)
                 = VecGetValue x (local_offset rn.2 + k)
                   - VecGetValue x (local_offset rn0.2 + k)).
  { rewrite Hf', VecSetValues_ADD_get by lia.
    rewrite (added_into_unique _ _ j _ _ Hjr Hjv).
    - unfold f1, PetscUtils.VecAddClearRow.
      rewrite zero_rows_get by (by rewrite length_add_row_to_row).
      rewrite bool_decide_eq_true_2; [lra |].
      rewrite <- Hiy. by apply list_elem_of_lookup_2 in Hjr.
    - intros j' Hne Hj'. apply Hne. rewrite <- Hiy in Hnodup.
      by apply (NoDup_lookup _ _ _ _ Hnodup Hj' Hjr). }
  split; [done |]. intros Heq. rewrite Hval. lra.
Qed.

Lemma homo_interface_coupling_row_witness :
  let bd := [shared_node [SemiconductorRegion; SemiconductorRegion]] in
  let f := [11; 12; 13; 14; 15; 16] in
  let rs := {| src_row := [3; 4; 5]%nat; dst_row := [0; 1; 2]%nat;
               clear_row := [3; 4; 5]%nat |} in
  let f1 := PetscUtils.VecAddClearRow f (src_row rs) (dst_row rs) (clear_row rs) in
  exists f',
    HomoInterfaceBC.DDM1_Function 0 bd [1; 5; 7; 0.3; 5; 7] f1 NOT_SET_VALUES
    = Ok (f', ADD_VALUES) /\
    VecGetValue f' 3 = 0.3 - 1.
Proof.
  intros bd f rs f1. eexists. split; [reflexivity |].
  refine (proj1 (homo_interface_coupling_row 0 bd [1; 5; 7; 0.3; 5; 7] f _
                   NOT_SET_VALUES ADD_VALUES rs
                   (shared_node [SemiconductorRegion; SemiconductorRegion])
                   (region_of SemiconductorRegion [fvm_at 0 0], fvm_at 0 0)
                   (region_of SemiconductorRegion [fvm_at 0 3], fvm_at 0 3)
                   [(region_of SemiconductorRegion [fvm_at 0 3], fvm_at 0 3)] 0
                   _ _ _ _ _ _ _ _ _ _)).
  - reflexivity.
  - reflexivity.
  - apply (bool_decide_unpack _). reflexivity.
  - apply list_elem_of_In. simpl. auto.
  - reflexivity.
  - reflexivity.
  - apply list_elem_of_In. simpl. auto.
  - reflexivity.
  - lia.
  - simpl. lia.
Defined.

(** *** No rule for a region type (C9) *)





(** ** Ohmic contact: the circuit equation (C3, C4) *)

(** An invariant of the accumulator survives a loop that may abort. *)
Lemma foldM_invariant {A B : Type} (body : A -> B -> result A) (P : A -> Prop)
    (l : list B) :
  (forall a b a', b ∈ l -> P a -> body a b = Ok a' -> P a') ->
  forall a a', P a -> foldM body a l = Ok a' -> P a'.
Proof.
  induction l as [|b l IH]; intros Hstep a a' Ha Hrun; simpl in Hrun.
  - by injection Hrun as <-.
  - destruct (body a b) as [a1|] eqn:Hb; simpl in Hrun; [|done].
    apply (IH (fun a0 b0 a0' Hin => Hstep a0 b0 a0' (proj2 (elem_of_cons l b0 b) (or_intror Hin)))
              a1 a'); [|done].
    apply (Hstep a b a1); [by left | done | done].
Qed.

Lemma foldl_invariant {A B : Type} (body : A -> B -> A) (P : A -> Prop) (l : list B) :
  (forall a b, b ∈ l -> P a -> P (body a b)) ->
  forall a, P a -> P (foldl body a l).
Proof.
  induction l as [|b l IH]; intros Hstep a Ha; simpl; [done |].
  apply IH.
  - intros a0 b0 Hin. apply Hstep. by right.
  - apply Hstep; [by left | done].
Qed.

Ltac split_rows :=
  repeat first [ rewrite not_elem_of_app | rewrite not_elem_of_cons ];
  repeat split; auto using not_elem_of_nil.

Section OhmicResidual.

Variables (kb e T_external : R).
Variable mt : Material.
Variable spec : SolverSpecify.
Variable me : nat.
Variable is_last_processor : bool.
Variable bc : OhmicContactBC.

Local Abbreviation go := (bc_global_offset bc).

Lemma Function_semiconductor_rows x Ve nd i st rn st' :
  OhmicContact.Function_semiconductor kb e T_external mt spec bc x Ve nd i st rn = Ok st' ->
  (forall v, (global_offset rn.2 + ebm_variable_offset rn.1 v)%nat <> go) ->
  go ∉ OhmicContact.iy st -> go ∉ OhmicContact.iy st'.
Proof.
  unfold OhmicContact.Function_semiconductor. intros Hrun Hrows Hst.
  destruct (genius_assert _); simpl in Hrun; [|done]. injection Hrun as <-. simpl.
  destruct (enable_Tl _ && _)%bool, (enable_Tn _), (enable_Tp _); split_rows.
Qed.

Lemma Function_conductor_rows x rn0 st rn st' :
  OhmicContact.Function_conductor T_external x rn0 st rn = Ok st' ->
  (forall v, (global_offset rn.2 + ebm_variable_offset rn.1 v)%nat <> go) ->
  go ∉ OhmicContact.iy st -> go ∉ OhmicContact.iy st'.
Proof.
  unfold OhmicContact.Function_conductor. intros Hrun Hrows Hst.
  destruct (genius_assert _); simpl in Hrun; [|done]. injection Hrun as <-. simpl.
  destruct (enable_Tl _); split_rows.
Qed.

Lemma Function_node_rows x Ve st nd st' :
  OhmicContact.Function_node kb e T_external mt spec me bc x Ve st nd = Ok st' ->
  (forall rn v, rn ∈ region_node nd ->
     (global_offset rn.2 + ebm_variable_offset rn.1 v)%nat <> go) ->
  go ∉ OhmicContact.iy st -> go ∉ OhmicContact.iy st'.
Proof.
  unfold OhmicContact.Function_node. intros Hrun Hrows Hst.
  destruct (negb _); [by injection Hrun as <- |].
  destruct (region_node nd) as [|rn0 rest] eqn:Hnd; [by injection Hrun as <- |].
  revert Hrun. apply (foldM_invariant _ (fun s => go ∉ OhmicContact.iy s)); [|done].
  intros s1 [i rn] s2 Hin Hs1 Hstep.
  apply elem_of_lookup_imap_1 in Hin as (i' & rn' & Heq & Hlook).
  injection Heq as -> ->. apply list_elem_of_lookup_2 in Hlook.
  unfold OhmicContact.Function_region in Hstep. simpl in Hstep.
  destruct (type rn'.1); try done.
  - eapply Function_semiconductor_rows; eauto.
  - eapply Function_conductor_rows; eauto.
  - eapply Function_conductor_rows; eauto.
  - by injection Hstep as <-.
Qed.

(** [EBM3_Function] leaves the row of the electrode to the circuit
    equation: the node equations do not touch it. *)
Lemma EBM3_Function_electrode_row current_buffer0 x f flag res :
  OhmicContact.EBM3_Function kb e T_external mt spec me is_last_processor bc
    current_buffer0 x f flag = Ok res ->
  electrode_row_apart bc ->
  exists f1,
    OhmicContact.f_out res
    = OhmicContact.circuit_equation spec is_last_processor bc x f1
        (OhmicContact.potential_itering res) (OhmicContact.current_itering res) /\
    VecGetValue f1 go = VecGetValue f go /\ length f1 = length f.
Proof.
  unfold OhmicContact.EBM3_Function. intros Hrun Hapart.
  destruct (bc_local_offset bc) as [lo|]; [|done].
  destruct (foldM _ _ _) as [st|] eqn:Hst; simpl in Hrun; [|done].
  injection Hrun as <-. simpl.
  assert (Hiy : go ∉ OhmicContact.iy st).
  { revert Hst.
    apply (foldM_invariant _ (fun s => go ∉ OhmicContact.iy s)); [|apply not_elem_of_nil].
    intros s1 nd s2 Hnd Hs1 Hstep. eapply Function_node_rows; eauto. }
  eexists. split; [reflexivity |].
  case_bool_decide; [done |].
  split; [by apply VecSetValues_ADD_untouched | apply length_VecSetValues].
Qed.

Lemma VecSetValue_ADD_get (v : list R) (i : nat) (a : R) :
  (i < length v)%nat ->
  VecGetValue (VecSetValue v i a ADD_VALUES) i = VecGetValue v i + a.
Proof. intros Hi. unfold VecSetValue. by rewrite VecGetValue_insert_eq. Qed.

(** The circuit equation of a voltage-driven stand-alone electrode, on the
    last processor. *)
Lemma circuit_equation_voltage_driven x f1 Ve current :
  is_last_processor = true -> is_inter_connect_bc bc = false ->
  is_voltage_driven (ext_circuit bc) = true ->
  is_current_driven (ext_circuit bc) = false ->
  (go < length f1)%nat ->
  VecGetValue (OhmicContact.circuit_equation spec is_last_processor bc x f1 Ve current) go
  = VecGetValue f1 go + voltage_driven_equation spec (ext_circuit bc) current Ve.
Proof.
  intros -> Hic Hv Hc Hlen. unfold OhmicContact.circuit_equation.
  rewrite Hic, Hv, Hc.
  rewrite !VecSetValue_ADD_get by (by rewrite ?length_VecSetValue).
  unfold voltage_driven_equation, Rdiv. ring.
Qed.

(** The circuit equation of a current-driven stand-alone electrode. *)
Lemma circuit_equation_current_driven x f1 Ve current :
  is_last_processor = true -> is_inter_connect_bc bc = false ->
  is_voltage_driven (ext_circuit bc) = false ->
  is_current_driven (ext_circuit bc) = true ->
  (go < length f1)%nat ->
  VecGetValue (OhmicContact.circuit_equation spec is_last_processor bc x f1 Ve current) go
  = VecGetValue f1 go
    + (current + (cap_current (ext_circuit bc) - Iapp (ext_circuit bc))).
Proof.
  intros -> Hic Hv Hc Hlen. unfold OhmicContact.circuit_equation.
  rewrite Hic, Hv, Hc.
  rewrite !VecSetValue_ADD_get by (by rewrite ?length_VecSetValue).
  ring.
Qed.

End OhmicResidual.

Lemma sum_list_app (l1 l2 : list R) : sum_list (l1 ++ l2) = sum_list l1 + sum_list l2.
Proof.
  unfold sum_list. induction l1 as [|a l1 IH]; simpl; [lra |]. rewrite IH. lra.
Qed.

Lemma flat_map_imap_pair {A C : Type} (g : A -> list C) (l : list A) :
  flat_map (fun ia : nat * A => g ia.2) (imap pair l) = flat_map g l.
Proof.
  assert (H : forall (f : nat -> A -> nat * A),
             (forall i a, (f i a).2 = a) ->
             flat_map (fun ia : nat * A => g ia.2) (imap f l) = flat_map g l).
  { induction l as [|a l IH]; intros f Hf; simpl; [done |].
    rewrite Hf, IH; [done |]. intros i b. apply Hf. }
  by apply H.
Qed.

Section OhmicCurrents.

Variables (kb e T_external : R).
Variable mt : Material.
Variable spec : SolverSpecify.
Variable me : nat.
Variable is_last_processor : bool.
Variable bc : OhmicContactBC.

(** The conduction currents [EBM3_Function_Preprocess] saves. *)
Lemma EBM3_Function_Preprocess_currents f rs0 rs current_buffer0 :
  OhmicContact.EBM3_Function_Preprocess me bc f rs0 = Ok (rs, current_buffer0) ->
  current_buffer0 = flat_map (node_conduction_currents me f) (bd_nodes bc).
Proof.
  unfold OhmicContact.EBM3_Function_Preprocess. intros Hrun.
  apply (foldM_app _ snd (node_conduction_currents me f)) in Hrun; [done |].
  clear. intros st nd st'. unfold OhmicContact.Preprocess_node, node_conduction_currents.
  destruct (negb _); [intros H; injection H as <-; by rewrite app_nil_r |].
  destruct (region_node nd) as [|rn0 rest] eqn:Hnd;
    [intros H; injection H as <-; by rewrite app_nil_r |].
  apply (foldM_app _ snd). clear. intros st rn st'.
  unfold OhmicContact.Preprocess_region.
  destruct (type rn.1); try done; try destruct (enable_Tl _);
    intros H; injection H as <-; simpl; by rewrite ?app_nil_r.
Qed.

(** The displacement currents [EBM3_Function] adds to them. *)
Lemma EBM3_Function_current current_buffer0 x f flag res :
  OhmicContact.EBM3_Function kb e T_external mt spec me is_last_processor bc
    current_buffer0 x f flag = Ok res ->
  OhmicContact.current_itering res
  = z_width bc *
    (sum_list current_buffer0
     + sum_list (flat_map (node_displacement_currents spec me x) (bd_nodes bc))).
Proof.
  unfold OhmicContact.EBM3_Function. intros Hrun.
  destruct (bc_local_offset bc) as [lo|]; [|done].
  destruct (foldM _ _ _) as [st|] eqn:Hst; simpl in Hrun; [|done].
  injection Hrun as <-. simpl. rewrite <- sum_list_app. do 2 f_equal.
  apply (foldM_app _ OhmicContact.current_buffer (node_displacement_currents spec me x))
    in Hst; [done |].
  clear. intros st nd st'. unfold OhmicContact.Function_node, node_displacement_currents.
  destruct (negb _); [intros H; injection H as <-; by rewrite app_nil_r |].
  destruct (region_node nd) as [|rn0 rest] eqn:Hnd;
    [intros H; injection H as <-; by rewrite app_nil_r |].
  intros Hrun. rewrite <- flat_map_imap_pair. revert Hrun.
  apply (foldM_app _ OhmicContact.current_buffer). clear. intros st [i rn] st'.
  unfold OhmicContact.Function_region. simpl.
  destruct (type rn.1); try done.
  - unfold OhmicContact.Function_semiconductor.
    destruct (genius_assert _); simpl; [|done]. intros H. injection H as <-. simpl.
    destruct (TimeDependent spec); [done | by rewrite app_nil_r].
  - unfold OhmicContact.Function_conductor.
    destruct (genius_assert _); simpl; [|done]. intros H. injection H as <-.
    by rewrite app_nil_r.
  - unfold OhmicContact.Function_conductor.
    destruct (genius_assert _); simpl; [|done]. intros H. injection H as <-.
    by rewrite app_nil_r.
  - intros H. injection H as <-. by rewrite app_nil_r.
Qed.

End OhmicCurrents.

(** *** The Jacobian row of the electrode equation *)

Lemma MatSetValues_row_other (cols : list nat) :
  forall (vals : list R) (J : Mat) (row i j : nat),
    i <> row -> MatSetValues_row J row cols vals i j = J i j.
Proof.
  induction cols as [|c cols IH]; intros [|a vals] J row i j Hne; simpl; try done.
  rewrite IH by done. unfold MatSetValue.
  destruct (Nat.eqb_spec i row); [done | by simpl].
Qed.

Lemma MatSetValue_zero (J : Mat) (row col i j : nat) :
  MatSetValue J row col 0 i j = J i j.
Proof. unfold MatSetValue. destruct (_ && _)%bool; lra. Qed.

Lemma MatSetValues_row_zero (cols : list nat) :
  forall (vals : list R) (J : Mat) (row i j : nat),
    Forall (fun a => a = 0) vals -> MatSetValues_row J row cols vals i j = J i j.
Proof.
  induction cols as [|c cols IH]; intros [|a vals] J row i j Hz; simpl; try done.
  apply Forall_cons in Hz as [-> Hz]. rewrite IH by done. apply MatSetValue_zero.
Qed.

Lemma zip_with_zero (h : R -> R -> R) (A1 A2 : list R) :
  (forall a1 a2, h a1 a2 = 0) -> Forall (fun a => a = 0) (zip_with h A1 A2).
Proof.
  intros Hh. revert A2. induction A1 as [|a1 A1 IH]; intros [|a2 A2]; simpl;
    constructor; auto.
Qed.

Section OhmicJacobian.

Variable ohmic_AD : list R -> FVM_Node -> OhmicDerivatives.
Variable spec : SolverSpecify.
Variable me : nat.
Variable bc : OhmicContactBC.

Hypothesis stand_alone : is_inter_connect_bc bc = false.
Hypothesis voltage_driven : is_voltage_driven (ext_circuit bc) = true.
Hypothesis not_current_driven : is_current_driven (ext_circuit bc) = false.
Hypothesis no_resistance : ckt_R (ext_circuit bc) = 0.
Hypothesis no_inductance : ckt_L (ext_circuit bc) = 0.

Local Abbreviation go := (bc_global_offset bc).

Lemma current_term_jacobian_zero A1 A2 n :
  Forall (fun a => a = 0) (OhmicContact.current_term_jacobian spec bc A1 A2 n).
Proof using stand_alone voltage_driven not_current_driven no_resistance no_inductance.
  unfold OhmicContact.current_term_jacobian.
  rewrite stand_alone, voltage_driven, not_current_driven, no_resistance, no_inductance.
  apply zip_with_zero. intros a1 a2. unfold Rdiv. ring.
Qed.

Lemma Jacobian_Preprocess_current_zero jac buf nd buf' :
  OhmicContact.Jacobian_Preprocess_current spec me bc jac buf nd = Ok buf' ->
  all_zero buf -> all_zero buf'.
Proof using stand_alone voltage_driven not_current_driven no_resistance no_inductance.
  unfold OhmicContact.Jacobian_Preprocess_current. intros Hrun Hbuf.
  destruct (negb _); [by injection Hrun as <- |].
  destruct (OhmicContact.get_region_fvm_node _ _) as [rn|]; simpl in Hrun; [|done].
  injection Hrun as <-. unfold all_zero. simpl.
  apply Forall_app. split; [|repeat constructor; apply current_term_jacobian_zero].
  apply (foldl_invariant _ all_zero); [|done].
  intros b nb _ Hb. unfold all_zero. simpl.
  apply Forall_app. split; [done |]. repeat constructor. apply current_term_jacobian_zero.
Qed.

Lemma Jacobian_current_entries_zero (cols : list (list nat)) :
  forall (entries : list (list R)) (jac : Mat) (i j : nat),
    Forall (Forall (fun a => a = 0)) entries ->
    OhmicContact.Jacobian_current_entries bc jac cols entries i j = jac i j.
Proof.
  induction cols as [|c cols IH]; intros [|v entries] jac i j Hz; simpl; try done.
  apply Forall_cons in Hz as [Hv Hz]. rewrite IH by done.
  by apply MatSetValues_row_zero.
Qed.

Lemma displacement_current_AD_zero x fvm node_psi_offset nb j :
  adtl.getADValue
    (OhmicContact.displacement_current_AD spec bc x fvm node_psi_offset nb) j = 0.
Proof using stand_alone voltage_driven no_resistance no_inductance.
  unfold OhmicContact.displacement_current_AD.
  rewrite stand_alone, voltage_driven, no_resistance, no_inductance. simpl.
  unfold Rdiv. ring.
Qed.

Lemma Jacobian_semiconductor_row x nd i jac rn jac' :
  OhmicContact.Jacobian_semiconductor ohmic_AD spec bc x nd i jac rn = Ok jac' ->
  (forall v, (global_offset rn.2 + ebm_variable_offset rn.1 v)%nat <> go) ->
  same_row go jac jac'.
Proof using stand_alone voltage_driven no_resistance no_inductance.
  unfold OhmicContact.Jacobian_semiconductor. intros Hrun Hrows.
  destruct (genius_assert _); simpl in Hrun; [|done].
  destruct (genius_assert _); simpl in Hrun; [|done].
  injection Hrun as <-.
  assert (Hdisp : forall J, same_row go jac J ->
             same_row go jac (foldl (OhmicContact.Jacobian_displacement spec bc x rn.2
                                    (ebm_variable_offset rn.1 POTENTIAL))
                             J (neighbor_node nd))).
  { intros J HJ. apply (foldl_invariant _ (same_row go jac)); [|done].
    intros J1 nb _ HJ1 c. unfold OhmicContact.Jacobian_displacement.
    rewrite !displacement_current_AD_zero, !MatSetValue_zero. apply HJ1. }
  assert (Hnode : forall J row cols vals,
             same_row go jac J -> (exists v, row = (global_offset rn.2
                                           + ebm_variable_offset rn.1 v)%nat) ->
             same_row go jac (MatSetValues_row J row cols vals)).
  { intros J row cols vals HJ [v ->] c.
    rewrite MatSetValues_row_other; [apply HJ | by apply not_eq_sym]. }
  assert (H0 : same_row go jac jac) by done.
  destruct (TimeDependent spec); [apply Hdisp |];
    destruct (enable_Tl _ && _)%bool, (enable_Tn _), (enable_Tp _);
    repeat (apply Hnode; [|eauto]); done.
Qed.

Lemma Jacobian_conductor_row x rn0 jac rn :
  (forall v, (global_offset rn.2 + ebm_variable_offset rn.1 v)%nat <> go) ->
  same_row go jac (OhmicContact.Jacobian_conductor x rn0 jac rn).
Proof.
  intros Hrows c. unfold OhmicContact.Jacobian_conductor, OhmicContact.Jacobian_equality.
  destruct (enable_Tl _); rewrite !MatSetValues_row_other; auto using not_eq_sym.
Qed.

Lemma Jacobian_node_row x jac nd jac' :
  OhmicContact.Jacobian_node ohmic_AD spec me bc x jac nd = Ok jac' ->
  (forall rn v, rn ∈ region_node nd ->
     (global_offset rn.2 + ebm_variable_offset rn.1 v)%nat <> go) ->
  same_row go jac jac'.
Proof using stand_alone voltage_driven no_resistance no_inductance.
  unfold OhmicContact.Jacobian_node. intros Hrun Hrows.
  destruct (negb _); [by injection Hrun as <- |].
  destruct (region_node nd) as [|rn0 rest] eqn:Hnd; [by injection Hrun as <- |].
  revert Hrun. apply (foldM_invariant _ (same_row go jac)); [|done].
  intros J1 [i rn] J2 Hin HJ1 Hstep.
  apply elem_of_lookup_imap_1 in Hin as (i' & rn' & Heq & Hlook).
  injection Heq as -> ->. apply list_elem_of_lookup_2 in Hlook.
  unfold OhmicContact.Jacobian_region in Hstep. simpl in Hstep.
  intros c. destruct (type rn'.1); try done.
  - rewrite (Jacobian_semiconductor_row _ _ _ _ _ _ Hstep); [apply HJ1 | eauto].
  - injection Hstep as <-. rewrite Jacobian_conductor_row; [apply HJ1 | eauto].
  - injection Hstep as <-. rewrite Jacobian_conductor_row; [apply HJ1 | eauto].
  - injection Hstep as <-. apply HJ1.
Qed.

(** With neither resistance nor inductance, [EBM3_Jacobian] adds to the row
    of the electrode equation nothing but [1 + (L/dt+R)*C/dt] on the
    diagonal. *)
Lemma EBM3_Jacobian_electrode_row jac0 rs0 rs buf x jac flag jac' flag' :
  OhmicContact.EBM3_Jacobian_Preprocess spec me bc jac0 rs0 = Ok (rs, buf) ->
  OhmicContact.EBM3_Jacobian ohmic_AD spec me true bc buf x jac flag = Ok (jac', flag') ->
  electrode_row_apart bc ->
  forall c, jac' go c
            = jac go c + (if Nat.eqb c go
                          then 1 + (ckt_L (ext_circuit bc) / dt spec + ckt_R (ext_circuit bc))
                                   * ckt_C (ext_circuit bc) / dt spec
                          else 0).
Proof using stand_alone voltage_driven not_current_driven no_resistance no_inductance.
  unfold OhmicContact.EBM3_Jacobian_Preprocess, OhmicContact.EBM3_Jacobian.
  intros Hpre Hjac Hapart c.
  destruct (foldM _ _ (bd_nodes bc)) as [buf1|] eqn:Hbuf in Hpre; simpl in Hpre; [|done].
  destruct (foldM _ rs0 _) as [rs1|]; simpl in Hpre; [|done].
  injection Hpre as <- <-.
  assert (Hzero : all_zero buf1).
  { revert Hbuf. apply (foldM_invariant _ all_zero); [|constructor].
    intros b nd b' _ Hb Hstep. eapply Jacobian_Preprocess_current_zero; eauto. }
  destruct (foldM _ _ (bd_nodes bc)) as [jac2|] eqn:Hnodes in Hjac; simpl in Hjac; [|done].
  injection Hjac as <- _.
  assert (Hrow : same_row go jac jac2).
  { revert Hnodes. apply (foldM_invariant _ (same_row go jac)).
    - intros J1 nd J2 Hnd HJ1 Hstep c'.
      rewrite (Jacobian_node_row _ _ _ _ Hstep); [apply HJ1 | eauto].
    - intros c'. by apply Jacobian_current_entries_zero. }
  unfold OhmicContact.Jacobian_circuit. rewrite stand_alone, voltage_driven.
  unfold MatSetValue. rewrite Nat.eqb_refl. simpl. rewrite Hrow.
  destruct (Nat.eqb c go); lra.
Qed.

End OhmicJacobian.

Lemma electrode_apart (ckt : ExternalCircuit) : electrode_row_apart (electrode ckt).
Proof.
  intros nd rn v Hnd Hrn. apply list_elem_of_In in Hnd. simpl in Hnd.
  destruct Hnd as [<-|[]]. apply list_elem_of_In in Hrn. simpl in Hrn.
  destruct Hrn as [<-|[]]. destruct v; simpl; lia.
Qed.

(** C3.  For a voltage-driven stand-alone electrode, [EBM3_Function] adds to
    the row of the electrode's unknown exactly
    [(L/dt+R)*I + (Ve - Vapp) + (L/dt+R)*(C/dt)*(Ve - V_prev) - (L/dt)*(I_prev + I_cap_prev)],
    with [Ve] the electrode unknown and [I] the net conduction plus
    displacement current of the boundary; the row being zero before, this is
    the assembled residual.  With R = L = C = 0 and Vapp = 5 the residual is
    [Ve - 5], and the Jacobian row of the electrode equation is 1 on the
    diagonal and 0 elsewhere. *)
Theorem voltage_driven_electrode (kb e T_external : R) (mt : Material)
    (ohmic_AD : list R -> FVM_Node -> OhmicDerivatives) (spec : SolverSpecify)
    (me : nat) (bc : OhmicContactBC) :
  electrode_row_apart bc ->
  is_inter_connect_bc bc = false ->
  is_voltage_driven (ext_circuit bc) = true ->
  is_current_driven (ext_circuit bc) = false ->
  let ckt := ext_circuit bc in
  let row := bc_global_offset bc in
  (forall f_region rs0 rs current_buffer0 x f flag res,
     OhmicContact.EBM3_Function_Preprocess me bc f_region rs0 = Ok (rs, current_buffer0) ->
     OhmicContact.EBM3_Function kb e T_external mt spec me true bc current_buffer0 x f flag
     = Ok res ->
     (row < length f)%nat ->
     let Ve := OhmicContact.potential_itering res in
     let I := OhmicContact.current_itering res in
     (exists local_offset, bc_local_offset bc = Some local_offset /\
                           Ve = VecGetValue x local_offset) /\
     I = electrode_current spec me bc f_region x /\
     VecGetValue (OhmicContact.f_out res) row
     = VecGetValue f row + voltage_driven_equation spec ckt I Ve /\
     (ckt_R ckt = 0 -> ckt_L ckt = 0 -> ckt_C ckt = 0 -> Vapp ckt = 5 ->
      VecGetValue f row = 0 ->
      VecGetValue (OhmicContact.f_out res) row = Ve - 5)) /\
  (ckt_R ckt = 0 -> ckt_L ckt = 0 -> ckt_C ckt = 0 ->
   forall jac0 rs0 rs buf x jac flag jac' flag',
     OhmicContact.EBM3_Jacobian_Preprocess spec me bc jac0 rs0 = Ok (rs, buf) ->
     OhmicContact.EBM3_Jacobian ohmic_AD spec me true bc buf x jac flag = Ok (jac', flag') ->
     (forall c, jac row c = 0) ->
     forall c, jac' row c = if Nat.eqb c row then 1 else 0).
Proof.
  intros Hapart Hic Hv Hc ckt row. split.
  - intros f_region rs0 rs current_buffer0 x f flag res Hpre Hfun Hlen Ve I.
    assert (Hres : VecGetValue (OhmicContact.f_out res) row
                   = VecGetValue f row + voltage_driven_equation spec ckt I Ve).
    { destruct (EBM3_Function_electrode_row _ _ _ _ _ _ _ _ _ _ _ _ _ Hfun Hapart)
        as (f1 & -> & Hget & Hlen1).
      rewrite circuit_equation_voltage_driven by (done || lia). by rewrite Hget. }
    split; [|split; [|split; [done |]]].
    + unfold OhmicContact.EBM3_Function in Hfun.
      destruct (bc_local_offset bc) as [lo|]; [|done]. exists lo. split; [done |].
      destruct (foldM _ _ _); simpl in Hfun; [|done]. by injection Hfun as <-.
    + unfold I, electrode_current.
      rewrite (EBM3_Function_current _ _ _ _ _ _ _ _ _ _ _ _ _ Hfun).
      by rewrite (EBM3_Function_Preprocess_currents _ _ _ _ _ _ Hpre).
    + intros HR HL HC HV Hf0. rewrite Hres, Hf0. unfold voltage_driven_equation.
      fold ckt. rewrite HR, HL, HC, HV. unfold Rdiv. ring.
  - intros HR HL HC jac0 rs0 rs buf x jac flag jac' flag' Hpre Hjac Hzero c.
    rewrite (EBM3_Jacobian_electrode_row ohmic_AD spec me bc Hic Hv Hc HR HL
               _ _ _ _ _ _ _ _ _ Hpre Hjac Hapart).
    fold row ckt. rewrite Hzero, HR, HL, HC.
    destruct (Nat.eqb c row); unfold Rdiv; ring.
Qed.

Lemma voltage_driven_electrode_witness :
  let bc := electrode (voltage_source 5) in
  let x := [0; 1; 1; 0; 0; 0; 7] in
  let f := [0; 0; 0; 0; 0; 0; 0] in
  (exists rs current_buffer0 res,
     OhmicContact.EBM3_Function_Preprocess 0 bc f no_surgery = Ok (rs, current_buffer0) /\
     OhmicContact.EBM3_Function 1 1 300 constant_material steady_state 0 true bc
       current_buffer0 x f NOT_SET_VALUES = Ok res /\
     VecGetValue (OhmicContact.f_out res) 6 = 7 - 5) /\
  (exists rs buf jac',
     OhmicContact.EBM3_Jacobian_Preprocess steady_state 0 bc (fun _ _ => 0) no_surgery
     = Ok (rs, buf) /\
     OhmicContact.EBM3_Jacobian ohmic_derivatives steady_state 0 true bc buf
       x (fun _ _ => 0) NOT_SET_VALUES = Ok (jac', ADD_VALUES) /\
     jac' 6%nat 6%nat = 1 /\ jac' 6%nat 0%nat = 0).
Proof.
  intros bc x f.
  destruct (voltage_driven_electrode 1 1 300 constant_material ohmic_derivatives
              steady_state 0 bc (electrode_apart _) eq_refl eq_refl eq_refl)
    as [Hres Hjac].
  split.
  - do 3 eexists. split; [reflexivity |]. split; [reflexivity |].
    refine (proj2 (proj2 (proj2 (Hres f no_surgery _ _ x f NOT_SET_VALUES _ _ _ _)))
              eq_refl eq_refl eq_refl eq_refl eq_refl).
    + reflexivity.
    + reflexivity.
    + simpl. lia.
  - do 3 eexists. split; [reflexivity |]. split; [reflexivity |].
    split; refine (Hjac eq_refl eq_refl eq_refl (fun _ _ => 0) no_surgery _ _ x
                     (fun _ _ => 0) NOT_SET_VALUES _ ADD_VALUES _ _ _ _);
      reflexivity.
Defined.

(** C4, as stated, fails: the row of a current-driven electrode also
    receives the current [I] flowing into the electrode.  Here the assembled
    residual holds [In - Ip = 3 - 1] at the boundary cell, both [I_cap] and
    [I_app] are zero, and the electrode row ends as 2, not as
    [I_cap - I_app = 0]. *)
Lemma current_driven_claim_fails :
  let bc := electrode (current_source 0) in
  let x := [0; 1; 1; 0; 0; 0; 7] in
  let f_region := [0; 3; 1; 0; 0; 0; 0] in
  exists rs current_buffer0 res,
    OhmicContact.EBM3_Function_Preprocess 0 bc f_region no_surgery
    = Ok (rs, current_buffer0) /\
    OhmicContact.EBM3_Function 1 1 300 constant_material steady_state 0 true bc
      current_buffer0 x
      (PetscUtils.VecAddClearRow f_region (src_row rs) (dst_row rs) (clear_row rs))
      NOT_SET_VALUES = Ok res /\
    VecGetValue (OhmicContact.f_out res) (bc_global_offset bc)
    <> cap_current (ext_circuit bc) - Iapp (ext_circuit bc).
Proof.
  intros bc x f_region. do 3 eexists. split; [reflexivity |]. split; [reflexivity |].
  match goal with
  | |- VecGetValue (OhmicContact.f_out ?res) _ <> _ =>
      destruct (EBM3_Function_electrode_row 1 1 300 constant_material steady_state 0 true bc
                  _ x _ NOT_SET_VALUES res eq_refl (electrode_apart _))
        as (f1 & Hout & Hget & Hlen)
  end.
  rewrite Hout, circuit_equation_current_driven, Hget; try reflexivity.
  - cbn. lra.
  - rewrite Hlen. simpl. lia.
Qed.

(** C4 (amended).  For a current-driven stand-alone electrode,
    [EBM3_Function] adds to the row of the electrode's unknown
    [I + I_cap - I_app]: the net conduction plus displacement current of the
    boundary, plus the capacitor current of the previous step, minus the
    applied current; the circuit equation is [I + I_cap - I_app = 0]. *)
Theorem current_driven_electrode (kb e T_external : R) (mt : Material)
    (spec : SolverSpecify) (me : nat) (bc : OhmicContactBC)
    (f_region x f : list R) (rs0 rs : RowSurgery) (current_buffer0 : list R)
    (flag : InsertMode) (res : OhmicContact.FunctionResult) :
  electrode_row_apart bc ->
  is_inter_connect_bc bc = false ->
  is_voltage_driven (ext_circuit bc) = false ->
  is_current_driven (ext_circuit bc) = true ->
  OhmicContact.EBM3_Function_Preprocess me bc f_region rs0 = Ok (rs, current_buffer0) ->
  OhmicContact.EBM3_Function kb e T_external mt spec me true bc current_buffer0 x f flag
  = Ok res ->
  (bc_global_offset bc < length f)%nat ->
  let I := OhmicContact.current_itering res in
  I = electrode_current spec me bc f_region x /\
  VecGetValue (OhmicContact.f_out res) (bc_global_offset bc)
  = VecGetValue f (bc_global_offset bc)
    + (I + cap_current (ext_circuit bc) - Iapp (ext_circuit bc)).
Proof.
  intros Hapart Hic Hv Hc Hpre Hfun Hlen I. split.
  - unfold I, electrode_current.
    rewrite (EBM3_Function_current _ _ _ _ _ _ _ _ _ _ _ _ _ Hfun).
    by rewrite (EBM3_Function_Preprocess_currents _ _ _ _ _ _ Hpre).
  - destruct (EBM3_Function_electrode_row _ _ _ _ _ _ _ _ _ _ _ _ _ Hfun Hapart)
      as (f1 & -> & Hget & Hlen1).
    rewrite circuit_equation_current_driven by (done || lia). rewrite Hget.
    fold I. ring.
Qed.

Lemma current_driven_electrode_witness :
  let bc := electrode (current_source 4) in
  let x := [0; 1; 1; 0; 0; 0; 7] in
  let f_region := [0; 3; 1; 0; 0; 0; 0] in
  let f := [0; 0; 0; 0; 0; 0; 0] in
  let rs := {| src_row := []; dst_row := []; clear_row := [0; 1; 2]%nat |} in
  let current_buffer0 := [3 - 1] in
  exists res,
    OhmicContact.EBM3_Function 1 1 300 constant_material steady_state 0 true bc
      current_buffer0 x f NOT_SET_VALUES = Ok res /\
    VecGetValue (OhmicContact.f_out res) 6
    = VecGetValue f 6 + (OhmicContact.current_itering res + 0 - 4).
Proof.
  intros bc x f_region f rs current_buffer0. eexists. split; [reflexivity |].
  match goal with
  | |- VecGetValue (OhmicContact.f_out ?res) _ = _ =>
      refine (proj2 (current_driven_electrode 1 1 300 constant_material steady_state 0 bc
                       f_region x f no_surgery rs current_buffer0 NOT_SET_VALUES res
                       (electrode_apart _) eq_refl eq_refl eq_refl _ _ _))
  end.
  - reflexivity.
  - reflexivity.
  - simpl. lia.
Defined.

(** ** Positivity projection (C7) *)

Lemma length_clamp_below (a : list R) (i : nat) (floor : R) :
  length (EBM3Solver.clamp_below a i floor) = length a.
Proof. unfold EBM3Solver.clamp_below. destruct (Rlt_dec _ _); by rewrite ?length_insert. Qed.

(** A limit never lowers an entry. *)
Lemma clamp_below_mono (a : list R) (i j : nat) (floor : R) :
  VecGetValue a j <= VecGetValue (EBM3Solver.clamp_below a i floor) j.
Proof.
  unfold EBM3Solver.clamp_below. destruct (Rlt_dec _ _) as [Hlt|]; [|lra].
  destruct (decide (j < length a)%nat) as [Hj|Hj].
  - rewrite VecGetValue_insert by done. destruct (Nat.eqb_spec i j) as [->|]; lra.
  - rewrite !VecGetValue_ge by (rewrite ?length_insert; lia). lra.
Qed.

Lemma clamp_below_reached (a : list R) (i : nat) (floor : R) :
  (i < length a)%nat -> floor <= VecGetValue (EBM3Solver.clamp_below a i floor) i.
Proof.
  intros Hi. unfold EBM3Solver.clamp_below. destruct (Rlt_dec _ _) as [Hlt|Hge].
  - rewrite VecGetValue_insert_eq by done. lra.
  - lra.
Qed.

(** A limit that is met, or that points past the end, changes nothing. *)
Lemma clamp_below_met (a : list R) (i : nat) (floor : R) :
  (length a <= i)%nat \/ floor <= VecGetValue a i ->
  EBM3Solver.clamp_below a i floor = a.
Proof.
  intros [Hi|Hge]; unfold EBM3Solver.clamp_below; destruct (Rlt_dec _ _); try done.
  - by apply list_insert_ge.
  - lra.
Qed.

Lemma length_apply_clamps (clamps : list (nat * R)) (a : list R) :
  length (apply_clamps clamps a) = length a.
Proof.
  revert a. induction clamps as [|c clamps IH]; intros a; simpl; [done |].
  unfold apply_clamps in *. simpl. by rewrite IH, length_clamp_below.
Qed.

Lemma apply_clamps_mono (clamps : list (nat * R)) (a : list R) (j : nat) :
  VecGetValue a j <= VecGetValue (apply_clamps clamps a) j.
Proof.
  revert a. induction clamps as [|c clamps IH]; intros a; [simpl; lra |].
  unfold apply_clamps in *. simpl.
  eapply Rle_trans; [apply (clamp_below_mono a c.1 j c.2) | apply IH].
Qed.

(** After a batch of limits every one of them is met. *)
Lemma apply_clamps_met (clamps : list (nat * R)) :
  forall (a : list R) (c : nat * R),
    c ∈ clamps ->
    (length (apply_clamps clamps a) <= c.1)%nat
    \/ c.2 <= VecGetValue (apply_clamps clamps a) c.1.
Proof.
  induction clamps as [|c0 clamps IH]; intros a c Hin; [by apply elem_of_nil in Hin |].
  apply elem_of_cons in Hin as [->|Hin].
  - destruct (decide (c0.1 < length a)%nat) as [Hi|Hi].
    + right. unfold apply_clamps. simpl.
      eapply Rle_trans; [by apply clamp_below_reached | apply apply_clamps_mono].
    + left. rewrite length_apply_clamps. lia.
  - unfold apply_clamps in *. simpl. by apply IH.
Qed.

Lemma apply_clamps_fixed (clamps : list (nat * R)) (a : list R) :
  (forall c, c ∈ clamps -> (length a <= c.1)%nat \/ c.2 <= VecGetValue a c.1) ->
  apply_clamps clamps a = a.
Proof.
  induction clamps as [|c clamps IH]; intros Hmet; [done |].
  unfold apply_clamps in *. simpl.
  rewrite clamp_below_met by (apply Hmet; by left).
  apply IH. intros c' Hc'. apply Hmet. by right.
Qed.

(** Applying a batch of limits twice is applying it once. *)
Lemma apply_clamps_idempotent (clamps : list (nat * R)) (a : list R) :
  apply_clamps clamps (apply_clamps clamps a) = apply_clamps clamps a.
Proof. apply apply_clamps_fixed. intros c Hc. by apply apply_clamps_met. Qed.

Lemma apply_clamps_app (c1 c2 : list (nat * R)) (a : list R) :
  apply_clamps (c1 ++ c2) a = apply_clamps c2 (apply_clamps c1 a).
Proof. unfold apply_clamps. apply foldl_app. Qed.

Lemma foldl_apply_clamps {B : Type} (g : B -> list (nat * R)) (l : list B) (a : list R) :
  foldl (fun a b => apply_clamps (g b) a) a l = apply_clamps (flat_map g l) a.
Proof.
  revert a. induction l as [|b l IH]; intros a; simpl; [done |].
  by rewrite apply_clamps_app, IH.
Qed.

Section Projection.

Variables (cm K : R).
Variable _system : SimulationSystem.

Lemma limit_node_clamps region oo a fvm_node :
  enable_Tn (get_advanced_model region) = false ->
  enable_Tp (get_advanced_model region) = false ->
  EBM3Solver.limit_node cm K _system region oo a fvm_node
  = apply_clamps (node_clamps cm K _system region fvm_node) a.
Proof.
  intros Hn Hp. unfold EBM3Solver.limit_node, node_clamps. rewrite Hn, Hp.
  by destruct (enable_Tl _).
Qed.

Lemma projection_region_clamps region oo a :
  (type region = SemiconductorRegion ->
   enable_Tn (get_advanced_model region) = false /\
   enable_Tp (get_advanced_model region) = false) ->
  EBM3Solver.projection_region cm K _system oo a region
  = apply_clamps (region_clamps cm K _system region) a.
Proof.
  intros Hoff. unfold EBM3Solver.projection_region, region_clamps.
  destruct (type region); try done.
  destruct Hoff as [Hn Hp]; [done |].
  rewrite <- foldl_apply_clamps. revert a.
  induction (on_processor_nodes region) as [|nd nodes IH]; intros a; simpl; [done |].
  by rewrite IH, limit_node_clamps.
Qed.

(** Without carrier temperatures the projection is a batch of lower limits. *)
Lemma projection_clamps xx oo :
  carrier_temperatures_off _system ->
  EBM3Solver.projection_positive_density_check cm K _system xx oo
  = apply_clamps (system_clamps cm K _system) xx.
Proof.
  unfold carrier_temperatures_off, EBM3Solver.projection_positive_density_check,
    system_clamps.
  intros Hoff. rewrite <- foldl_apply_clamps. revert xx.
  induction (regions _system) as [|region rest IH]; intros xx; simpl; [done |].
  rewrite projection_region_clamps by (intros Ht; apply Hoff; [by left | done]).
  apply IH. intros r Hr. apply Hoff. by right.
Qed.

End Projection.

(** C7 (amended).  When no semiconductor region solves for the electron or
    hole temperature, applying the positive-density projection twice in
    succession (with the same previous iterate) yields exactly the vector of
    one application, for every solution vector. *)
Theorem projection_idempotent (cm K : R) (_system : SimulationSystem) (xx oo : list R) :
  carrier_temperatures_off _system ->
  EBM3Solver.projection_positive_density_check cm K _system
    (EBM3Solver.projection_positive_density_check cm K _system xx oo) oo
  = EBM3Solver.projection_positive_density_check cm K _system xx oo.
Proof.
  intros Hoff. rewrite !projection_clamps by done. apply apply_clamps_idempotent.
Qed.

Lemma onePerCMC_unit : EBM3Solver.onePerCMC 1 = 1.
Proof. unfold EBM3Solver.onePerCMC. simpl. field. Qed.

Lemma projection_idempotent_witness :
  let sys := one_region_system plain_model in
  EBM3Solver.projection_positive_density_check 1 1 sys
    (EBM3Solver.projection_positive_density_check 1 1 sys [0; -2; 1; 0; 0; 0] [0; 1; 1; 0; 0; 0])
    [0; 1; 1; 0; 0; 0]
  = EBM3Solver.projection_positive_density_check 1 1 sys [0; -2; 1; 0; 0; 0] [0; 1; 1; 0; 0; 0].
Proof.
  intros sys. apply (projection_idempotent 1 1 sys).
  intros region Hin _. apply list_elem_of_In in Hin. simpl in Hin.
  destruct Hin as [<-|[]]. split; reflexivity.
Defined.

Lemma limit_carrier_temperature_unclamped (sys : SimulationSystem) (old a : list R)
    (ci ti : nat) (T1 : R) :
  T1 = VecGetValue old ti / VecGetValue old ci
       * (1 - Rmin (VecGetValue a ci / VecGetValue old ci) 2)
       + VecGetValue a ti / VecGetValue old ci ->
  ~ T1 < 0.9 * T_external sys ->
  EBM3Solver.limit_carrier_temperature sys old a ci ti = <[ti := T1 * VecGetValue a ci]> a.
Proof.
  intros -> Hge. unfold EBM3Solver.limit_carrier_temperature.
  by destruct (Rlt_dec _ _).
Qed.

(** C7, as stated, fails where the electron temperature is solved for.  The
    unknown at index 4 is n*Tn; the limit rebuilds it from the previous
    iterate as [T1*n1] with [T1 = T0*(1 - min(n1/n0, 2)) + x[4]/n0], which
    depends on the value it replaces.  With n0 = 1, T0 = 300, n1 = 2 and
    x[4] = 800 one application stores 1000, a second one 1400. *)
Lemma projection_not_idempotent :
  let sys := one_region_system electron_temperature_model in
  let xx := [0; 2; 1; 0; 800; 0] in
  let oo := [0; 1; 1; 0; 300; 0] in
  EBM3Solver.projection_positive_density_check 1 1 sys
    (EBM3Solver.projection_positive_density_check 1 1 sys xx oo) oo
  <> EBM3Solver.projection_positive_density_check 1 1 sys xx oo.
Proof.
  intros sys xx oo.
  assert (Hstep : forall w : R,
             ~ (300 * (1 - 2) + w < 270) ->
             EBM3Solver.projection_positive_density_check 1 1 sys [0; 2; 1; 0; w; 0] oo
             = [0; 2; 1; 0; (300 / 1 * (1 - Rmin (2 / 1) 2) + w / 1) * 2; 0]).
  { intros w Hw.
    unfold EBM3Solver.projection_positive_density_check, EBM3Solver.projection_region,
      EBM3Solver.limit_node.
    cbn -[EBM3Solver.clamp_below EBM3Solver.limit_carrier_temperature EBM3Solver.onePerCMC].
    rewrite onePerCMC_unit.
    rewrite (clamp_below_met [0; 2; 1; 0; w; 0]) by (right; cbn; lra).
    rewrite (clamp_below_met [0; 2; 1; 0; w; 0]) by (right; cbn; lra).
    rewrite (limit_carrier_temperature_unclamped sys oo _ 1 4 _ eq_refl).
    - reflexivity.
    - cbn. unfold Rmin. destruct (Rle_dec _ _); lra. }
  intros Heq. unfold xx in Heq.
  rewrite (Hstep 800) in Heq by lra.
  assert (Hw : ~ 300 * (1 - 2) + (300 / 1 * (1 - Rmin (2 / 1) 2) + 800 / 1) * 2 < 270).
  { unfold Rmin. destruct (Rle_dec _ _); lra. }
  rewrite (Hstep _ Hw) in Heq.
  assert (H4 : forall l1 l2 : list R, l1 = l2 -> VecGetValue l1 4 = VecGetValue l2 4)
    by (by intros l1 l2 ->).
  apply H4 in Heq. cbn in Heq. revert Heq.
  unfold Rmin. destruct (Rle_dec _ _); lra.
Qed.

(** ** Local truncation error (C8, C10) *)

Lemma zero_vector_get (l : list R) (i : nat) : zero_vector l -> VecGetValue l i = 0.
Proof.
  intros Hz. unfold VecGetValue. destruct (l !! i) as [a|] eqn:Hi; [|done].
  simpl. by apply (Forall_lookup_1 _ _ _ _ Hz Hi).
Qed.

Lemma zero_vector_insert (l : list R) (i : nat) (a : R) :
  zero_vector l -> a = 0 -> zero_vector (<[i := a]> l).
Proof.
  intros Hz ->. unfold zero_vector in *.
  destruct (decide (i < length l)%nat); [by apply Forall_insert |].
  by rewrite list_insert_ge by lia.
Qed.

Lemma zero_vector_norm (l : list R) : zero_vector l -> VecNorm_2 l = 0.
Proof.
  intros Hz. unfold VecNorm_2.
  replace (sum_list (map (fun a => a * a) l)) with 0; [apply sqrt_0 |].
  induction Hz as [|a l -> Hz IH]; simpl; [done |]. unfold sum_list in *. simpl.
  rewrite <- IH. lra.
Qed.

(** The error vector of a step whose predictor equals the corrector. *)
Lemma VecAXPY_cancel (a : R) (l0 : list R) :
  forall x, zero_vector l0 -> zero_vector (VecAXPY (VecAXPY l0 a x) (- a) x).
Proof.
  unfold VecAXPY. induction l0 as [|z l0 IH]; intros [|xi x] Hz; simpl; try constructor.
  - apply Forall_cons in Hz as [-> _]. ring.
  - apply IH. by apply Forall_cons in Hz as [_ ?].
Qed.

Lemma zero_vector_replicate (n : nat) : zero_vector (replicate n 0).
Proof. by apply Forall_replicate. Qed.

Section LTE.

Variable spec : SolverSpecify.
Variable _system : SimulationSystem.
Variable is_last_processor : bool.

Lemma LTE_vector_zero LTE x : zero_vector (EBM3Solver.LTE_vector spec LTE x x).
Proof.
  unfold EBM3Solver.LTE_vector, VecZeroEntries.
  destruct (TS_type spec); [| |apply zero_vector_replicate].
  - replace (- dt spec / (dt spec + dt_last spec))
      with (- (dt spec / (dt spec + dt_last spec))) by (unfold Rdiv; ring).
    apply VecAXPY_cancel, zero_vector_replicate.
  - replace (- dt spec / (dt spec + dt_last spec + dt_last_last spec))
      with (- (dt spec / (dt spec + dt_last spec + dt_last_last spec)))
      by (unfold Rdiv; ring).
    apply VecAXPY_cancel, zero_vector_replicate.
Qed.

Lemma weigh_zero xx ll i : zero_vector ll -> zero_vector (EBM3Solver.weigh spec xx ll i).
Proof.
  intros Hz. unfold EBM3Solver.weigh. apply zero_vector_insert; [done |].
  rewrite zero_vector_get by done. unfold Rdiv. ring.
Qed.

Lemma LTE_region_zero xx st region st' :
  EBM3Solver.LTE_region spec xx st region = Ok st' ->
  zero_vector st.2 -> zero_vector st'.2.
Proof.
  unfold EBM3Solver.LTE_region. intros Hrun Hz.
  destruct (type region); try done; injection Hrun as <-; simpl; try done.
  all: apply (foldl_invariant _ zero_vector); [|done]; intros ll nd _ Hll.
  - unfold EBM3Solver.LTE_semiconductor_node.
    destruct (enable_Tl _), (enable_Tn _), (enable_Tp _);
      repeat first [ apply weigh_zero | apply zero_vector_insert; [|done] ]; done.
  - unfold EBM3Solver.LTE_conductor_node.
    destruct (enable_Tl _);
      repeat first [ apply weigh_zero | apply zero_vector_insert; [|done] ]; done.
  - unfold EBM3Solver.LTE_conductor_node.
    destruct (enable_Tl _);
      repeat first [ apply weigh_zero | apply zero_vector_insert; [|done] ]; done.
  - unfold EBM3Solver.LTE_conductor_node.
    destruct (enable_Tl _);
      repeat first [ apply weigh_zero | apply zero_vector_insert; [|done] ]; done.
Qed.

(** The counter [N] before the global reduction. *)
Lemma LTE_region_count xx (l : list SimulationRegion) :
  forall st st',
    foldM (EBM3Solver.LTE_region spec xx) st l = Ok st' ->
    st'.1 = foldl EBM3Solver.count_unknowns st.1
              (filter (fun region => SimulationRegionType_eqb (type region) VacuumRegion = false) l).
Proof.
  induction l as [|region l IH]; intros st st' Hrun; simpl in Hrun.
  - by injection Hrun as <-.
  - destruct (EBM3Solver.LTE_region spec xx st region) as [st1|] eqn:Hreg;
      simpl in Hrun; [|done].
    rewrite (IH _ _ Hrun). unfold EBM3Solver.LTE_region in Hreg.
    rewrite filter_cons.
    destruct (type region); try done; injection Hreg as <-; by simpl.
Qed.

(** The loop over the regions completes when every region type is one the
    switch handles. *)
Lemma LTE_region_completes xx (l : list SimulationRegion) :
  Forall (fun region => type region <> PMLRegion) l ->
  forall st, exists st', foldM (EBM3Solver.LTE_region spec xx) st l = Ok st'.
Proof.
  induction 1 as [|region l Htype _ IH]; intros st; simpl; [by eexists |].
  unfold EBM3Solver.LTE_region at 1.
  destruct (type region); try done; simpl; apply IH.
Qed.

(** What [LTE_norm] returns, by the sign of [N]. *)
Lemma LTE_norm_cases others x x_n x_n1 x_n2 xp LTE :
  Forall (fun region => type region <> PMLRegion) (regions _system) ->
  let N := EBM3Solver.LTE_count _system others in
  ((N <= 0)%Z ->
   EBM3Solver.LTE_norm spec _system is_last_processor others x x_n x_n1 x_n2 xp LTE = Ok 1) /\
  ((0 < N)%Z -> EBM3Solver.predictor spec xp x_n x_n1 x_n2 = x ->
   EBM3Solver.LTE_norm spec _system is_last_processor others x x_n x_n1 x_n2 xp LTE = Ok 0).
Proof.
  intros Htypes N. unfold EBM3Solver.LTE_norm.
  set (LTE0 := EBM3Solver.LTE_vector spec LTE x _).
  destruct (LTE_region_completes x _ Htypes (0%Z, LTE0)) as [st Hst].
  rewrite Hst. simpl.
  assert (HN : EBM3Solver.Parallel_sum others st.1 = N).
  { unfold N, EBM3Solver.LTE_count. by rewrite (LTE_region_count _ _ _ _ Hst). }
  rewrite HN. split.
  - intros Hle. by rewrite (proj2 (Z.ltb_ge 0 N) Hle).
  - intros Hlt Hpred. rewrite (proj2 (Z.ltb_lt 0 N) Hlt). f_equal.
    rewrite zero_vector_norm; [unfold Rdiv; ring |].
    assert (Hz : zero_vector st.2).
    { revert Hst. apply (foldM_invariant _ (fun s => zero_vector s.2)).
      - intros s1 region s2 _. intros Hs1 Hstep. eapply LTE_region_zero; eauto.
      - simpl. unfold LTE0. rewrite Hpred. apply LTE_vector_zero. }
    destruct is_last_processor; [|done].
    apply (foldl_invariant _ zero_vector); [|done].
    intros ll [i|] _ Hll; simpl; [by apply zero_vector_insert | done].
Qed.

End LTE.

Lemma constant_predictor (a : R) :
  EBM3Solver.predictor steady_state [0; 0; 0; 0; 0; 0] (replicate 6 a) (replicate 6 a) []
  = replicate 6 a.
Proof.
  unfold EBM3Solver.predictor, VecAXPY. cbn. repeat f_equal; lra.
Qed.

(** C8, as stated, fails when no unknown carries an error: an insulator
    solved for its potential only contributes [(1-1)*1 = 0] to [N], and
    [LTE_norm] then returns 1.0 although the predictor equals the
    corrector. *)
Lemma LTE_of_exact_prediction_not_zero :
  EBM3Solver.predictor steady_state [0] [5] [5] [] = [5] /\
  EBM3Solver.LTE_norm steady_state insulator_system true [] [5] [5] [5] [] [0] [0]
  = Ok 1 /\
  Ok 1 <> Ok 0.
Proof.
  split; [|split].
  - unfold EBM3Solver.predictor, VecAXPY. cbn. f_equal. lra.
  - apply LTE_norm_cases; [|by vm_compute].
    repeat constructor. done.
  - intros H. injection H as H. lra.
Qed.

(** C8 (amended).  If the predictor built by extrapolation equals the
    corrector solution, and the number N of error-carrying unknowns is
    positive, [LTE_norm] returns exactly 0 (no region being of a type its
    switch rejects).  What the step controller does with the value is not
    part of [LTE_norm]. *)
Theorem LTE_of_exact_prediction (spec : SolverSpecify) (_system : SimulationSystem)
    (is_last_processor : bool) (others : list Z) (x x_n x_n1 x_n2 xp LTE : list R) :
  Forall (fun region => type region <> PMLRegion) (regions _system) ->
  EBM3Solver.predictor spec xp x_n x_n1 x_n2 = x ->
  (0 < EBM3Solver.LTE_count _system others)%Z ->
  EBM3Solver.LTE_norm spec _system is_last_processor others x x_n x_n1 x_n2 xp LTE = Ok 0.
Proof.
  intros Htypes Hpred HN.
  by apply (LTE_norm_cases spec _system is_last_processor others x x_n x_n1 x_n2 xp LTE Htypes).
Qed.

Lemma LTE_of_exact_prediction_witness :
  EBM3Solver.LTE_norm steady_state (one_region_system plain_model) true []
    (replicate 6 5) (replicate 6 5) (replicate 6 5) []
    [0; 0; 0; 0; 0; 0] [0; 0; 0; 0; 0; 0]
  = Ok 0.
Proof.
  apply LTE_of_exact_prediction.
  - repeat constructor. done.
  - apply constant_predictor.
  - by vm_compute.
Defined.

(** C10.  If, after the global reduction, the count N of error-carrying
    unknowns is zero, [LTE_norm] returns exactly 1.0. *)
Theorem LTE_without_unknowns (spec : SolverSpecify) (_system : SimulationSystem)
    (is_last_processor : bool) (others : list Z) (x x_n x_n1 x_n2 xp LTE : list R) :
  Forall (fun region => type region <> PMLRegion) (regions _system) ->
  EBM3Solver.LTE_count _system others = 0%Z ->
  EBM3Solver.LTE_norm spec _system is_last_processor others x x_n x_n1 x_n2 xp LTE = Ok 1.
Proof.
  intros Htypes HN.
  apply (LTE_norm_cases spec _system is_last_processor others x x_n x_n1 x_n2 xp LTE Htypes).
  rewrite HN. lia.
Qed.

Lemma LTE_without_unknowns_witness :
  EBM3Solver.LTE_norm steady_state insulator_system true [] [7] [5] [4] [] [0] [0] = Ok 1.
Proof.
  apply LTE_without_unknowns.
  - repeat constructor. done.
  - by vm_compute.
Defined.

(** ** Potential damping (C5) *)

Lemma dV_scan_app (yy : list R) (m : R) (l1 l2 : list nat) :
  dV_scan yy m (l1 ++ l2) = dV_scan yy (dV_scan yy m l1) l2.
Proof. apply foldl_app. Qed.

(** The running maximum is a maximum. *)
Lemma dV_scan_max (yy : list R) (indices : list nat) :
  forall m,
    m <= dV_scan yy m indices /\
    (forall i, i ∈ indices -> Rabs (VecGetValue yy i) <= dV_scan yy m indices) /\
    (dV_scan yy m indices = m \/
     exists i, i ∈ indices /\ dV_scan yy m indices = Rabs (VecGetValue yy i)).
Proof.
  induction indices as [|i indices IH]; intros m.
  - simpl. split; [lra |]. split; [|by left]. intros i Hi. by apply elem_of_nil in Hi.
  - unfold dV_scan in *. simpl.
    set (m1 := if Rgt_dec _ m then _ else m).
    assert (Hm1 : m <= m1 /\ Rabs (VecGetValue yy i) <= m1
                  /\ (m1 = m \/ m1 = Rabs (VecGetValue yy i))).
    { unfold m1. destruct (Rgt_dec _ _); lra. }
    destruct (IH m1) as (Hle & Hall & Hwit). split; [lra |]. split.
    + intros j Hj. apply elem_of_cons in Hj as [->|Hj]; [lra | by apply Hall].
    + destruct Hwit as [Heq|(j & Hj & Heq)].
      * rewrite Heq. destruct Hm1 as (_ & _ & [->| ->]); [by left |].
        right. exists i. split; [by left | done].
      * right. exists j. split; [by right | done].
Qed.

Lemma Parallel_max_max (others : list R) (mine : R) :
  mine <= EBM3Solver.Parallel_max others mine /\
  (forall o, o ∈ others -> o <= EBM3Solver.Parallel_max others mine) /\
  (EBM3Solver.Parallel_max others mine = mine \/
   EBM3Solver.Parallel_max others mine ∈ others).
Proof.
  unfold EBM3Solver.Parallel_max. induction others as [|o others IH]; simpl.
  - split; [lra |]. split; [|by left]. intros o Ho. by apply elem_of_nil in Ho.
  - destruct IH as (Hle & Hall & Hwit). split; [|split].
    + eapply Rle_trans; [apply Hle | apply Rmax_r].
    + intros o' Ho'. apply elem_of_cons in Ho' as [->|Ho']; [apply Rmax_l |].
      eapply Rle_trans; [by apply Hall | apply Rmax_r].
    + unfold Rmax at 1 3. destruct (Rle_dec _ _).
      * destruct Hwit as [->|Hin]; [by left | right; by right].
      * right. by left.
Qed.

(** Writing the damped value at a batch of indices. *)
Lemma length_damp_fold f xx yy (indices : list nat) :
  forall ww, length (foldl (EBM3Solver.damp_at f xx yy) ww indices) = length ww.
Proof.
  induction indices as [|i indices IH]; intros ww; simpl; [done |].
  rewrite IH. apply length_insert.
Qed.

Lemma damp_fold_target f xx yy (indices : list nat) :
  forall ww i,
    i ∈ indices \/ VecGetValue ww i = VecGetValue xx i - f * VecGetValue yy i ->
    (i < length ww)%nat ->
    VecGetValue (foldl (EBM3Solver.damp_at f xx yy) ww indices) i
    = VecGetValue xx i - f * VecGetValue yy i.
Proof.
  induction indices as [|j indices IH]; intros ww i Hi Hlen; simpl.
  - destruct Hi as [Hi|Hi]; [by apply elem_of_nil in Hi | done].
  - apply IH; [|unfold EBM3Solver.damp_at; by rewrite length_insert].
    unfold EBM3Solver.damp_at. destruct (decide (j = i)) as [->|Hne].
    + right. by rewrite VecGetValue_insert_eq.
    + destruct Hi as [Hi|Hi].
      * apply elem_of_cons in Hi as [->|Hi]; [done | by left].
      * right. by rewrite VecGetValue_insert_ne.
Qed.

Lemma damp_fold_in f xx yy (indices : list nat) (ww : list R) (i : nat) :
  i ∈ indices -> (i < length ww)%nat ->
  VecGetValue (foldl (EBM3Solver.damp_at f xx yy) ww indices) i
  = VecGetValue xx i - f * VecGetValue yy i.
Proof. intros Hi. apply damp_fold_target. by left. Qed.

Lemma damp_fold_notin f xx yy (indices : list nat) :
  forall ww i,
    i ∉ indices ->
    VecGetValue (foldl (EBM3Solver.damp_at f xx yy) ww indices) i = VecGetValue ww i.
Proof.
  induction indices as [|j indices IH]; intros ww i Hi; simpl; [done |].
  apply not_elem_of_cons in Hi as [Hne Hi]. rewrite IH by done.
  unfold EBM3Solver.damp_at. by apply VecGetValue_insert_ne.
Qed.

Section Damping.

Variables (kb e cm K : R).
Variable spec : SolverSpecify.
Variable _system : SimulationSystem.
Variable is_last_processor : bool.

Lemma clamp_below_frame (a : list R) (i j : nat) (floor : R) :
  i <> j -> VecGetValue (EBM3Solver.clamp_below a i floor) j = VecGetValue a j.
Proof.
  intros Hne. unfold EBM3Solver.clamp_below. destruct (Rlt_dec _ _); [|done].
  by apply VecGetValue_insert_ne.
Qed.

Lemma limit_carrier_temperature_frame (old a : list R) (ci ti j : nat) :
  ti <> j ->
  VecGetValue (EBM3Solver.limit_carrier_temperature _system old a ci ti) j
  = VecGetValue a j.
Proof. intros Hne. by apply VecGetValue_insert_ne. Qed.

(** The limits of a node write nowhere but at its limited unknowns. *)
Lemma limit_node_frame region old a fvm_node j :
  j ∉ node_limited_unknowns region fvm_node ->
  VecGetValue (EBM3Solver.limit_node cm K _system region old a fvm_node) j
  = VecGetValue a j.
Proof.
  unfold node_limited_unknowns, EBM3Solver.limit_node. intros Hj.
  repeat (apply not_elem_of_cons in Hj as [? Hj]).
  destruct (enable_Tl _), (enable_Tn _), (enable_Tp _);
    rewrite ?limit_carrier_temperature_frame, ?clamp_below_frame by done; done.
Qed.

(** The scan of [potential_damping]: its running maximum and what it leaves
    alone. *)
Lemma damping_scan_nodes region xx yy (nodes : list FVM_Node) :
  forall st,
    let st' := foldl (EBM3Solver.damping_scan_node cm K _system region xx yy) st nodes in
    st'.1 = dV_scan yy st.1
              (map (fun fvm_node =>
                      (local_offset fvm_node + ebm_variable_offset region POTENTIAL)%nat) nodes)
    /\ (forall j, j ∉ flat_map (node_limited_unknowns region) nodes ->
                  VecGetValue st'.2 j = VecGetValue st.2 j).
Proof.
  induction nodes as [|nd nodes IH]; intros st; cbn [foldl flat_map map]; [done |].
  destruct (IH (EBM3Solver.damping_scan_node cm K _system region xx yy st nd))
    as [Hmax Hframe].
  split; [by rewrite Hmax |].
  intros j Hj. apply not_elem_of_app in Hj as [Hj1 Hj2].
  rewrite Hframe by done. by apply limit_node_frame.
Qed.

Lemma damping_scan_regions xx yy (l : list SimulationRegion) :
  forall st,
    let st' := foldl (EBM3Solver.damping_scan_region cm K _system xx yy) st l in
    st'.1 = dV_scan yy st.1 (semiconductor_potentials l)
    /\ (forall j, j ∉ limited_unknowns l -> VecGetValue st'.2 j = VecGetValue st.2 j).
Proof.
  unfold semiconductor_potentials, limited_unknowns.
  induction l as [|region l IH]; intros st; cbn [foldl flat_map]; [done |].
  destruct (IH (EBM3Solver.damping_scan_region cm K _system xx yy st region))
    as [Hmax Hframe].
  split.
  - rewrite Hmax, dV_scan_app. f_equal.
    unfold EBM3Solver.damping_scan_region.
    destruct (type region); try done. apply damping_scan_nodes.
  - intros j Hj. apply not_elem_of_app in Hj as [Hj1 Hj2].
    rewrite Hframe by done. unfold EBM3Solver.damping_scan_region.
    destruct (type region); try done. by apply damping_scan_nodes.
Qed.

Lemma length_limit_node region old a fvm_node :
  length (EBM3Solver.limit_node cm K _system region old a fvm_node) = length a.
Proof.
  unfold EBM3Solver.limit_node, EBM3Solver.limit_carrier_temperature.
  destruct (enable_Tl _), (enable_Tn _), (enable_Tp _);
    by rewrite ?length_insert, ?length_clamp_below.
Qed.

Lemma length_damping_scan xx yy (l : list SimulationRegion) (st : R * list R) :
  length (foldl (EBM3Solver.damping_scan_region cm K _system xx yy) st l).2
  = length st.2.
Proof.
  apply (foldl_invariant _ (fun s => length s.2 = length st.2)); [|done].
  intros s region _ Hs. unfold EBM3Solver.damping_scan_region.
  destruct (type region); try done.
  apply (foldl_invariant _ (fun s => length s.2 = length st.2)); [|done].
  intros s' nd _ Hs'. simpl. by rewrite length_limit_node.
Qed.

(** The damping loop writes the damped value at the potentials of the
    semiconductor regions. *)
Lemma damp_regions f xx yy (l : list SimulationRegion) :
  forall ww,
    foldl (EBM3Solver.damp_region f xx yy) ww l
    = foldl (EBM3Solver.damp_at f xx yy) ww (semiconductor_potentials l).
Proof.
  unfold semiconductor_potentials.
  induction l as [|region l IH]; intros ww; cbn [foldl flat_map]; [done |].
  rewrite foldl_app, IH. f_equal. unfold EBM3Solver.damp_region.
  destruct (type region); try done.
  generalize ww. induction (on_processor_nodes region) as [|nd nodes IHn]; intros w;
    simpl; [done |]. by rewrite IHn.
Qed.

Lemma damp_bcs f xx yy (l : list (option nat)) :
  forall ww,
    foldl (EBM3Solver.damp_bc f xx yy) ww l
    = foldl (EBM3Solver.damp_at f xx yy) ww
        (omap (fun array_offset : option nat => array_offset) l).
Proof.
  induction l as [|[i|] l IH]; intros ww; simpl; [done | by rewrite IH | by rewrite IH].
Qed.

(** The global maximum potential update is the maximum over the potential
    unknowns of the semiconductor regions and over the other ranks. *)
Lemma dV_max_global_max others xx yy ww :
  let dV := EBM3Solver.dV_max_global cm K _system others xx yy ww in
  (forall i, i ∈ semiconductor_potentials (regions _system) ->
             Rabs (VecGetValue yy i) <= dV) /\
  (forall o, o ∈ others -> o <= dV) /\
  (dV = 0 \/ dV ∈ others \/
   (exists i, i ∈ semiconductor_potentials (regions _system) /\
              dV = Rabs (VecGetValue yy i))).
Proof.
  intros dV. unfold dV, EBM3Solver.dV_max_global.
  destruct (damping_scan_regions xx yy (regions _system) (0, ww)) as [-> _]. simpl.
  set (local := dV_scan yy 0 _).
  destruct (dV_scan_max yy (semiconductor_potentials (regions _system)) 0)
    as (_ & Hall & Hwit). fold local in Hall, Hwit.
  destruct (Parallel_max_max others local) as (Hle & Hothers & Hpm).
  split; [|split; [done |]].
  - intros i Hi. eapply Rle_trans; [by apply Hall | done].
  - destruct Hpm as [->|Hin]; [|by right; left].
    destruct Hwit as [->|Hw]; [by left | by right; right].
Qed.

(** Above the threshold, the potentials of the semiconductor regions and the
    unknowns of the boundary conditions end as [x - f*y]. *)
Lemma potential_damping_damped others xx yy ww i :
  let dV := EBM3Solver.dV_max_global cm K _system others xx yy ww in
  let f := EBM3Solver.damping_factor kb e spec _system dV in
  dV > 1e-6 ->
  i ∈ semiconductor_potentials (regions _system)
  \/ (is_last_processor = true /\ i ∈ boundary_unknowns _system) ->
  (i < length ww)%nat ->
  VecGetValue
    (EBM3Solver.potential_damping kb e cm K spec _system is_last_processor
       others xx yy ww).1.1 i
  = VecGetValue xx i - f * VecGetValue yy i.
Proof.
  intros dV f Hbig Hi Hlen. unfold EBM3Solver.potential_damping. simpl.
  fold (EBM3Solver.dV_max_global cm K _system others xx yy ww). fold dV.
  destruct (Rgt_dec dV 1e-6); [|done]. fold f.
  rewrite damp_regions.
  set (w1 := foldl (EBM3Solver.damp_at f xx yy) _ (semiconductor_potentials _)).
  assert (Hlen1 : length w1 = length ww).
  { unfold w1. by rewrite length_damp_fold, length_damping_scan. }
  assert (Hsemi : i ∈ semiconductor_potentials (regions _system) ->
                  VecGetValue w1 i = VecGetValue xx i - f * VecGetValue yy i).
  { intros Hin. unfold w1. apply damp_fold_in; [done |].
    by rewrite length_damping_scan. }
  destruct is_last_processor.
  - rewrite damp_bcs. apply damp_fold_target; [|lia].
    destruct Hi as [Hin|[_ Hin]]; [right; by apply Hsemi | by left].
  - destruct Hi as [Hin|[? _]]; [by apply Hsemi | done].
Qed.

(** What is neither limited nor damped keeps its value. *)
Lemma potential_damping_frame others xx yy ww i :
  let dV := EBM3Solver.dV_max_global cm K _system others xx yy ww in
  i ∉ limited_unknowns (regions _system) ->
  (~ dV > 1e-6)
  \/ ((i ∉ semiconductor_potentials (regions _system))
      /\ (is_last_processor = false \/ i ∉ boundary_unknowns _system)) ->
  VecGetValue
    (EBM3Solver.potential_damping kb e cm K spec _system is_last_processor
       others xx yy ww).1.1 i
  = VecGetValue ww i.
Proof.
  intros dV Hlim Hi. unfold EBM3Solver.potential_damping. simpl.
  fold (EBM3Solver.dV_max_global cm K _system others xx yy ww). fold dV.
  destruct (damping_scan_regions xx yy (regions _system) (0, ww)) as [_ Hframe].
  simpl in Hframe.
  destruct (Rgt_dec dV 1e-6) as [Hbig|Hsmall]; [|by apply Hframe].
  destruct Hi as [Hi|[Hsemi Hbc]]; [done |].
  rewrite damp_regions.
  destruct is_last_processor.
  - destruct Hbc as [?|Hbc]; [done |].
    rewrite damp_bcs, !damp_fold_notin by done. by apply Hframe.
  - rewrite damp_fold_notin by done. by apply Hframe.
Qed.

End Damping.

Lemma ln_one_plus_lt (t : R) : 0 < t -> ln (1 + t) / t < 1.
Proof.
  intros Ht.
  assert (Hln : ln (1 + t) < t).
  { rewrite <- (ln_exp t) at 2. apply ln_increasing; [lra |].
    apply exp_ineq1. lra. }
  apply (Rmult_lt_reg_r t); [done |]. unfold Rdiv.
  rewrite Rmult_assoc, Rinv_l by lra. lra.
Qed.

(** C5, as stated, fails where a region other than a semiconductor carries
    a potential: the potential of the insulator control volume (index 6) is
    neither scanned nor damped; the candidate keeps [x - y = -1] there, while
    [x - f*y = -f] with [f < 1]. *)
Lemma insulator_potential_not_damped :
  let xx := [0; 1; 1; 0; 0; 0; 0] in
  let yy := [1; 0; 0; 0; 0; 0; 1] in
  let ww := [-1; 1; 1; 0; 0; 0; -1] in
  let ww' := (EBM3Solver.potential_damping 1 1 1 1 steady_state two_region_system true
                [] xx yy ww).1.1 in
  let Vut := 1 * 300 / 1 * 1 in
  let dV := 1 in
  let f := ln (1 + dV / Vut) / (dV / Vut) in
  6%nat ∈ all_potentials (regions two_region_system) /\
  Rabs (VecGetValue yy 0) = dV /\ Rabs (VecGetValue yy 6) = dV /\
  VecGetValue ww' 6 <> VecGetValue xx 6 - f * VecGetValue yy 6.
Proof.
  intros xx yy ww ww' Vut dV f.
  split; [apply list_elem_of_In; simpl; auto |].
  split; [apply Rabs_R1 |]. split; [apply Rabs_R1 |].
  unfold ww'. rewrite potential_damping_frame.
  - cbn. assert (Hf : f < 1) by (apply ln_one_plus_lt; unfold dV, Vut; lra). lra.
  - intros Hin. apply list_elem_of_In in Hin. simpl in Hin. intuition lia.
  - right. split; [|right].
    + intros Hin. apply list_elem_of_In in Hin. simpl in Hin. intuition lia.
    + intros Hin. apply list_elem_of_In in Hin. simpl in Hin. done.
Qed.

(** C5 (amended).  [potential_damping] computes the global maximum [dV] of
    the potential updates over the potential unknowns of the semiconductor
    regions (on this rank and the others) and the factor
    [f = ln(1 + dV/Vt) / (dV/Vt)] with [Vt = kb*T/e * potential_update]; when
    [dV > 1e-6] it sets every potential unknown of a semiconductor region, and
    on the last rank every boundary-condition unknown, to [x - f*y]; the
    unknowns that are neither limited nor damped (among them the potentials
    of the other regions) keep their candidate value, and no potential is
    damped when [dV <= 1e-6]. *)
Theorem potential_damping_semiconductor (kb e cm K : R) (spec : SolverSpecify)
    (_system : SimulationSystem) (is_last_processor : bool) (others : list R)
    (xx yy ww : list R) :
  let dV := EBM3Solver.dV_max_global cm K _system others xx yy ww in
  let Vt := kb * T_external _system / e * potential_update spec in
  let f := ln (1 + dV / Vt) / (dV / Vt) in
  let ww' := (EBM3Solver.potential_damping kb e cm K spec _system is_last_processor
                others xx yy ww).1.1 in
  ((forall i, i ∈ semiconductor_potentials (regions _system) ->
              Rabs (VecGetValue yy i) <= dV) /\
   (forall o, o ∈ others -> o <= dV) /\
   (dV = 0 \/ dV ∈ others \/
    (exists i, i ∈ semiconductor_potentials (regions _system) /\
               dV = Rabs (VecGetValue yy i)))) /\
  (dV > 1e-6 ->
   forall i,
     i ∈ semiconductor_potentials (regions _system)
     \/ (is_last_processor = true /\ i ∈ boundary_unknowns _system) ->
     (i < length ww)%nat ->
     VecGetValue ww' i = VecGetValue xx i - f * VecGetValue yy i) /\
  (forall i,
     i ∉ limited_unknowns (regions _system) ->
     (~ dV > 1e-6)
     \/ ((i ∉ semiconductor_potentials (regions _system))
         /\ (is_last_processor = false \/ i ∉ boundary_unknowns _system)) ->
     VecGetValue ww' i = VecGetValue ww i).
Proof.
  intros dV Vt f ww'. split; [apply dV_max_global_max |]. split.
  - intros Hbig i Hi Hlen. by apply potential_damping_damped.
  - intros i Hlim Hi. by apply potential_damping_frame.
Qed.

Lemma potential_damping_semiconductor_witness :
  let xx := [0; 1; 1; 0; 0; 0; 0] in
  let yy := [1; 0; 0; 0; 0; 0; 1] in
  let ww := [-1; 1; 1; 0; 0; 0; -1] in
  let dV := EBM3Solver.dV_max_global 1 1 two_region_system [] xx yy ww in
  let f := ln (1 + dV / (1 * 300 / 1 * 1)) / (dV / (1 * 300 / 1 * 1)) in
  VecGetValue (EBM3Solver.potential_damping 1 1 1 1 steady_state two_region_system true
                 [] xx yy ww).1.1 0
  = 0 - f * 1.
Proof.
  intros xx yy ww dV f.
  destruct (potential_damping_semiconductor 1 1 1 1 steady_state two_region_system true
              [] xx yy ww) as ((Hmax & _ & _) & Hdamp & _).
  assert (H0 : 0%nat ∈ semiconductor_potentials (regions two_region_system))
    by (apply list_elem_of_In; simpl; auto).
  apply (Hdamp); [|by left | simpl; lia].
  specialize (Hmax 0%nat H0). change (VecGetValue yy 0) with 1 in Hmax.
  rewrite Rabs_R1 in Hmax. lra.
Defined.

(** ** Edge fluxes (C6) *)

Lemma sum_list_insert (f : list R) :
  forall (i : nat) (a : R),
    (i < length f)%nat -> sum_list (<[i := a]> f) = sum_list f - VecGetValue f i + a.
Proof.
  unfold sum_list. induction f as [|b f IH]; intros [|i] a Hi; simpl in *; try lia.
  - unfold VecGetValue. simpl. lra.
  - rewrite IH by lia. unfold VecGetValue. simpl. lra.
Qed.

(** Adding a batch of values to a vector adds their sum to its sum. *)
Lemma sum_list_VecSetValues_ADD (ix : list nat) :
  forall (y f : list R),
    length ix = length y -> (forall i, i ∈ ix -> (i < length f)%nat) ->
    sum_list (VecSetValues f ix y ADD_VALUES) = sum_list f + sum_list y.
Proof.
  induction ix as [|i ix IH]; intros [|a y] f Hlen Hin; simpl in *; try lia.
  - unfold sum_list. simpl. lra.
  - rewrite IH.
    + rewrite sum_list_insert by (apply Hin; by left). unfold sum_list. simpl. lra.
    + lia.
    + intros j Hj. rewrite length_insert. apply Hin. by right.
Qed.

Lemma sum_list_cons (a : R) (l : list R) : sum_list (a :: l) = a + sum_list l.
Proof. reflexivity. Qed.

Section EdgeFluxes.

Variables (kb e T : R) (nie : FVM_Node -> R -> R -> R -> R) (gamma_f : R -> R).
Variables (In_dd Ip_dd : R -> R -> R -> R -> R -> R).
Variables (Fermi_statistics highfield_mob : bool).
Variable highfield_mobility : Elem -> CellEdge -> list R -> R * R * R * R.
Variable VoronoiTruncation : VoronoiTruncationFlag.
Variable x : list R.
Variable edges : list Edge.
Variable elements : list Elem.

Import SemiconductorSimulationRegion.

Local Abbreviation edge_step :=
  (SemiconductorSimulationRegion.edge_step kb e T nie gamma_f In_dd Ip_dd Fermi_statistics x).
Local Abbreviation cell_edge_step :=
  (SemiconductorSimulationRegion.cell_edge_step highfield_mob highfield_mobility
     VoronoiTruncation x).
Local Abbreviation edge_current_n :=
  (SemiconductorSimulationRegion.edge_current_n kb e T nie gamma_f In_dd Fermi_statistics x).
Local Abbreviation edge_current_p :=
  (SemiconductorSimulationRegion.edge_current_p kb e T nie gamma_f Ip_dd Fermi_statistics x).
Local Abbreviation cell_edge_flux_values :=
  (SemiconductorSimulationRegion.cell_edge_flux_values kb e T nie gamma_f In_dd Ip_dd
     Fermi_statistics highfield_mob highfield_mobility VoronoiTruncation edges x).

(** The edge loop stores one pair of S-G currents per edge, whatever the
    processors of its ends. *)
Lemma edge_loop_currents (l : list Edge) :
  forall st,
    Jn_edge_buffer (foldl edge_step st l) = Jn_edge_buffer st ++ map edge_current_n l /\
    Jp_edge_buffer (foldl edge_step st l) = Jp_edge_buffer st ++ map edge_current_p l.
Proof.
  induction l as [|edge l IH]; intros st; simpl.
  - by rewrite !app_nil_r.
  - destruct (IH (edge_step st edge)) as [-> ->]. simpl.
    by rewrite <- !app_assoc.
Qed.

(** Its Poisson fluxes come in pairs [f, -f]. *)
Lemma edge_loop_fluxes (l : list Edge) :
  forall st,
    edges_on_processor l = true ->
    iy (foldl edge_step st l) = iy st ++ flat_map edge_flux_rows l /\
    y (foldl edge_step st l) = y st ++ flat_map (edge_flux_values x) l.
Proof.
  induction l as [|edge l IH]; intros st Hon; simpl.
  - by rewrite !app_nil_r.
  - simpl in Hon. apply andb_prop in Hon as [Hedge Hon].
    apply andb_prop in Hedge as [H1 H2].
    destruct (IH (edge_step st edge) Hon) as [-> ->].
    unfold SemiconductorSimulationRegion.edge_step. simpl. rewrite H1, H2.
    by rewrite <- !app_assoc.
Qed.

(** One edge of a cell: what is buffered is read from the stored currents
    of the edges of the region. *)
Lemma cell_edge_step_fluxes (st : EdgeBuffers) (elem : Elem) (ce : CellEdge) :
  Jn_edge_buffer st = map edge_current_n edges ->
  Jp_edge_buffer st = map edge_current_p edges ->
  on_processor (edge_fvm_n1 ce) = true -> on_processor (edge_fvm_n2 ce) = true ->
  Jn_edge_buffer (cell_edge_step elem st ce) = Jn_edge_buffer st /\
  Jp_edge_buffer (cell_edge_step elem st ce) = Jp_edge_buffer st /\
  iy (cell_edge_step elem st ce) = iy st ++ cell_edge_flux_rows ce /\
  y (cell_edge_step elem st ce) = y st ++ cell_edge_flux_values elem ce.
Proof.
  intros Hn Hp H1 H2.
  unfold SemiconductorSimulationRegion.cell_edge_step,
    SemiconductorSimulationRegion.cell_edge_flux_values,
    SemiconductorSimulationRegion.cell_edge_flux_rows, cell_edge_currents.
  cbn [iy y Jn_edge_buffer Jp_edge_buffer fst snd]. rewrite H1, H2, Hn, Hp.
  split; [done |]. split; [done |]. rewrite <- !app_assoc. split; [done |].
  f_equal. cbn [app].
  destruct (Nat.ltb _ _);
    repeat (apply (f_equal2 (@cons R)); [ring |]); done.
Qed.

(** The loop over the edges of one cell. *)
Lemma cell_edge_loop (elem : Elem) (l : list CellEdge) :
  forall st,
    Jn_edge_buffer st = map edge_current_n edges ->
    Jp_edge_buffer st = map edge_current_p edges ->
    cell_edges_on_processor l = true ->
    let st' := foldl (cell_edge_step elem) st l in
    Jn_edge_buffer st' = map edge_current_n edges /\
    Jp_edge_buffer st' = map edge_current_p edges /\
    iy st' = iy st ++ flat_map cell_edge_flux_rows l /\
    y st' = y st ++ flat_map (cell_edge_flux_values elem) l.
Proof.
  induction l as [|ce l IH]; intros st Hn Hp Hon; cbn [foldl flat_map].
  - by rewrite !app_nil_r.
  - simpl in Hon. apply andb_prop in Hon as [Hce Hon].
    apply andb_prop in Hce as [H1 H2].
    destruct (cell_edge_step_fluxes st elem ce Hn Hp H1 H2) as (Hn0 & Hp0 & Hiy0 & Hy0).
    destruct (IH (cell_edge_step elem st ce)) as (Hn' & Hp' & Hiy & Hy);
      [by rewrite Hn0 | by rewrite Hp0 | done |].
    split; [done |]. split; [done |]. rewrite Hiy, Hy, Hiy0, Hy0.
    by rewrite <- !app_assoc.
Qed.

(** The loop over the cells. *)
Lemma cell_loop (l : list Elem) :
  forall st,
    Jn_edge_buffer st = map edge_current_n edges ->
    Jp_edge_buffer st = map edge_current_p edges ->
    forallb (fun elem => cell_edges_on_processor (elem_edges elem)) l = true ->
    let st' := foldl (fun st elem => foldl (cell_edge_step elem) st (elem_edges elem)) st l in
    Jn_edge_buffer st' = map edge_current_n edges /\
    Jp_edge_buffer st' = map edge_current_p edges /\
    iy st' = iy st ++ flat_map (fun elem => flat_map cell_edge_flux_rows (elem_edges elem)) l /\
    y st' = y st ++ flat_map (fun elem => flat_map (cell_edge_flux_values elem)
                                            (elem_edges elem)) l.
Proof.
  induction l as [|elem l IH]; intros st Hn Hp Hon; cbn [foldl flat_map].
  - by rewrite !app_nil_r.
  - simpl in Hon. apply andb_prop in Hon as [Helem Hon].
    destruct (cell_edge_loop elem (elem_edges elem) st Hn Hp Helem)
      as (Hn1 & Hp1 & Hiy1 & Hy1).
    destruct (IH _ Hn1 Hp1 Hon) as (Hn' & Hp' & Hiy & Hy).
    split; [done |]. split; [done |]. rewrite Hiy, Hy, Hiy1, Hy1.
    by rewrite <- !app_assoc.
Qed.

(** Each pair of contributions cancels. *)
Lemma edge_flux_values_sum (l : list Edge) :
  sum_list (flat_map (edge_flux_values x) l) = 0.
Proof.
  induction l as [|edge l IH]; cbn [flat_map]; [done |].
  rewrite sum_list_app, IH.
  unfold SemiconductorSimulationRegion.edge_flux_values. rewrite !sum_list_cons.
  unfold sum_list. simpl. lra.
Qed.

Lemma cell_edge_flux_values_sum (l : list Elem) :
  sum_list (flat_map (fun elem => flat_map (cell_edge_flux_values elem)
                                    (elem_edges elem)) l) = 0.
Proof.
  induction l as [|elem l IH]; cbn [flat_map]; [done |].
  rewrite sum_list_app, IH, Rplus_0_r.
  induction (elem_edges elem) as [|ce ces IHces]; cbn [flat_map]; [done |].
  rewrite sum_list_app, IHces.
  unfold SemiconductorSimulationRegion.cell_edge_flux_values. cbv zeta.
  rewrite !sum_list_cons. unfold sum_list. simpl. lra.
Qed.

Local Abbreviation DDM1_Function_fluxes :=
  (SemiconductorSimulationRegion.DDM1_Function_fluxes kb e T nie gamma_f In_dd Ip_dd
     Fermi_statistics highfield_mob highfield_mobility VoronoiTruncation edges elements x).

(** The buffers [DDM1_Function] fills on a mesh without ghost nodes. *)
Lemma DDM1_Function_fluxes_closed_form :
  closed_mesh edges elements = true ->
  let st := DDM1_Function_fluxes in
  Jn_edge_buffer st = map edge_current_n edges /\
  Jp_edge_buffer st = map edge_current_p edges /\
  iy st = flat_map edge_flux_rows edges
          ++ flat_map (fun elem => flat_map cell_edge_flux_rows (elem_edges elem)) elements /\
  y st = flat_map (edge_flux_values x) edges
         ++ flat_map (fun elem => flat_map (cell_edge_flux_values elem)
                                    (elem_edges elem)) elements.
Proof.
  intros Hclosed. apply andb_prop in Hclosed as [Hedges Hcells].
  unfold SemiconductorSimulationRegion.DDM1_Function_fluxes.
  set (st1 := foldl edge_step no_buffers edges).
  destruct (edge_loop_currents edges no_buffers) as [Hn1 Hp1].
  destruct (edge_loop_fluxes edges no_buffers Hedges) as [Hiy1 Hy1].
  fold st1 in Hn1, Hp1, Hiy1, Hy1. simpl in Hn1, Hp1, Hiy1, Hy1.
  destruct (cell_loop elements st1 Hn1 Hp1 Hcells) as (Hn & Hp & Hiy & Hy).
  simpl. by rewrite Hn, Hp, Hiy, Hy, Hiy1, Hy1.
Qed.

(** On such a mesh the buffered fluxes sum to zero; adding them changes
    every row by what is buffered for it and leaves the sum of the residual
    as it was. *)
Lemma DDM1_Function_fluxes_conserved :
  closed_mesh edges elements = true ->
  let st := DDM1_Function_fluxes in
  length (iy st) = length (y st) /\
  sum_list (y st) = 0 /\
  forall f,
    (forall i, i ∈ iy st -> (i < length f)%nat) ->
    (forall i, (i < length f)%nat ->
       VecGetValue (SemiconductorSimulationRegion.DDM1_Function_add_fluxes kb e T nie gamma_f
                      In_dd Ip_dd Fermi_statistics highfield_mob highfield_mobility
                      VoronoiTruncation edges elements x f) i
       = VecGetValue f i + added_into (iy st) (y st) i) /\
    sum_list (SemiconductorSimulationRegion.DDM1_Function_add_fluxes kb e T nie gamma_f
                In_dd Ip_dd Fermi_statistics highfield_mob highfield_mobility
                VoronoiTruncation edges elements x f) = sum_list f.
Proof.
  intros Hclosed st.
  destruct (DDM1_Function_fluxes_closed_form Hclosed) as (_ & _ & Hiy & Hy).
  fold st in Hiy, Hy.
  assert (Hlen : length (iy st) = length (y st)).
  { rewrite Hiy, Hy, !length_app. f_equal.
    - clear. induction edges as [|edge l IH]; simpl; [done | by rewrite IH].
    - clear. induction elements as [|elem l IH]; simpl; [done |].
      rewrite !length_app, IH. f_equal.
      induction (elem_edges elem) as [|ce ces IHces]; simpl; [done | by rewrite IHces]. }
  assert (Hsum : sum_list (y st) = 0).
  { rewrite Hy, sum_list_app, edge_flux_values_sum, cell_edge_flux_values_sum. lra. }
  split; [done |]. split; [done |]. intros f Hrows.
  unfold SemiconductorSimulationRegion.DDM1_Function_add_fluxes. fold st. split.
  - intros i Hi. case_bool_decide as Hnil.
    + rewrite Hnil. simpl. lra.
    + by apply VecSetValues_ADD_get.
  - case_bool_decide; [done |].
    rewrite sum_list_VecSetValues_ADD by done. rewrite Hsum. lra.
Qed.

End EdgeFluxes.

(** The same on a closed loop of four nodes. *)
Example four_node_loop_conserved (In_dd Ip_dd : R -> R -> R -> R -> R -> R) (x : list R) :
  sum_list (SemiconductorSimulationRegion.y
              (SemiconductorSimulationRegion.DDM1_Function_fluxes 1 1 300
                 (fun _ _ _ _ => 1) (fun a => a) In_dd Ip_dd false false
                 (fun _ _ _ => (1, 1, 1, 1)) VoronoiTruncationOff
                 four_node_loop [four_node_cell] x)) = 0.
Proof. by apply DDM1_Function_fluxes_conserved. Qed.

(** C6.  On a mesh none of whose edges ends in a ghost node, the edge part
    of [DDM1_Function] computes the Scharfetter-Gummel electron and hole
    currents once per edge and stores them.  For every edge it buffers the
    Poisson flux [f] for the row of the first end and [-f] for the row of
    the second end; for every edge of every cell it buffers the continuity
    fluxes [Jn*A], [-Jp*A] for the electron and hole rows of the first end
    and [-Jn*A], [Jp*A] for those of the second end, [Jn] and [Jp] being
    the stored currents of that edge, oriented and times the mobility.
    Adding the buffers changes every row of the residual by exactly the sum
    of the fluxes buffered for it.  Hence the Poisson fluxes, the continuity
    fluxes and all fluxes together sum to zero, and the sum of the entries
    of the residual is unchanged. *)
Theorem edge_fluxes_conserved (kb e T : R) (nie : FVM_Node -> R -> R -> R -> R)
    (gamma_f : R -> R) (In_dd Ip_dd : R -> R -> R -> R -> R -> R)
    (Fermi_statistics highfield_mob : bool)
    (highfield_mobility : Elem -> CellEdge -> list R -> R * R * R * R)
    (VoronoiTruncation : VoronoiTruncationFlag)
    (edges : list Edge) (elements : list Elem) (x : list R) :
  SemiconductorSimulationRegion.closed_mesh edges elements = true ->
  let st := SemiconductorSimulationRegion.DDM1_Function_fluxes kb e T nie gamma_f In_dd Ip_dd
              Fermi_statistics highfield_mob highfield_mobility VoronoiTruncation
              edges elements x in
  let poisson_rows := flat_map SemiconductorSimulationRegion.edge_flux_rows edges in
  let poisson := flat_map (SemiconductorSimulationRegion.edge_flux_values x) edges in
  let continuity_rows :=
    flat_map (fun elem => flat_map SemiconductorSimulationRegion.cell_edge_flux_rows
                            (elem_edges elem)) elements in
  let continuity :=
    flat_map (fun elem =>
                flat_map (SemiconductorSimulationRegion.cell_edge_flux_values kb e T nie
                            gamma_f In_dd Ip_dd Fermi_statistics highfield_mob
                            highfield_mobility VoronoiTruncation edges x elem)
                  (elem_edges elem)) elements in
  (SemiconductorSimulationRegion.Jn_edge_buffer st
   = map (SemiconductorSimulationRegion.edge_current_n kb e T nie gamma_f In_dd
            Fermi_statistics x) edges /\
   SemiconductorSimulationRegion.Jp_edge_buffer st
   = map (SemiconductorSimulationRegion.edge_current_p kb e T nie gamma_f Ip_dd
            Fermi_statistics x) edges) /\
  (SemiconductorSimulationRegion.iy st = poisson_rows ++ continuity_rows /\
   SemiconductorSimulationRegion.y st = poisson ++ continuity) /\
  (sum_list poisson = 0 /\ sum_list continuity = 0 /\
   sum_list (SemiconductorSimulationRegion.y st) = 0) /\
  (forall f,
     (forall i, i ∈ poisson_rows ++ continuity_rows -> (i < length f)%nat) ->
     (forall i, (i < length f)%nat ->
        VecGetValue (SemiconductorSimulationRegion.DDM1_Function_add_fluxes kb e T nie
                       gamma_f In_dd Ip_dd Fermi_statistics highfield_mob highfield_mobility
                       VoronoiTruncation edges elements x f) i
        = VecGetValue f i
          + added_into (poisson_rows ++ continuity_rows) (poisson ++ continuity) i) /\
     sum_list (SemiconductorSimulationRegion.DDM1_Function_add_fluxes kb e T nie gamma_f
                 In_dd Ip_dd Fermi_statistics highfield_mob highfield_mobility
                 VoronoiTruncation edges elements x f)
     = sum_list f).
Proof.
  intros Hclosed st poisson_rows poisson continuity_rows continuity.
  destruct (DDM1_Function_fluxes_closed_form kb e T nie gamma_f In_dd Ip_dd Fermi_statistics
              highfield_mob highfield_mobility VoronoiTruncation x edges elements Hclosed)
    as (Hn & Hp & Hiy & Hy).
  destruct (DDM1_Function_fluxes_conserved kb e T nie gamma_f In_dd Ip_dd Fermi_statistics
              highfield_mob highfield_mobility VoronoiTruncation x edges elements Hclosed)
    as (_ & Hsum & Hadd).
  fold st in Hn, Hp, Hiy, Hy, Hsum, Hadd.
  split; [by split |]. split; [by split |]. split.
  - split; [apply edge_flux_values_sum |]. split; [apply cell_edge_flux_values_sum | exact Hsum].
  - intros f Hrows. fold poisson_rows continuity_rows in Hiy. fold poisson continuity in Hy.
    rewrite <- Hiy, <- Hy. apply Hadd. by rewrite Hiy.
Qed.

Lemma edge_fluxes_conserved_witness :
  let In_dd := fun Vt dV n1 n2 length : R => Vt * (n2 - n1) / length in
  let Ip_dd := fun Vt dV p1 p2 length : R => Vt * (p1 - p2) / length in
  let x := [1; 2; 3; 0; 1; 1] in
  let f := [0; 0; 0; 0; 0; 0] in
  let f' := SemiconductorSimulationRegion.DDM1_Function_add_fluxes 1 1 300
              (fun _ _ _ _ => 1) (fun a => a) In_dd Ip_dd false false
              (fun _ _ _ => (1, 1, 1, 1)) VoronoiTruncationOff
              [two_node_edge] [two_node_cell] x f in
  SemiconductorSimulationRegion.closed_mesh [two_node_edge] [two_node_cell] = true /\
  (VecGetValue f' 0 = -1 /\ VecGetValue f' 3 = 1) /\
  (VecGetValue f' 1 = -300 /\ VecGetValue f' 4 = 300) /\
  (VecGetValue f' 2 = -600 /\ VecGetValue f' 5 = 600) /\
  sum_list f' = 0.
Proof.
  intros In_dd Ip_dd x f f'.
  destruct (edge_fluxes_conserved 1 1 300 (fun _ _ _ _ => 1) (fun a => a) In_dd Ip_dd
              false false (fun _ _ _ => (1, 1, 1, 1)) VoronoiTruncationOff
              [two_node_edge] [two_node_cell] x eq_refl)
    as (_ & _ & _ & Hadd).
  destruct (Hadd f) as [Hget Hsum].
  { intros i Hi. apply list_elem_of_In in Hi. simpl in Hi. simpl. lia. }
  fold f' in Hget, Hsum.
  split; [reflexivity |].
  assert (H6 : forall i, (i < 6)%nat -> (i < length f)%nat) by (intros; simpl; lia).
  assert (Hzero : sum_list f' = 0) by (rewrite Hsum; unfold f, sum_list; simpl; lra).
  rewrite !Hget by (apply H6; lia). clear Hget Hsum.
  split; [| split; [| split; [| exact Hzero]]];
    unfold f, SemiconductorSimulationRegion.edge_flux_values,
      SemiconductorSimulationRegion.cell_edge_flux_values,
      SemiconductorSimulationRegion.poisson_flux,
      SemiconductorSimulationRegion.edge_current_n,
      SemiconductorSimulationRegion.edge_current_p,
      SemiconductorSimulationRegion.band_edges,
      SemiconductorSimulationRegion.Vt, In_dd, Ip_dd, x, VecGetValue;
    simpl; split; lra.
Defined.

(** * Further properties of the code *)

(** ** Vectors in space *)

(** Lagrange's identity. *)
Lemma cross_size_sq (a p : TypeVector.t) :
  TypeVector.size_sq (TypeVector.cross a p)
  = TypeVector.size_sq a * TypeVector.size_sq p - TypeVector.dot a p * TypeVector.dot a p.
Proof.
  destruct a as [a0 a1 a2], p as [p0 p1 p2].
  unfold TypeVector.size_sq, TypeVector.dot, TypeVector.cross. simpl. ring.
Qed.

(** X1.  The cross product is orthogonal to its operands, changes sign when
    they are exchanged, vanishes for a vector with itself, and its squared
    length is the product of the squared lengths less the squared dot
    product. *)
Theorem cross_product_identities (a p : TypeVector.t) :
  TypeVector.dot (TypeVector.cross a p) a = 0 /\
  TypeVector.dot (TypeVector.cross a p) p = 0 /\
  TypeVector.cross p a = TypeVector.opp (TypeVector.cross a p) /\
  TypeVector.cross a a = TypeVector.zero /\
  TypeVector.size_sq (TypeVector.cross a p)
  = TypeVector.size_sq a * TypeVector.size_sq p - TypeVector.dot a p * TypeVector.dot a p.
Proof.
  split; [| split; [| split; [| split; [| apply cross_size_sq]]]];
    destruct a as [a0 a1 a2], p as [p0 p1 p2];
    unfold TypeVector.dot, TypeVector.cross, TypeVector.opp, TypeVector.zero; simpl;
    try ring; f_equal; ring.
Qed.

Lemma size_sq_nonneg (a : TypeVector.t) : 0 <= TypeVector.size_sq a.
Proof.
  destruct a as [a0 a1 a2]. unfold TypeVector.size_sq, TypeVector.dot. simpl. nra.
Qed.

Lemma size_sq_size (a : TypeVector.t) :
  TypeVector.size a * TypeVector.size a = TypeVector.size_sq a.
Proof. apply sqrt_sqrt, size_sq_nonneg. Qed.

Lemma size_nonneg (a : TypeVector.t) : 0 <= TypeVector.size a.
Proof. apply sqrt_pos. Qed.

(** X2.  The angle between two vectors of non-zero length does not depend
    on the order of the vectors and lies between 0 and pi.  It is the arc
    cosine of [cos_angle] brought back into the range from -1 to 1, which is
    what the two clamps of [angle] do, and it is a right angle for
    orthogonal vectors. *)
Theorem angle_symmetric_bounded (a p : TypeVector.t) :
  TypeVector.size a <> 0 -> TypeVector.size p <> 0 ->
  TypeVector.angle a p = TypeVector.angle p a /\
  0 <= TypeVector.angle a p <= PI /\
  TypeVector.angle a p = acos (Rmax (-1) (Rmin 1 (TypeVector.cos_angle a p))) /\
  (TypeVector.dot a p = 0 -> TypeVector.angle a p = PI / 2).
Proof.
  intros Ha Hp.
  assert (Hsym : TypeVector.angle a p = TypeVector.angle p a).
  { unfold TypeVector.angle. cbv zeta.
    replace (TypeVector.dot p a) with (TypeVector.dot a p)
      by (unfold TypeVector.dot; ring).
    by rewrite (Rmult_comm (TypeVector.size p)). }
  split; [done |]. split; [apply acos_bound |]. split.
  - unfold TypeVector.angle. cbv zeta. fold (TypeVector.cos_angle a p).
    unfold Rmax, Rmin.
    destruct (Rgt_dec (TypeVector.cos_angle a p) 1) as [H1 | H1];
      destruct (Rle_dec 1 (TypeVector.cos_angle a p)) as [H2 | H2];
      repeat (destruct (Rlt_dec _ _) || destruct (Rle_dec _ _));
      try lra; try done; f_equal; lra.
  - intros Hdot. unfold TypeVector.angle. cbv zeta. rewrite Hdot.
    replace (0 / (TypeVector.size a * TypeVector.size p)) with 0
      by (unfold Rdiv; ring).
    destruct (Rgt_dec 0 1) as [H1 | H1]; [lra |].
    destruct (Rlt_dec 0 (-1)) as [H2 | H2]; [lra |]. apply acos_0.
Qed.

Lemma angle_symmetric_bounded_witness :
  let a := TypeVector.mk 1 0 0 in
  let p := TypeVector.mk 0 1 0 in
  TypeVector.angle a p = TypeVector.angle p a /\ TypeVector.angle a p = PI / 2.
Proof.
  intros a p.
  assert (H1 : forall v, TypeVector.size_sq v = 1 -> TypeVector.size v <> 0).
  { intros v Hv. unfold TypeVector.size. rewrite Hv, sqrt_1. lra. }
  destruct (angle_symmetric_bounded a p) as (Hs & _ & _ & Hright).
  - apply H1. unfold TypeVector.size_sq, TypeVector.dot. simpl. lra.
  - apply H1. unfold TypeVector.size_sq, TypeVector.dot. simpl. lra.
  - split; [exact Hs |]. apply Hright. unfold TypeVector.dot. simpl. lra.
Defined.

Lemma absolute_fuzzy_equals_true (a rhs : TypeVector.t) (tol : R) :
  TypeVector.absolute_fuzzy_equals a rhs tol = true <->
  Rabs (TypeVector._coords0 a - TypeVector._coords0 rhs)
  + Rabs (TypeVector._coords1 a - TypeVector._coords1 rhs)
  + Rabs (TypeVector._coords2 a - TypeVector._coords2 rhs) <= tol.
Proof. unfold TypeVector.absolute_fuzzy_equals. by destruct (Rle_dec _ _). Qed.

(** X3.  Fuzzy equality is symmetric, and tolerances add up along a chain. *)
Theorem absolute_fuzzy_equals_chain (a b c : TypeVector.t) (tol1 tol2 : R) :
  TypeVector.absolute_fuzzy_equals a b tol1 = true ->
  TypeVector.absolute_fuzzy_equals b c tol2 = true ->
  TypeVector.absolute_fuzzy_equals b a tol1 = true /\
  TypeVector.absolute_fuzzy_equals a c (tol1 + tol2) = true.
Proof.
  rewrite !absolute_fuzzy_equals_true. intros H1 H2.
  destruct a as [a0 a1 a2], b as [b0 b1 b2], c as [c0 c1 c2]. simpl in *.
  split.
  - rewrite (Rabs_minus_sym b0), (Rabs_minus_sym b1), (Rabs_minus_sym b2). lra.
  - pose proof (Rabs_triang (a0 - b0) (b0 - c0)) as T0.
    pose proof (Rabs_triang (a1 - b1) (b1 - c1)) as T1.
    pose proof (Rabs_triang (a2 - b2) (b2 - c2)) as T2.
    replace (a0 - b0 + (b0 - c0)) with (a0 - c0) in T0 by ring.
    replace (a1 - b1 + (b1 - c1)) with (a1 - c1) in T1 by ring.
    replace (a2 - b2 + (b2 - c2)) with (a2 - c2) in T2 by ring.
    lra.
Qed.

Lemma absolute_fuzzy_equals_chain_witness :
  TypeVector.absolute_fuzzy_equals (TypeVector.mk 0 0 0) (TypeVector.mk 2 0 0) (1 + 1) = true.
Proof.
  apply (absolute_fuzzy_equals_chain (TypeVector.mk 0 0 0) (TypeVector.mk 1 0 0)
           (TypeVector.mk 2 0 0) 1 1).
  - apply absolute_fuzzy_equals_true. simpl.
    rewrite !Rminus_0_r, Rabs_R0. replace (0 - 1) with (- (1)) by ring.
    rewrite Rabs_Ropp, Rabs_R1. lra.
  - apply absolute_fuzzy_equals_true. simpl.
    rewrite !Rminus_0_r, Rabs_R0. replace (1 - 2) with (- (1)) by ring.
    rewrite Rabs_Ropp, Rabs_R1. lra.
Defined.

(** X4.  [assign_min_to] leaves in [v] the componentwise minimum of the point
    and [v], [assign_max_to] the maximum.  The corner that a sequence of points
    produces does therefore not depend on their order, and a point taken twice
    changes nothing. *)
Theorem assign_min_max_order (p q v : TypeVector.t) :
  TypeVector.assign_min_to p (TypeVector.assign_min_to q v)
  = TypeVector.assign_min_to q (TypeVector.assign_min_to p v) /\
  TypeVector.assign_min_to p (TypeVector.assign_min_to p v) = TypeVector.assign_min_to p v /\
  TypeVector.assign_max_to p (TypeVector.assign_max_to q v)
  = TypeVector.assign_max_to q (TypeVector.assign_max_to p v) /\
  TypeVector.assign_max_to p (TypeVector.assign_max_to p v) = TypeVector.assign_max_to p v /\
  (forall i pi vi,
     TypeVector.coord p i = Some pi -> TypeVector.coord v i = Some vi ->
     TypeVector.coord (TypeVector.assign_min_to p v) i = Some (Rmin pi vi) /\
     TypeVector.coord (TypeVector.assign_max_to p v) i = Some (Rmax pi vi)).
Proof.
  destruct p as [p0 p1 p2], q as [q0 q1 q2], v as [v0 v1 v2].
  unfold TypeVector.assign_min_to, TypeVector.assign_max_to. simpl.
  split; [| split; [| split; [| split]]];
    try (f_equal; repeat (destruct (Rlt_dec _ _) || destruct (Rgt_dec _ _)); lra).
  intros [|[|[|i]]] pi vi; simpl; intros [= <-] [= <-]; try done;
    unfold Rmin, Rmax; destruct (Rle_dec _ _), (Rlt_dec _ _), (Rgt_dec _ _);
    split; f_equal; lra.
Qed.

Lemma assign_min_max_order_witness :
  TypeVector.coord (TypeVector.assign_min_to (TypeVector.mk 1 5 3) (TypeVector.mk 2 4 3)) 1
  = Some (Rmin 5 4).
Proof.
  destruct (assign_min_max_order (TypeVector.mk 1 5 3) (TypeVector.mk 1 5 3)
              (TypeVector.mk 2 4 3)) as (_ & _ & _ & _ & Hcoord).
  exact (proj1 (Hcoord 1%nat 5 4 eq_refl eq_refl)).
Defined.

(** ** Mesh utilities *)

Lemma geb_true (a b : R) : MeshTools.geb a b = true <-> b <= a.
Proof. unfold MeshTools.geb. destruct (Rge_dec a b); split; intros; try done; lra. Qed.

Lemma leb_true (a b : R) : MeshTools.leb a b = true <-> a <= b.
Proof. unfold MeshTools.leb. destruct (Rle_dec a b); split; intros; try done; lra. Qed.

Lemma in_bounding_box_true (b : MeshTools.BoundingBox) (p : TypeVector.t) :
  MeshTools.in_bounding_box b p = true <->
  (TypeVector._coords0 b.1 <= TypeVector._coords0 p <= TypeVector._coords0 b.2) /\
  (TypeVector._coords1 b.1 <= TypeVector._coords1 p <= TypeVector._coords1 b.2) /\
  (TypeVector._coords2 b.1 <= TypeVector._coords2 p <= TypeVector._coords2 b.2).
Proof.
  unfold MeshTools.in_bounding_box.
  rewrite !andb_true_iff, !geb_true, !leb_true. tauto.
Qed.

(** In three dimensions one point moves each corner to the componentwise
    minimum and maximum. *)
Lemma extend_3 (min max p : TypeVector.t) :
  MeshTools.extend 3 (Some (min, max)) (Some p)
  = Some (TypeVector.mk (Rmin (TypeVector._coords0 min) (TypeVector._coords0 p))
                        (Rmin (TypeVector._coords1 min) (TypeVector._coords1 p))
                        (Rmin (TypeVector._coords2 min) (TypeVector._coords2 p)),
          TypeVector.mk (Rmax (TypeVector._coords0 max) (TypeVector._coords0 p))
                        (Rmax (TypeVector._coords1 max) (TypeVector._coords1 p))
                        (Rmax (TypeVector._coords2 max) (TypeVector._coords2 p))).
Proof. by destruct min, max, p. Qed.

(** A box that holds a point still holds it after it has been extended. *)
Lemma extend_3_keeps (box box' : MeshTools.BoundingBox) (p q : TypeVector.t) :
  MeshTools.extend 3 (Some box) (Some q) = Some box' ->
  (MeshTools.in_bounding_box box p = true \/ p = q) ->
  MeshTools.in_bounding_box box' p = true.
Proof.
  destruct box as [min max]. rewrite extend_3. intros [= <-] Hp.
  apply in_bounding_box_true. simpl.
  pose proof (Rmin_l (TypeVector._coords0 min) (TypeVector._coords0 q)).
  pose proof (Rmin_l (TypeVector._coords1 min) (TypeVector._coords1 q)).
  pose proof (Rmin_l (TypeVector._coords2 min) (TypeVector._coords2 q)).
  pose proof (Rmin_r (TypeVector._coords0 min) (TypeVector._coords0 q)).
  pose proof (Rmin_r (TypeVector._coords1 min) (TypeVector._coords1 q)).
  pose proof (Rmin_r (TypeVector._coords2 min) (TypeVector._coords2 q)).
  pose proof (Rmax_l (TypeVector._coords0 max) (TypeVector._coords0 q)).
  pose proof (Rmax_l (TypeVector._coords1 max) (TypeVector._coords1 q)).
  pose proof (Rmax_l (TypeVector._coords2 max) (TypeVector._coords2 q)).
  pose proof (Rmax_r (TypeVector._coords0 max) (TypeVector._coords0 q)).
  pose proof (Rmax_r (TypeVector._coords1 max) (TypeVector._coords1 q)).
  pose proof (Rmax_r (TypeVector._coords2 max) (TypeVector._coords2 q)).
  destruct Hp as [Hp | ->]; [apply in_bounding_box_true in Hp; simpl in Hp |]; lra.
Qed.

Lemma extend_3_total (box : MeshTools.BoundingBox) (q : TypeVector.t) :
  exists box', MeshTools.extend 3 (Some box) (Some q) = Some box'.
Proof. destruct box as [min max]. rewrite extend_3. by eexists. Qed.

(** The loop over the points of the mesh. *)
Lemma extend_points (points : list TypeVector.t) :
  forall box : MeshTools.BoundingBox,
  exists box',
    foldl (fun box p => MeshTools.extend 3 box (Some p)) (Some box) points = Some box' /\
    forall p, MeshTools.in_bounding_box box p = true \/ p ∈ points ->
              MeshTools.in_bounding_box box' p = true.
Proof.
  induction points as [|q points IH]; intros box; cbn [foldl].
  - exists box. split; [done |]. intros p [Hp | Hp]; [done | by apply elem_of_nil in Hp].
  - destruct (extend_3_total box q) as [box1 H1]. rewrite H1.
    destruct (IH box1) as (box' & Hfold & Hin). exists box'. split; [done |].
    intros p Hp. apply Hin. destruct Hp as [Hp | Hp].
    + left. by apply (extend_3_keeps box box1 p q); [| left].
    + apply elem_of_cons in Hp as [-> | Hp]; [| by right].
      left. by apply (extend_3_keeps box box1 q q); [| right].
Qed.

Lemma bounding_box_holds (mesh : MeshTools.MeshBase) :
  MeshTools.spatial_dimension mesh = 3%nat ->
  MeshTools.mesh_point mesh <> [] ->
  exists box,
    MeshTools.bounding_box mesh = Some box /\
    forall p, p ∈ MeshTools.mesh_point mesh -> MeshTools.in_bounding_box box p = true.
Proof.
  intros Hd Hne. unfold MeshTools.bounding_box, MeshTools.processor_bounding_box.
  unfold MeshTools.n_nodes. destruct (MeshTools.mesh_point mesh) as [|q points] eqn:Hp; [done |].
  simpl (Nat.eqb _ _). cbv iota. rewrite Hd.
  destruct (extend_points (q :: points) MeshTools.empty_box) as (box & Hfold & Hin).
  exists box. split; [done |]. intros p Hpin. apply Hin. by right.
Qed.

(** X5.  In three dimensions the bounding box of a mesh with nodes exists and
    holds every node of the mesh. *)
Theorem bounding_box_contains (mesh : MeshTools.MeshBase) :
  MeshTools.spatial_dimension mesh = 3%nat ->
  MeshTools.mesh_point mesh <> [] ->
  exists box,
    MeshTools.bounding_box mesh = Some box /\
    forall p, p ∈ MeshTools.mesh_point mesh -> MeshTools.in_bounding_box box p = true.
Proof. apply bounding_box_holds. Qed.

Lemma bounding_box_contains_witness :
  let mesh := {| MeshTools.mesh_point := [TypeVector.mk 0 0 0; TypeVector.mk 1 2 3];
                 MeshTools.mesh_elements := [];
                 MeshTools.spatial_dimension := 3 |} in
  exists box,
    MeshTools.bounding_box mesh = Some box /\
    MeshTools.in_bounding_box box (TypeVector.mk 1 2 3) = true.
Proof.
  intros mesh.
  destruct (bounding_box_contains mesh eq_refl) as (box & Hbox & Hin); [done |].
  exists box. split; [done |]. apply Hin. apply list_elem_of_In. simpl. auto.
Defined.

(** The sphere around a box holds what the box holds. *)
Lemma sphere_of_box_contains (box : MeshTools.BoundingBox) (p : TypeVector.t) :
  MeshTools.in_bounding_box box p = true ->
  exists cent radius,
    MeshTools.sphere_of_box box = Some (cent, radius) /\
    TypeVector.size (TypeVector.subtract p cent) <= radius.
Proof.
  intros Hin. apply in_bounding_box_true in Hin.
  destruct box as [[m0 m1 m2] [M0 M1 M2]], p as [p0 p1 p2]. simpl in Hin.
  unfold MeshTools.sphere_of_box, TypeVector.div.
  destruct (Req_EM_T 2 0) as [H2 | _]; [lra |]. do 2 eexists. split; [reflexivity |].
  unfold TypeVector.size. cbn [fst snd].
  match goal with |- sqrt ?a <= 0.5 * sqrt ?b => set (S := a); set (D := b) end.
  assert (HS : 0 <= S) by apply size_sq_nonneg.
  assert (HD : 0 <= D) by apply size_sq_nonneg.
  assert (HSD : 4 * S <= D).
  { unfold S, D, TypeVector.size_sq, TypeVector.dot. simpl.
    assert (H0 : 4 * ((p0 - (M0 + m0) / 2) * (p0 - (M0 + m0) / 2)) <= (M0 - m0) * (M0 - m0)) by nra.
    assert (H1 : 4 * ((p1 - (M1 + m1) / 2) * (p1 - (M1 + m1) / 2)) <= (M1 - m1) * (M1 - m1)) by nra.
    assert (H2 : 4 * ((p2 - (M2 + m2) / 2) * (p2 - (M2 + m2) / 2)) <= (M2 - m2) * (M2 - m2)) by nra.
    lra. }
  pose proof (sqrt_pos S) as HsS. pose proof (sqrt_pos D) as HsD.
  pose proof (sqrt_sqrt S HS) as HqS. pose proof (sqrt_sqrt D HD) as HqD.
  nra.
Qed.

(** X6.  The bounding sphere of a three-dimensional mesh with nodes exists and
    no node lies farther from its centre than its radius. *)
Theorem bounding_sphere_contains (mesh : MeshTools.MeshBase) :
  MeshTools.spatial_dimension mesh = 3%nat ->
  MeshTools.mesh_point mesh <> [] ->
  exists cent radius,
    MeshTools.bounding_sphere mesh = Some (cent, radius) /\
    forall p, p ∈ MeshTools.mesh_point mesh ->
              TypeVector.size (TypeVector.subtract p cent) <= radius.
Proof.
  intros Hd Hne. unfold MeshTools.bounding_sphere.
  destruct (bounding_box_holds mesh Hd Hne) as (box & -> & Hin).
  destruct (MeshTools.mesh_point mesh) as [|q points] eqn:Hp; [done |].
  destruct (sphere_of_box_contains box q) as (cent & radius & Hs & _).
  { apply Hin. by left. }
  exists cent, radius. split; [done |]. intros p Hpin.
  destruct (sphere_of_box_contains box p (Hin p Hpin)) as (c' & r' & Hs' & Hle).
  rewrite Hs in Hs'. by injection Hs' as <- <-.
Qed.

Lemma bounding_sphere_contains_witness :
  let mesh := {| MeshTools.mesh_point := [TypeVector.mk 0 0 0; TypeVector.mk 1 2 3];
                 MeshTools.mesh_elements := [];
                 MeshTools.spatial_dimension := 3 |} in
  exists cent radius,
    MeshTools.bounding_sphere mesh = Some (cent, radius) /\
    TypeVector.size (TypeVector.subtract (TypeVector.mk 1 2 3) cent) <= radius.
Proof.
  intros mesh.
  destruct (bounding_sphere_contains mesh eq_refl) as (cent & radius & Hs & Hin); [done |].
  exists cent, radius. split; [done |]. apply Hin. apply list_elem_of_In. simpl. auto.
Defined.

Lemma size_zero (a : TypeVector.t) :
  TypeVector.size a = 0 -> a = TypeVector.zero.
Proof.
  intros H. pose proof (size_sq_size a) as Hs. rewrite H in Hs.
  destruct a as [a0 a1 a2]. unfold TypeVector.size_sq, TypeVector.dot in Hs. simpl in Hs.
  assert (a0 = 0) by nra. assert (a1 = 0) by nra. assert (a2 = 0) by nra.
  by subst.
Qed.

(** X7.  [minimal_distance(b, p)] is at most zero exactly for the points of the
    box; there it is the negated margin along the third axis alone, so that
    two points of the box at the same height get the same value. *)
Theorem minimal_distance_sign (b : MeshTools.BoundingBox) (p : TypeVector.t) :
  (MeshTools.minimal_distance b p <= 0 <-> MeshTools.in_bounding_box b p = true) /\
  (forall q,
     MeshTools.in_bounding_box b p = true -> MeshTools.in_bounding_box b q = true ->
     TypeVector._coords2 p = TypeVector._coords2 q ->
     MeshTools.minimal_distance b p = MeshTools.minimal_distance b q).
Proof.
  split.
  - unfold MeshTools.minimal_distance.
    destruct (MeshTools.in_bounding_box b p) eqn:Hin.
    + apply in_bounding_box_true in Hin. split; [done |]. intros _. cbv zeta.
      destruct Hin as (_ & _ & Hz). unfold Rmin. destruct (Rle_dec _ _); lra.
    + split; [| done]. intros Hle. cbv zeta in Hle.
      assert (H0 : TypeVector.size
                (TypeVector.subtract
                   (TypeVector.mk
                      (MeshTools.nearest (TypeVector._coords0 p) (TypeVector._coords0 b.1)
                         (TypeVector._coords0 b.2))
                      (MeshTools.nearest (TypeVector._coords1 p) (TypeVector._coords1 b.1)
                         (TypeVector._coords1 b.2))
                      (MeshTools.nearest (TypeVector._coords2 p) (TypeVector._coords2 b.1)
                         (TypeVector._coords2 b.2))) p) = 0).
      { apply Rle_antisym; [done | apply size_nonneg]. }
      apply size_zero in H0. unfold TypeVector.subtract, TypeVector.zero in H0.
      injection H0 as H0 H1 H2.
      assert (Hin' : MeshTools.in_bounding_box b p = true).
      { apply in_bounding_box_true.
        revert H0 H1 H2. unfold MeshTools.nearest. simpl.
        repeat (destruct (Rlt_dec _ _) || destruct (Rgt_dec _ _)); intros; lra. }
      congruence.
  - intros q Hp Hq Hz. unfold MeshTools.minimal_distance. rewrite Hp, Hq. cbv zeta.
    by rewrite Hz.
Qed.

Lemma minimal_distance_sign_witness :
  MeshTools.minimal_distance (TypeVector.mk 0 0 0, TypeVector.mk 2 2 2) (TypeVector.mk 1 1 1)
  <= 0.
Proof.
  apply (proj1 (minimal_distance_sign (TypeVector.mk 0 0 0, TypeVector.mk 2 2 2)
                  (TypeVector.mk 1 1 1))).
  apply in_bounding_box_true. simpl. lra.
Defined.

(** The ids one element adds at node [j]. *)
Lemma nodes_to_elem_inner (id n_el : nat) (nodes : list nat) :
  forall map : list (list nat),
    (id < n_el)%nat -> (forall k, k ∈ nodes -> (k < length map)%nat) ->
    exists map',
      foldl (fun map n =>
               match map with
               | None => None
               | Some map =>
                   if Nat.ltb n (length map) && Nat.ltb id n_el
                   then Some (alter (fun ids => ids ++ [id]) n map)
                   else None
               end) (Some map) nodes = Some map' /\
      length map' = length map /\
      forall j, map' !! j
                = (fun ids => ids ++ flat_map (fun k => if Nat.eqb k j then [id] else []) nodes)
                  <$> map !! j.
Proof.
  induction nodes as [|n nodes IH]; intros map Hid Hnodes; cbn [foldl flat_map].
  - exists map. split; [done |]. split; [done |]. intros j.
    destruct (map !! j); simpl; [by rewrite app_nil_r | done].
  - assert (Hn : (n < length map)%nat) by (apply Hnodes; by left).
    apply Nat.ltb_lt in Hn as Hn'. apply Nat.ltb_lt in Hid as Hid'.
    rewrite Hn', Hid'. cbn [andb].
    destruct (IH (alter (fun ids => ids ++ [id]) n map) Hid) as (map' & Hfold & Hlen & Hget).
    { intros k Hk. rewrite length_alter. apply Hnodes. by right. }
    rewrite Hid' in Hfold.
    exists map'. split; [done |]. split; [by rewrite Hlen, length_alter |].
    intros j. rewrite Hget. destruct (decide (n = j)) as [-> | Hne].
    + rewrite list_lookup_alter_eq, Nat.eqb_refl.
      destruct (map !! j); simpl; [| done]. by rewrite <- app_assoc.
    + rewrite list_lookup_alter_ne by done.
      apply Nat.eqb_neq in Hne. by rewrite Hne.
Qed.

Lemma nodes_to_elem_outer (n_el : nat) (elements : list MeshTools.MeshElem) :
  forall map : list (list nat),
    (forall el, el ∈ elements ->
       (MeshTools.elem_id el < n_el)%nat /\
       forall k, k ∈ MeshTools.elem_node el -> (k < length map)%nat) ->
    exists map',
      foldl (fun map el =>
               foldl (fun map n =>
                        match map with
                        | None => None
                        | Some map =>
                            if Nat.ltb n (length map) && Nat.ltb (MeshTools.elem_id el) n_el
                            then Some (alter (fun ids => ids ++ [MeshTools.elem_id el]) n map)
                            else None
                        end) map (MeshTools.elem_node el))
            (Some map) elements = Some map' /\
      length map' = length map /\
      forall j, map' !! j
                = (fun ids =>
                     ids ++ flat_map (fun el =>
                              flat_map (fun k => if Nat.eqb k j then [MeshTools.elem_id el] else [])
                                       (MeshTools.elem_node el)) elements)
                  <$> map !! j.
Proof.
  induction elements as [|el elements IH]; intros map Hvalid; cbn [foldl flat_map].
  - exists map. split; [done |]. split; [done |]. intros j.
    destruct (map !! j); simpl; [by rewrite app_nil_r | done].
  - destruct (Hvalid el) as [Hid Hnodes]; [by left |].
    destruct (nodes_to_elem_inner (MeshTools.elem_id el) n_el (MeshTools.elem_node el) map
                Hid Hnodes) as (map1 & Hfold1 & Hlen1 & Hget1).
    rewrite Hfold1.
    destruct (IH map1) as (map' & Hfold & Hlen & Hget).
    { intros el' Hel'. destruct (Hvalid el') as [Hid' Hnodes']; [by right |].
      split; [done |]. by rewrite Hlen1. }
    exists map'. split; [done |]. split; [by rewrite Hlen, Hlen1 |].
    intros j. rewrite Hget, Hget1. destruct (map !! j); simpl; [| done].
    by rewrite <- app_assoc.
Qed.

(** X8.  When every element has an id below the number of elements and refers to
    nodes of the mesh only, [build_nodes_to_elem_map], started on an empty
    vector, returns one entry per node, and the entry of a node holds the ids
    of exactly the elements that have the node. *)
Theorem nodes_to_elem_map_complete (mesh : MeshTools.MeshBase) :
  (forall el, el ∈ MeshTools.mesh_elements mesh ->
     (MeshTools.elem_id el < MeshTools.n_elem mesh)%nat /\
     forall k, k ∈ MeshTools.elem_node el -> (k < MeshTools.n_nodes mesh)%nat) ->
  exists map,
    MeshTools.build_nodes_to_elem_map mesh [] = Some map /\
    length map = MeshTools.n_nodes mesh /\
    forall n ids e,
      map !! n = Some ids ->
      (e ∈ ids <-> exists el, el ∈ MeshTools.mesh_elements mesh /\
                              MeshTools.elem_id el = e /\ n ∈ MeshTools.elem_node el).
Proof.
  intros Hvalid. unfold MeshTools.build_nodes_to_elem_map.
  assert (Hresize : MeshTools.resize (MeshTools.n_nodes mesh) [] ([] : list (list nat))
                    = replicate (MeshTools.n_nodes mesh) []).
  { unfold MeshTools.resize. rewrite take_nil. simpl. by rewrite Nat.sub_0_r. }
  rewrite Hresize.
  destruct (nodes_to_elem_outer (MeshTools.n_elem mesh) (MeshTools.mesh_elements mesh)
              (replicate (MeshTools.n_nodes mesh) [])) as (map & Hfold & Hlen & Hget).
  { intros el Hel. destruct (Hvalid el Hel) as [Hid Hnodes]. split; [done |].
    by rewrite length_replicate. }
  exists map. split; [done |]. split; [by rewrite Hlen, length_replicate |].
  intros n ids e Hn. rewrite Hget in Hn.
  destruct (replicate (MeshTools.n_nodes mesh) [] !! n) as [ids0|] eqn:H0; [| done].
  apply lookup_replicate in H0 as [-> _]. simpl in Hn. injection Hn as <-.
  rewrite list_elem_of_In, in_flat_map. split.
  - intros (el & Hel & Hin). apply in_flat_map in Hin as (k & Hk & Hin).
    destruct (Nat.eqb k n) eqn:Hkn; [| done]. apply Nat.eqb_eq in Hkn as ->.
    destruct Hin as [<- | []]. exists el.
    split; [by apply list_elem_of_In |]. split; [done | by apply list_elem_of_In].
  - intros (el & Hel & <- & Hn). exists el. split; [by apply list_elem_of_In |].
    apply in_flat_map. exists n. split; [by apply list_elem_of_In |].
    rewrite Nat.eqb_refl. by left.
Qed.

Lemma nodes_to_elem_map_complete_witness :
  let el0 := {| MeshTools.elem_id := 0; MeshTools.elem_node := [0; 1]%nat;
                MeshTools.elem_processor_id := 0; MeshTools.elem_subdomain_id := 0 |} in
  let el1 := {| MeshTools.elem_id := 1; MeshTools.elem_node := [1; 2]%nat;
                MeshTools.elem_processor_id := 0; MeshTools.elem_subdomain_id := 0 |} in
  let mesh := {| MeshTools.mesh_point :=
                   [TypeVector.mk 0 0 0; TypeVector.mk 1 0 0; TypeVector.mk 2 0 0];
                 MeshTools.mesh_elements := [el0; el1];
                 MeshTools.spatial_dimension := 3 |} in
  exists map,
    MeshTools.build_nodes_to_elem_map mesh [] = Some map /\ length map = 3%nat.
Proof.
  cbv zeta.
  match goal with
  | |- exists map, MeshTools.build_nodes_to_elem_map ?mesh [] = _ /\ _ =>
      destruct (nodes_to_elem_map_complete mesh) as (map & Hmap & Hlen & _)
  end.
  - intros el Hel. apply list_elem_of_In in Hel. simpl in Hel.
    unfold MeshTools.n_elem, MeshTools.n_nodes.
    destruct Hel as [<- | [<- | []]]; (split; [simpl; lia |]);
      intros k Hk; apply list_elem_of_In in Hk; simpl in Hk; simpl; lia.
  - by exists map.
Defined.

(** The loop of [elem_types] adds no type twice and misses none. *)
Lemma elem_types_loop {ElemType : Type} `{EqDecision ElemType}
    (type : MeshTools.MeshElem -> ElemType) (rest : list MeshTools.MeshElem) :
  forall et : list ElemType,
    NoDup et ->
    let et' := foldl (fun et el => if bool_decide (type el ∈ et) then et else et ++ [type el])
                     et rest in
    NoDup et' /\ forall t, t ∈ et' <-> t ∈ et \/ exists el, el ∈ rest /\ type el = t.
Proof.
  induction rest as [|el rest IH]; intros et Hnd; cbn [foldl].
  - split; [done |]. intros t. split; [by left |].
    intros [H | (el & Hel & _)]; [done | by apply elem_of_nil in Hel].
  - case_bool_decide as Hin.
    + destruct (IH et Hnd) as [Hnd' Hiff]. split; [done |]. intros t. rewrite Hiff.
      split.
      * intros [H | (el' & Hel' & Ht)]; [by left |]. right. exists el'.
        split; [by right | done].
      * intros [H | (el' & Hel' & Ht)]; [by left |].
        apply elem_of_cons in Hel' as [-> | Hel']; [left; by rewrite <- Ht |].
        right. by exists el'.
    + destruct (IH (et ++ [type el])) as [Hnd' Hiff].
      { apply NoDup_app. split; [done |]. split; [| apply NoDup_singleton].
        intros t Ht Ht'. apply list_elem_of_singleton in Ht' as ->. done. }
      split; [done |]. intros t. rewrite Hiff, elem_of_app, list_elem_of_singleton. split.
      * intros [[H | ->] | (el' & Hel' & Ht)]; [by left | |].
        -- right. exists el. split; [by left | done].
        -- right. exists el'. split; [by right | done].
      * intros [H | (el' & Hel' & Ht)]; [by left; left |].
        apply elem_of_cons in Hel' as [-> | Hel']; [left; by right |].
        right. by exists el'.
Qed.

(** X9.  On a mesh with elements [elem_types], started on an empty vector,
    returns every element type of the mesh exactly once. *)
Theorem elem_types_distinct {ElemType : Type} `{EqDecision ElemType}
    (type : MeshTools.MeshElem -> ElemType) (mesh : MeshTools.MeshBase) :
  MeshTools.mesh_elements mesh <> [] ->
  exists et,
    MeshTools.elem_types type mesh [] = Some et /\
    NoDup et /\
    forall t, t ∈ et <-> exists el, el ∈ MeshTools.mesh_elements mesh /\ type el = t.
Proof.
  intros Hne. unfold MeshTools.elem_types.
  destruct (MeshTools.mesh_elements mesh) as [|el rest]; [done |]. eexists.
  split; [reflexivity |]. simpl ([] ++ _).
  destruct (elem_types_loop type rest [type el]) as [Hnd Hiff]; [apply NoDup_singleton |].
  split; [done |]. intros t. rewrite Hiff, list_elem_of_singleton. split.
  - intros [-> | (el' & Hel' & Ht)]; [exists el; split; [by left | done] |].
    exists el'. split; [by right | done].
  - intros (el' & Hel' & Ht). apply elem_of_cons in Hel' as [-> | Hel']; [by left |].
    right. by exists el'.
Qed.

Lemma elem_types_distinct_witness :
  let el := {| MeshTools.elem_id := 0; MeshTools.elem_node := [0; 1]%nat;
               MeshTools.elem_processor_id := 0; MeshTools.elem_subdomain_id := 0 |} in
  let mesh := {| MeshTools.mesh_point := [TypeVector.mk 0 0 0; TypeVector.mk 1 0 0];
                 MeshTools.mesh_elements := [el; el];
                 MeshTools.spatial_dimension := 3 |} in
  exists et,
    MeshTools.elem_types (fun el => length (MeshTools.elem_node el)) mesh [] = Some et /\
    NoDup et.
Proof.
  intros el mesh.
  destruct (elem_types_distinct (fun el => length (MeshTools.elem_node el)) mesh)
    as (et & Het & Hnd & _); [done |].
  by exists et.
Defined.

(** ** Boxes of a processor and of a subdomain *)

(** The loop over the nodes of one element. *)
Lemma extend_nodes (points : list TypeVector.t) (nodes : list nat) :
  forall box : MeshTools.BoundingBox,
    (forall n, n ∈ nodes -> (n < length points)%nat) ->
    exists box',
      foldl (fun box n => MeshTools.extend 3 box (points !! n)) (Some box) nodes = Some box' /\
      forall p, MeshTools.in_bounding_box box p = true \/
                (exists n, n ∈ nodes /\ points !! n = Some p) ->
                MeshTools.in_bounding_box box' p = true.
Proof.
  induction nodes as [|n nodes IH]; intros box Hvalid; cbn [foldl].
  - exists box. split; [done |]. intros p [Hp | (n & Hn & _)]; [done |].
    by apply elem_of_nil in Hn.
  - destruct (lookup_lt_is_Some_2 points n) as [q Hq]; [apply Hvalid; by left |].
    rewrite Hq. destruct (extend_3_total box q) as [box1 H1]. rewrite H1.
    destruct (IH box1) as (box' & Hfold & Hin); [intros k Hk; apply Hvalid; by right |].
    exists box'. split; [done |]. intros p Hp. apply Hin.
    destruct Hp as [Hp | (k & Hk & Hkp)].
    + left. by apply (extend_3_keeps box box1 p q); [| left].
    + apply elem_of_cons in Hk as [-> | Hk]; [| right; by exists k].
      left. apply (extend_3_keeps box box1 p q); [done |]. right. congruence.
Qed.

(** The loop over the elements, of which only the selected ones count. *)
Lemma extend_elements (points : list TypeVector.t) (sel : MeshTools.MeshElem -> bool)
    (elements : list MeshTools.MeshElem) :
  forall box : MeshTools.BoundingBox,
    (forall el n, el ∈ elements -> n ∈ MeshTools.elem_node el -> (n < length points)%nat) ->
    exists box',
      foldl (fun box el =>
               if sel el
               then foldl (fun box n => MeshTools.extend 3 box (points !! n)) box
                          (MeshTools.elem_node el)
               else box) (Some box) elements = Some box' /\
      ((forall el, el ∈ elements -> sel el = false) -> box' = box) /\
      forall p, MeshTools.in_bounding_box box p = true \/
                (exists el n, el ∈ elements /\ sel el = true /\
                              n ∈ MeshTools.elem_node el /\ points !! n = Some p) ->
                MeshTools.in_bounding_box box' p = true.
Proof.
  induction elements as [|el elements IH]; intros box Hvalid; cbn [foldl].
  - exists box. split; [done |]. split; [done |].
    intros p [Hp | (el & n & Hel & _)]; [done | by apply elem_of_nil in Hel].
  - destruct (sel el) eqn:Hsel.
    + destruct (extend_nodes points (MeshTools.elem_node el) box) as (box1 & H1 & Hin1).
      { intros n Hn. by apply (Hvalid el); [left |]. }
      rewrite H1. destruct (IH box1) as (box' & Hfold & _ & Hin).
      { intros el' n Hel' Hn. by apply (Hvalid el'); [right |]. }
      exists box'. split; [done |]. split.
      * intros Hnone. rewrite (Hnone el) in Hsel; [done | by left].
      * intros p Hp. apply Hin. destruct Hp as [Hp | (el' & n & Hel' & Hs & Hn & Hp)].
        -- left. apply Hin1. by left.
        -- apply elem_of_cons in Hel' as [-> | Hel'].
           ++ left. apply Hin1. right. by exists n.
           ++ right. by exists el', n.
    + destruct (IH box) as (box' & Hfold & Hnone & Hin).
      { intros el' n Hel' Hn. by apply (Hvalid el'); [right |]. }
      exists box'. split; [done |]. split.
      * intros Hall. apply Hnone. intros el' Hel'. apply Hall. by right.
      * intros p Hp. apply Hin. destruct Hp as [Hp | (el' & n & Hel' & Hs & Hn & Hp)].
        -- by left.
        -- apply elem_of_cons in Hel' as [-> | Hel']; [congruence |].
           right. by exists el', n.
Qed.

Lemma foldl_filter {A B : Type} (P : B -> Prop) `{forall b, Decision (P b)}
    (body : A -> B -> A) (l : list B) :
  forall a, foldl body a (filter P l)
            = foldl (fun a b => if bool_decide (P b) then body a b else a) a l.
Proof.
  induction l as [|b l IH]; intros a; [done |].
  rewrite filter_cons. cbn [foldl]. case_bool_decide as Hb.
  - rewrite decide_True by done. cbn [foldl]. apply IH.
  - rewrite decide_False by done. apply IH.
Qed.

(** No point lies in the box the loops start from. *)
Lemma empty_box_holds_nothing (p : TypeVector.t) :
  MeshTools.in_bounding_box MeshTools.empty_box p = false.
Proof.
  destruct (MeshTools.in_bounding_box MeshTools.empty_box p) eqn:Hin; [| done].
  apply in_bounding_box_true in Hin. simpl in Hin. lra.
Qed.

(** X26.  In three dimensions, on a mesh whose elements refer to nodes of the
    mesh only, the box of a processor and the box of a subdomain exist and
    hold every node of every element of that processor or subdomain.  When
    no element belongs to it, the box returned is the one the loop starts
    from, with its corners at plus and minus 1e30 the wrong way round, and no
    point lies in it. *)
Theorem selected_bounding_box_contains (mesh : MeshTools.MeshBase) (id : nat) :
  MeshTools.spatial_dimension mesh = 3%nat ->
  MeshTools.mesh_point mesh <> [] ->
  (forall el n, el ∈ MeshTools.mesh_elements mesh -> n ∈ MeshTools.elem_node el ->
                (n < MeshTools.n_nodes mesh)%nat) ->
  (exists box,
     MeshTools.processor_bounding_box mesh (Some id) = Some box /\
     (forall el n p,
        el ∈ MeshTools.mesh_elements mesh -> MeshTools.elem_processor_id el = id ->
        n ∈ MeshTools.elem_node el -> MeshTools.mesh_point mesh !! n = Some p ->
        MeshTools.in_bounding_box box p = true) /\
     ((forall el, el ∈ MeshTools.mesh_elements mesh -> MeshTools.elem_processor_id el <> id) ->
      box = MeshTools.empty_box /\ forall p, MeshTools.in_bounding_box box p = false)) /\
  (exists box,
     MeshTools.subdomain_bounding_box mesh (Some id) = Some box /\
     (forall el n p,
        el ∈ MeshTools.mesh_elements mesh -> MeshTools.elem_subdomain_id el = id ->
        n ∈ MeshTools.elem_node el -> MeshTools.mesh_point mesh !! n = Some p ->
        MeshTools.in_bounding_box box p = true) /\
     ((forall el, el ∈ MeshTools.mesh_elements mesh -> MeshTools.elem_subdomain_id el <> id) ->
      box = MeshTools.empty_box /\ forall p, MeshTools.in_bounding_box box p = false)).
Proof.
  intros Hd Hne Hvalid.
  assert (Hn0 : Nat.eqb (MeshTools.n_nodes mesh) 0 = false).
  { apply Nat.eqb_neq. unfold MeshTools.n_nodes.
    destruct (MeshTools.mesh_point mesh); [done | simpl; lia]. }
  split.
  - unfold MeshTools.processor_bounding_box. rewrite Hn0, Hd, foldl_filter.
    destruct (extend_elements (MeshTools.mesh_point mesh)
                (fun el => bool_decide (MeshTools.elem_processor_id el = id))
                (MeshTools.mesh_elements mesh) MeshTools.empty_box Hvalid)
      as (box & Hfold & Hnone & Hin).
    exists box. split; [exact Hfold |]. split.
    + intros el n p Hel Hid Hn Hp. apply Hin. right. exists el, n.
      split; [done |]. split; [by apply bool_decide_eq_true | done].
    + intros Hall. rewrite Hnone.
      * split; [done | apply empty_box_holds_nothing].
      * intros el Hel. apply bool_decide_eq_false. by apply Hall.
  - unfold MeshTools.subdomain_bounding_box. rewrite Hn0, Hd.
    destruct (extend_elements (MeshTools.mesh_point mesh)
                (fun el => Nat.eqb (MeshTools.elem_subdomain_id el) id)
                (MeshTools.mesh_elements mesh) MeshTools.empty_box Hvalid)
      as (box & Hfold & Hnone & Hin).
    exists box. split; [exact Hfold |]. split.
    + intros el n p Hel Hid Hn Hp. apply Hin. right. exists el, n.
      split; [done |]. split; [by apply Nat.eqb_eq | done].
    + intros Hall. rewrite Hnone.
      * split; [done | apply empty_box_holds_nothing].
      * intros el Hel. apply Nat.eqb_neq. by apply Hall.
Qed.

Lemma selected_bounding_box_contains_witness :
  let el0 := {| MeshTools.elem_id := 0; MeshTools.elem_node := [0; 1]%nat;
                MeshTools.elem_processor_id := 0; MeshTools.elem_subdomain_id := 0 |} in
  let mesh := {| MeshTools.mesh_point :=
                   [TypeVector.mk 0 0 0; TypeVector.mk 1 2 3; TypeVector.mk 5 5 5];
                 MeshTools.mesh_elements := [el0];
                 MeshTools.spatial_dimension := 3 |} in
  exists box,
    MeshTools.processor_bounding_box mesh (Some 0%nat) = Some box /\
    MeshTools.in_bounding_box box (TypeVector.mk 1 2 3) = true.
Proof.
  intros el0 mesh.
  destruct (selected_bounding_box_contains mesh 0 eq_refl) as [(box & Hbox & Hin & _) _].
  - done.
  - intros el n Hel Hn. apply list_elem_of_singleton in Hel as ->.
    apply list_elem_of_In in Hn. simpl in Hn. unfold MeshTools.n_nodes. simpl. lia.
  - exists box. split; [done |].
    apply (Hin el0 1%nat); [by left | reflexivity | | reflexivity].
    apply list_elem_of_In. simpl. auto.
Defined.

(** ** The corners of a box *)

(** X27.  [fill_bounding_box] returns eight points.  They all lie in the box
    exactly when its first corner is not above its second one in any
    coordinate, and they are eight different points when the first corner is
    strictly below the second one in every coordinate. *)
Theorem fill_bounding_box_corners (b : MeshTools.BoundingBox) :
  length (MeshTools.fill_bounding_box b) = 8%nat /\
  ((forall p, p ∈ MeshTools.fill_bounding_box b -> MeshTools.in_bounding_box b p = true) <->
   (TypeVector._coords0 b.1 <= TypeVector._coords0 b.2 /\
    TypeVector._coords1 b.1 <= TypeVector._coords1 b.2 /\
    TypeVector._coords2 b.1 <= TypeVector._coords2 b.2)) /\
  (TypeVector._coords0 b.1 < TypeVector._coords0 b.2 ->
   TypeVector._coords1 b.1 < TypeVector._coords1 b.2 ->
   TypeVector._coords2 b.1 < TypeVector._coords2 b.2 ->
   NoDup (MeshTools.fill_bounding_box b)).
Proof.
  destruct b as [[m0 m1 m2] [M0 M1 M2]]. split; [done |].
  unfold MeshTools.fill_bounding_box. cbn [fst snd TypeVector._coords0 TypeVector._coords1
    TypeVector._coords2]. split; [split |].
  - intros Hall. specialize (Hall (TypeVector.mk M0 M1 M2)).
    rewrite in_bounding_box_true in Hall. simpl in Hall.
    assert (Hin : TypeVector.mk M0 M1 M2
                  ∈ [TypeVector.mk m0 m1 m2; TypeVector.mk M0 m1 m2; TypeVector.mk M0 m1 M2;
                     TypeVector.mk m0 m1 M2; TypeVector.mk m0 M1 m2; TypeVector.mk M0 M1 m2;
                     TypeVector.mk M0 M1 M2; TypeVector.mk m0 M1 M2]).
    { apply list_elem_of_In. simpl. auto 10. }
    specialize (Hall Hin). lra.
  - intros (H0 & H1 & H2) p Hp. apply in_bounding_box_true.
    apply list_elem_of_In in Hp. simpl in Hp.
    repeat destruct Hp as [<- | Hp]; try done; simpl; lra.
  - intros H0 H1 H2.
    repeat (apply NoDup_cons; split;
            [rewrite ?elem_of_cons, elem_of_nil; intros Hp;
             repeat destruct Hp as [Hp | Hp]; try done; injection Hp; intros; lra |]).
    apply NoDup_nil_2.
Qed.

Lemma fill_bounding_box_corners_witness :
  NoDup (MeshTools.fill_bounding_box (TypeVector.mk 0 0 0, TypeVector.mk 1 2 3)).
Proof.
  apply (fill_bounding_box_corners (TypeVector.mk 0 0 0, TypeVector.mk 1 2 3)); simpl; lra.
Defined.

(** ** Relative fuzzy equality *)

Lemma Rabs_scale (a b k : R) : Rabs (a * k - b * k) = Rabs k * Rabs (a - b).
Proof. rewrite <- Rabs_mult. f_equal. ring. Qed.

(** X28.  [relative_fuzzy_equals] is symmetric in its two vectors, and it
    does not depend on the unit the coordinates are measured in: scaling both
    vectors by the same non-zero factor does not change its answer. *)
Theorem relative_fuzzy_equals_scale (a rhs : TypeVector.t) (tol factor : R) :
  factor <> 0 ->
  TypeVector.relative_fuzzy_equals (TypeVector.scale a factor) (TypeVector.scale rhs factor) tol
  = TypeVector.relative_fuzzy_equals a rhs tol /\
  TypeVector.relative_fuzzy_equals rhs a tol = TypeVector.relative_fuzzy_equals a rhs tol.
Proof.
  intros Hk. destruct a as [a0 a1 a2], rhs as [b0 b1 b2].
  unfold TypeVector.relative_fuzzy_equals, TypeVector.absolute_fuzzy_equals, TypeVector.scale.
  cbn [TypeVector._coords0 TypeVector._coords1 TypeVector._coords2].
  pose proof (Rabs_pos_lt factor Hk) as Hpos. split.
  - rewrite !Rabs_scale, !Rabs_mult.
    set (D := Rabs (a0 - b0) + Rabs (a1 - b1) + Rabs (a2 - b2)).
    set (S := Rabs a0 + Rabs b0 + Rabs a1 + Rabs b1 + Rabs a2 + Rabs b2).
    replace (Rabs factor * Rabs (a0 - b0) + Rabs factor * Rabs (a1 - b1)
             + Rabs factor * Rabs (a2 - b2)) with (Rabs factor * D) by (unfold D; ring).
    replace (Rabs a0 * Rabs factor + Rabs b0 * Rabs factor + Rabs a1 * Rabs factor
             + Rabs b1 * Rabs factor + Rabs a2 * Rabs factor + Rabs b2 * Rabs factor)
      with (Rabs factor * S) by (unfold S; ring).
    destruct (Rle_dec (Rabs factor * D) (tol * (Rabs factor * S))) as [H1 | H1],
             (Rle_dec D (tol * S)) as [H2 | H2]; try done; exfalso; nra.
  - rewrite (Rabs_minus_sym b0), (Rabs_minus_sym b1), (Rabs_minus_sym b2).
    replace (Rabs b0 + Rabs a0 + Rabs b1 + Rabs a1 + Rabs b2 + Rabs a2)
      with (Rabs a0 + Rabs b0 + Rabs a1 + Rabs b1 + Rabs a2 + Rabs b2) by ring.
    done.
Qed.

Lemma relative_fuzzy_equals_scale_witness :
  TypeVector.relative_fuzzy_equals (TypeVector.scale (TypeVector.mk 1 0 0) 1000)
    (TypeVector.scale (TypeVector.mk 1 1 0) 1000) 0.5
  = TypeVector.relative_fuzzy_equals (TypeVector.mk 1 0 0) (TypeVector.mk 1 1 0) 0.5.
Proof.
  apply (relative_fuzzy_equals_scale (TypeVector.mk 1 0 0) (TypeVector.mk 1 1 0) 0.5 1000).
  lra.
Defined.

(** ** Keys of sides *)

Lemma order_sorted (a b : Z) :
  let '(x, y) := ElemBase.order a b in
  (x <= y)%Z /\ ((x = a /\ y = b) \/ (x = b /\ y = a)).
Proof. unfold ElemBase.order. destruct (Z.gtb_spec a b); lia. Qed.

Lemma order_swap (a b : Z) : ElemBase.order a b = ElemBase.order b a.
Proof.
  unfold ElemBase.order.
  destruct (Z.gtb_spec a b), (Z.gtb_spec b a); try lia; try done.
  f_equal; lia.
Qed.

Ltac order_cases :=
  unfold ElemBase.order;
  repeat (match goal with
          | |- context [(?a >? ?b)%Z] => destruct (Z.gtb_spec a b)
          end; cbv beta iota).

(** The key of two nodes does not depend on their order. *)
Lemma compute_key_2_comm (n0 n1 : Z) :
  ElemBase.compute_key_2 n0 n1 = ElemBase.compute_key_2 n1 n0.
Proof. unfold ElemBase.compute_key_2. by rewrite order_swap. Qed.

Lemma NoDup_3 (a b c : Z) :
  NoDup [a; b; c] <-> a <> b /\ a <> c /\ b <> c.
Proof.
  rewrite !NoDup_cons, !elem_of_cons, !elem_of_nil. split.
  - intros (H1 & H2 & _). tauto.
  - intros (? & ? & ?). repeat split; try tauto. apply NoDup_nil_2.
Qed.

Lemma NoDup_4 (a b c d : Z) :
  NoDup [a; b; c; d] <-> a <> b /\ a <> c /\ a <> d /\ b <> c /\ b <> d /\ c <> d.
Proof.
  rewrite !NoDup_cons, !elem_of_cons, !elem_of_nil. split.
  - intros (H1 & H2 & H3 & _). tauto.
  - intros (? & ? & ? & ? & ? & ?). repeat split; try tauto. apply NoDup_nil_2.
Qed.

Ltac ltb_cases :=
  repeat match goal with
         | |- context [(?a <? ?b)%Z] => destruct (Z.ltb_spec a b)
         end.

Ltac members :=
  let v := fresh "v" in
  let Hv := fresh "Hv" in
  intros v; rewrite !elem_of_cons, !elem_of_nil; split; intros Hv;
  repeat destruct Hv as [Hv | Hv]; first [done | subst v; auto 10].

Ltac strictly :=
  apply Z.le_neq; split; [assumption | first [assumption | apply not_eq_sym; assumption]].

Ltac key_absent Hnd :=
  ltb_cases; cbn [andb]; try done; exfalso; apply Hnd; repeat split; lia.

(** What [compute_key (n0, n1, n2)] returns, by the sorted ids. *)
Lemma compute_key_3_spec (n0 n1 n2 : Z) :
  (NoDup [n0; n1; n2] ->
   exists x y z,
     ElemBase.compute_key_3 n0 n1 n2
     = Some (ElemBase.uadd (ElemBase.uadd (x mod ElemBase.bp) (ElemBase.shl y 5 mod ElemBase.bp))
               (ElemBase.shl z 10 mod ElemBase.bp)) /\
     (x < y < z)%Z /\ (forall v, v ∈ [x; y; z] <-> v ∈ [n0; n1; n2])) /\
  (~ NoDup [n0; n1; n2] -> ElemBase.compute_key_3 n0 n1 n2 = None).
Proof.
  rewrite NoDup_3. unfold ElemBase.compute_key_3. order_cases;
    match goal with
    | |- context [if (?x <? ?y)%Z && (_ <? ?z)%Z then _ else _] =>
        assert (Hs : (x <= y)%Z /\ (y <= z)%Z) by lia
    end;
    (split; intros Hnd;
     [ destruct Hs as (? & ?); destruct Hnd as (? & ? & ?);
       rewrite !(proj2 (Z.ltb_lt _ _)) by strictly; cbn [andb];
       do 3 eexists; split; [reflexivity |];
       split; [split; strictly | members]
     | key_absent Hnd ]).
Qed.

Lemma compute_key_4_spec (n0 n1 n2 n3 : Z) :
  (NoDup [n0; n1; n2; n3] ->
   exists x y z w,
     ElemBase.compute_key_4 n0 n1 n2 n3
     = Some (ElemBase.uadd
               (ElemBase.uadd
                  (ElemBase.uadd (x mod ElemBase.bp) (ElemBase.shl y 5 mod ElemBase.bp))
                  (ElemBase.shl z 10 mod ElemBase.bp))
               (ElemBase.shl w 15 mod ElemBase.bp)) /\
     ((x < y < z)%Z /\ (z < w)%Z) /\
     (forall v, v ∈ [x; y; z; w] <-> v ∈ [n0; n1; n2; n3])) /\
  (~ NoDup [n0; n1; n2; n3] -> ElemBase.compute_key_4 n0 n1 n2 n3 = None).
Proof.
  rewrite NoDup_4. unfold ElemBase.compute_key_4. order_cases;
    match goal with
    | |- context [if (?x <? ?y)%Z && (_ <? ?z)%Z && (_ <? ?w)%Z then _ else _] =>
        assert (Hs : (x <= y)%Z /\ (y <= z)%Z /\ (z <= w)%Z) by lia
    end;
    (split; intros Hnd;
     [ destruct Hs as (? & ? & ?); destruct Hnd as (? & ? & ? & ? & ? & ?);
       rewrite !(proj2 (Z.ltb_lt _ _)) by strictly; cbn [andb];
       do 4 eexists; split; [reflexivity |];
       split; [split; [split |]; strictly | members]
     | key_absent Hnd ]).
Qed.

Lemma strictly_sorted_3 (x y z : Z) :
  (x < y < z)%Z -> Sorted Z.le [x; y; z] /\ NoDup [x; y; z].
Proof.
  intros H. split.
  - repeat constructor; lia.
  - apply NoDup_3. lia.
Qed.

Lemma strictly_sorted_4 (x y z w : Z) :
  (x < y < z)%Z /\ (z < w)%Z -> Sorted Z.le [x; y; z; w] /\ NoDup [x; y; z; w].
Proof.
  intros H. split.
  - repeat constructor; lia.
  - apply NoDup_4. lia.
Qed.

(** Strictly sorted lists with the same members are the same list. *)
Lemma sorted_members_unique (l k : list Z) :
  Sorted Z.le l -> NoDup l -> Sorted Z.le k -> NoDup k ->
  (forall v, v ∈ l <-> v ∈ k) -> l = k.
Proof.
  intros Hl Hndl Hk Hndk Hmem.
  apply (Sorted_unique Z.le); [done | done |]. by apply NoDup_Permutation.
Qed.

Lemma compute_key_3_order (n0 n1 n2 m0 m1 m2 : Z) :
  [n0; n1; n2] ≡ₚ [m0; m1; m2] ->
  ElemBase.compute_key_3 n0 n1 n2 = ElemBase.compute_key_3 m0 m1 m2.
Proof.
  intros Hperm.
  destruct (compute_key_3_spec n0 n1 n2) as [Hn Hn'].
  destruct (compute_key_3_spec m0 m1 m2) as [Hm Hm'].
  destruct (decide (NoDup [n0; n1; n2])) as [Hnd | Hnd].
  - destruct (Hn Hnd) as (x & y & z & -> & Hs & Hmem).
    destruct (Hm (proj1 (NoDup_Permutation_proper _ _ Hperm) Hnd))
      as (x' & y' & z' & -> & Hs' & Hmem').
    apply strictly_sorted_3 in Hs as [Hs Hd]. apply strictly_sorted_3 in Hs' as [Hs' Hd'].
    assert (Heq : [x; y; z] = [x'; y'; z']).
    { apply sorted_members_unique; try done. intros v.
      rewrite Hmem, Hmem'. by rewrite Hperm. }
    by injection Heq as -> -> ->.
  - rewrite Hn' by done. rewrite Hm'; [done |]. by rewrite <- Hperm.
Qed.

Lemma compute_key_4_order (n0 n1 n2 n3 m0 m1 m2 m3 : Z) :
  [n0; n1; n2; n3] ≡ₚ [m0; m1; m2; m3] ->
  ElemBase.compute_key_4 n0 n1 n2 n3 = ElemBase.compute_key_4 m0 m1 m2 m3.
Proof.
  intros Hperm.
  destruct (compute_key_4_spec n0 n1 n2 n3) as [Hn Hn'].
  destruct (compute_key_4_spec m0 m1 m2 m3) as [Hm Hm'].
  destruct (decide (NoDup [n0; n1; n2; n3])) as [Hnd | Hnd].
  - destruct (Hn Hnd) as (x & y & z & w & -> & Hs & Hmem).
    destruct (Hm (proj1 (NoDup_Permutation_proper _ _ Hperm) Hnd))
      as (x' & y' & z' & w' & -> & Hs' & Hmem').
    apply strictly_sorted_4 in Hs as [Hs Hd]. apply strictly_sorted_4 in Hs' as [Hs' Hd'].
    assert (Heq : [x; y; z; w] = [x'; y'; z'; w']).
    { apply sorted_members_unique; try done. intros v.
      rewrite Hmem, Hmem'. by rewrite Hperm. }
    by injection Heq as -> -> -> ->.
  - rewrite Hn' by done. rewrite Hm'; [done |]. by rewrite <- Hperm.
Qed.

(** X10.  The key of a side does not depend on the order in which its two, three
    or four nodes are given. *)
Theorem compute_key_order_independent :
  (forall n0 n1 : Z, ElemBase.compute_key_2 n0 n1 = ElemBase.compute_key_2 n1 n0) /\
  (forall n0 n1 n2 m0 m1 m2 : Z,
     [n0; n1; n2] ≡ₚ [m0; m1; m2] ->
     ElemBase.compute_key_3 n0 n1 n2 = ElemBase.compute_key_3 m0 m1 m2) /\
  (forall n0 n1 n2 n3 m0 m1 m2 m3 : Z,
     [n0; n1; n2; n3] ≡ₚ [m0; m1; m2; m3] ->
     ElemBase.compute_key_4 n0 n1 n2 n3 = ElemBase.compute_key_4 m0 m1 m2 m3).
Proof.
  split; [apply compute_key_2_comm |]. split; [apply compute_key_3_order |].
  apply compute_key_4_order.
Qed.

Lemma compute_key_order_independent_witness :
  ElemBase.compute_key_3 3 1 2 = ElemBase.compute_key_3 1 2 3.
Proof.
  destruct compute_key_order_independent as (_ & H3 & _).
  apply H3. apply (Permutation_cons_append [1; 2]%Z 3%Z).
Defined.

Lemma key_term_bound (n : Z) : (0 <= n mod ElemBase.bp < ElemBase.bp)%Z.
Proof. apply Z.mod_pos_bound. unfold ElemBase.bp. lia. Qed.

(** The sum of the terms of a key does not wrap around. *)
Lemma uadd_exact (a b bound : Z) :
  (0 <= a < bound)%Z -> (0 <= b < ElemBase.bp)%Z -> (bound <= 3 * ElemBase.bp)%Z ->
  ElemBase.uadd a b = (a + b)%Z /\ (0 <= a + b < bound + ElemBase.bp)%Z.
Proof.
  unfold ElemBase.uadd, to_unsigned, ElemBase.bp. intros Ha Hb Hbound.
  split; [apply Z.mod_small |]; lia.
Qed.

(** X11.  [compute_key] of three or four nodes passes its assertion exactly when
    the node ids are pairwise different; every key is the plain sum of its
    terms and lies below 2, 3 or 4 times the prime. *)
Theorem compute_key_defined :
  (forall n0 n1 : Z, (0 <= ElemBase.compute_key_2 n0 n1 < 2 * ElemBase.bp)%Z) /\
  (forall n0 n1 n2 : Z,
     (is_Some (ElemBase.compute_key_3 n0 n1 n2) <-> NoDup [n0; n1; n2]) /\
     forall key, ElemBase.compute_key_3 n0 n1 n2 = Some key ->
                 (0 <= key < 3 * ElemBase.bp)%Z) /\
  (forall n0 n1 n2 n3 : Z,
     (is_Some (ElemBase.compute_key_4 n0 n1 n2 n3) <-> NoDup [n0; n1; n2; n3]) /\
     forall key, ElemBase.compute_key_4 n0 n1 n2 n3 = Some key ->
                 (0 <= key < 4 * ElemBase.bp)%Z).
Proof.
  split; [| split].
  - intros n0 n1. unfold ElemBase.compute_key_2. destruct (ElemBase.order n0 n1) as [a b].
    destruct (uadd_exact (a mod ElemBase.bp) (ElemBase.shl b 5 mod ElemBase.bp) ElemBase.bp)
      as [-> H]; [apply key_term_bound | apply key_term_bound | unfold ElemBase.bp; lia |].
    lia.
  - intros n0 n1 n2. destruct (compute_key_3_spec n0 n1 n2) as [Hn Hn'].
    destruct (decide (NoDup [n0; n1; n2])) as [Hnd | Hnd].
    + destruct (Hn Hnd) as (x & y & z & Hkey & _). rewrite Hkey. split; [done |].
      intros key [= <-].
      destruct (uadd_exact (x mod ElemBase.bp) (ElemBase.shl y 5 mod ElemBase.bp) ElemBase.bp)
        as [-> H1]; [apply key_term_bound | apply key_term_bound | unfold ElemBase.bp; lia |].
      destruct (uadd_exact (x mod ElemBase.bp + ElemBase.shl y 5 mod ElemBase.bp)
                  (ElemBase.shl z 10 mod ElemBase.bp) (ElemBase.bp + ElemBase.bp))
        as [-> H2]; [done | apply key_term_bound | unfold ElemBase.bp; lia |].
      lia.
    + rewrite (Hn' Hnd). split; [| done]. split; [by intros [? ?] | done].
  - intros n0 n1 n2 n3. destruct (compute_key_4_spec n0 n1 n2 n3) as [Hn Hn'].
    destruct (decide (NoDup [n0; n1; n2; n3])) as [Hnd | Hnd].
    + destruct (Hn Hnd) as (x & y & z & w & Hkey & _). rewrite Hkey. split; [done |].
      intros key [= <-].
      destruct (uadd_exact (x mod ElemBase.bp) (ElemBase.shl y 5 mod ElemBase.bp) ElemBase.bp)
        as [-> H1]; [apply key_term_bound | apply key_term_bound | unfold ElemBase.bp; lia |].
      destruct (uadd_exact (x mod ElemBase.bp + ElemBase.shl y 5 mod ElemBase.bp)
                  (ElemBase.shl z 10 mod ElemBase.bp) (ElemBase.bp + ElemBase.bp))
        as [-> H2]; [done | apply key_term_bound | unfold ElemBase.bp; lia |].
      destruct (uadd_exact (x mod ElemBase.bp + ElemBase.shl y 5 mod ElemBase.bp
                            + ElemBase.shl z 10 mod ElemBase.bp)
                  (ElemBase.shl w 15 mod ElemBase.bp)
                  (ElemBase.bp + ElemBase.bp + ElemBase.bp))
        as [-> H3]; [done | apply key_term_bound | unfold ElemBase.bp; lia |].
      lia.
    + rewrite (Hn' Hnd). split; [| done]. split; [by intros [? ?] | done].
Qed.

Lemma compute_key_defined_witness :
  is_Some (ElemBase.compute_key_3 3 1 2) /\ ~ is_Some (ElemBase.compute_key_3 3 1 3).
Proof.
  destruct compute_key_defined as (_ & H3 & _). split.
  - apply (proj1 (H3 3 1 2))%Z. apply NoDup_3. lia.
  - intros Hkey. apply (proj1 (H3 3 1 3))%Z, NoDup_3 in Hkey. lia.
Defined.

(** ** Neighbours *)

(** X12.  An element is on the boundary exactly when one of its sides is, and on
    an interface exactly when one of its sides is; the question whether an
    element without sides is on an interface is a fatal error. *)
Theorem sides_decide (elem : ElemBase.Elem) :
  (ElemBase.on_boundary elem = true <->
   exists s, ElemBase.on_boundary_side elem s = Some true) /\
  (ElemBase.on_interface elem = Ok true <->
   exists s, ElemBase.on_interface_side elem s = Ok (Some true)) /\
  (ElemBase.on_interface elem = genius_error <-> ElemBase._neighbors elem = []).
Proof.
  unfold ElemBase.on_boundary, ElemBase.is_neighbor, ElemBase.on_boundary_side,
    ElemBase.on_interface, ElemBase.on_interface_side, ElemBase.neighbor,
    ElemBase.n_neighbors.
  split; [| split].
  - rewrite existsb_exists. split.
    + intros (nb & Hin & Hnb). apply bool_decide_eq_true in Hnb.
      apply list_elem_of_In, list_elem_of_lookup in Hin as [s Hs]. exists s. rewrite Hs.
      destruct nb; [done |]. by rewrite bool_decide_eq_true_2.
    + intros (s & Hs). destruct (ElemBase._neighbors elem !! s) as [nb|] eqn:Hnb; [| done].
      injection Hs as Hs. apply bool_decide_eq_true in Hs as ->.
      exists None. split; [| by apply bool_decide_eq_true].
      by apply list_elem_of_In, list_elem_of_lookup_2 with s.
  - destruct (Nat.ltb 0 (length (ElemBase._neighbors elem))) eqn:Hlt;
      cbn [genius_assert bind].
    + split.
      * intros [= Hex]. apply existsb_exists in Hex as (nb & Hin & Hnb).
        apply list_elem_of_In, list_elem_of_lookup in Hin as [s Hs]. exists s. rewrite Hs.
        destruct nb as [nb|]; [| done]. by rewrite Hnb.
      * intros (s & Hs). f_equal. apply existsb_exists.
        destruct (ElemBase._neighbors elem !! s) as [[nb|]|] eqn:Hnb; try done.
        injection Hs as Hs. exists (Some nb). split; [| done].
        by apply list_elem_of_In, list_elem_of_lookup_2 with s.
    + split; [done |]. by intros [s Hs].
  - destruct (ElemBase._neighbors elem) as [|nb0 nbs]; simpl; split; done.
Qed.

Lemma sides_decide_witness :
  let elem := {| ElemBase._sbd_id := 0;
                 ElemBase._neighbors :=
                   [Some {| ElemBase.neighbor_elem := 1;
                            ElemBase.neighbor_subdomain_id := 0 |}; None] |} in
  exists s, ElemBase.on_boundary_side elem s = Some true.
Proof.
  intros elem. by apply (proj1 (sides_decide elem)).
Defined.

(** ** The particle source *)

(** X13.  The generation rate of a particle source with a non-zero
    characteristic time lies between 0 and 1, is 0 before the incidence of
    the particle, is 1 at the time of the maximum when that is not before
    the incidence, and is never a positive number at or below [exp(-30)]. *)
Theorem carrier_generation_range (_t0 _t_max _t_char t : R) :
  _t_char <> 0 ->
  0 <= Particle_Source.carrier_generation _t0 _t_max _t_char t <= 1 /\
  (t < _t0 -> Particle_Source.carrier_generation _t0 _t_max _t_char t = 0) /\
  (_t0 <= _t_max -> Particle_Source.carrier_generation _t0 _t_max _t_char _t_max = 1) /\
  (Particle_Source.carrier_generation _t0 _t_max _t_char t <> 0 ->
   exp (- 30) < Particle_Source.carrier_generation _t0 _t_max _t_char t).
Proof.
  intros Hc. unfold Particle_Source.carrier_generation.
  assert (Hcc : 0 < _t_char * _t_char) by apply (Rsqr_pos_lt _ Hc).
  assert (Hu : 0 <= (t - _t_max) * (t - _t_max) / (_t_char * _t_char)).
  { apply Rmult_le_pos; [apply (Rle_0_sqr (t - _t_max)) |]. left.
    by apply Rinv_0_lt_compat. }
  assert (Heq : - (t - _t_max) * (t - _t_max) / (_t_char * _t_char)
                = - ((t - _t_max) * (t - _t_max) / (_t_char * _t_char))) by (field; lra).
  split; [| split; [| split]].
  - destruct (Rge_dec t _t0); [| lra]. destruct (Rlt_dec _ _); [| lra].
    rewrite Heq. split; [left; apply exp_pos |].
    rewrite <- exp_0. destruct Hu as [Hu | <-].
    + left. apply exp_increasing. lra.
    + rewrite Ropp_0. lra.
  - intros Ht. destruct (Rge_dec t _t0); [lra | done].
  - intros Ht. destruct (Rge_dec _t_max _t0); [| lra].
    replace (_t_max - _t_max) with 0 by ring.
    rewrite Ropp_0, !Rmult_0_l. unfold Rdiv. rewrite !Rmult_0_l.
    destruct (Rlt_dec 0 30); [apply exp_0 | lra].
  - destruct (Rge_dec t _t0); [| done]. destruct (Rlt_dec _ _) as [Hlt |]; [| done].
    intros _. rewrite Heq. apply exp_increasing. lra.
Qed.

Lemma carrier_generation_range_witness :
  0 <= Particle_Source.carrier_generation 0 2 1 1 <= 1.
Proof.
  destruct (carrier_generation_range 0 2 1 1) as [H _]; [lra | exact H].
Defined.

(** ** The error estimate rejects what it does not know *)

(** X14.  [LTE_norm] ends in [genius_error] as soon as the system has a region of
    a type its switch has no case for. *)
Theorem LTE_norm_rejects (spec : SolverSpecify) (_system : SimulationSystem)
    (is_last_processor : bool) (others : list Z) (x x_n x_n1 x_n2 xp LTE : list R)
    (region : SimulationRegion) :
  region ∈ regions _system -> type region = PMLRegion ->
  EBM3Solver.LTE_norm spec _system is_last_processor others x x_n x_n1 x_n2 xp LTE
  = genius_error.
Proof.
  intros Hin Htype. unfold EBM3Solver.LTE_norm. cbv zeta.
  rewrite (foldM_abort _ _ region Hin); [done |].
  intros st. unfold EBM3Solver.LTE_region. by rewrite Htype.
Qed.

Lemma LTE_norm_rejects_witness :
  EBM3Solver.LTE_norm steady_state
    {| regions := [one_region PMLRegion plain_model 1 0];
       bcs_array_offset := []; T_external := 300 |}
    true [] [5] [5] [5] [] [0] [0]
  = genius_error.
Proof.
  apply (LTE_norm_rejects _ _ _ _ _ _ _ _ _ _ (one_region PMLRegion plain_model 1 0)).
  - by apply list_elem_of_In; left.
  - reflexivity.
Defined.

(** ** The predictor *)

Lemma VecAXPY_get (y x : list R) (a : R) (i : nat) :
  (i < length y)%nat -> (i < length x)%nat ->
  VecGetValue (VecAXPY y a x) i = VecGetValue y i + a * VecGetValue x i.
Proof.
  intros Hy Hx. unfold VecAXPY, VecGetValue.
  apply lookup_lt_is_Some in Hy as [yi Hyi]. apply lookup_lt_is_Some in Hx as [xi Hxi].
  rewrite lookup_zip_with, Hyi, Hxi. done.
Qed.

Lemma length_VecAXPY (y x : list R) (a : R) :
  length (VecAXPY y a x) = Nat.min (length y) (length x).
Proof. apply length_zip_with. Qed.

Lemma VecZeroEntries_get (v : list R) (i : nat) : VecGetValue (VecZeroEntries v) i = 0.
Proof.
  unfold VecZeroEntries, VecGetValue.
  destruct (replicate (length v) 0 !! i) as [a|] eqn:Ha; [| done].
  by apply lookup_replicate in Ha as [-> _].
Qed.

(** X15.  The predicted solution is the extrapolation of the previous solutions
    to the new time: with the first-order scheme it continues a history that
    is linear in time exactly, with the second-order scheme a history that is
    quadratic in time.  [a + b*t + c*t^2] is the history of entry [i], the
    last accepted solution being at [t = 0]. *)
Theorem predictor_exact (spec : SolverSpecify) (xp x_n x_n1 x_n2 : list R) (i : nat)
    (a b c : R) :
  let hn := dt spec in
  let hn1 := dt_last spec in
  let hn2 := dt_last_last spec in
  0 < hn1 -> 0 < hn2 ->
  (i < length xp)%nat -> (i < length x_n)%nat -> (i < length x_n1)%nat ->
  (i < length x_n2)%nat ->
  VecGetValue x_n i = a ->
  VecGetValue x_n1 i = a - b * hn1 + c * (hn1 * hn1) ->
  VecGetValue x_n2 i = a - b * (hn1 + hn2) + c * ((hn1 + hn2) * (hn1 + hn2)) ->
  (TS_type spec = BDF1 -> c = 0 ->
   VecGetValue (EBM3Solver.predictor spec xp x_n x_n1 x_n2) i = a + b * hn) /\
  (TS_type spec = BDF2 ->
   VecGetValue (EBM3Solver.predictor spec xp x_n x_n1 x_n2) i = a + b * hn + c * (hn * hn)).
Proof.
  intros hn hn1 hn2 H1 H2 Hxp Hn Hn1 Hn2 Ha Hb Hc.
  assert (Hz : (i < length (VecZeroEntries xp))%nat)
    by (unfold VecZeroEntries; by rewrite length_replicate).
  unfold EBM3Solver.predictor. cbv zeta. fold hn hn1 hn2. split.
  - intros -> ->. rewrite !VecAXPY_get, VecZeroEntries_get, Ha, Hb;
      rewrite ?length_VecAXPY; try lia.
    field. lra.
  - intros ->. rewrite !VecAXPY_get, VecZeroEntries_get, Ha, Hb, Hc;
      rewrite ?length_VecAXPY; try lia.
    field. lra.
Qed.

Lemma predictor_exact_witness :
  VecGetValue (EBM3Solver.predictor
                 {| TimeDependent := true; TS_type := BDF2; BDF2_restart := false;
                    dt := 1; dt_last := 1; dt_last_last := 1;
                    TS_rtol := 1; TS_atol := 1; potential_update := 1 |}
                 [0] [1] [0] [1]) 0
  = 1 + 2 * 1 + 1 * (1 * 1).
Proof.
  refine (proj2 (predictor_exact
                   {| TimeDependent := true; TS_type := BDF2; BDF2_restart := false;
                      dt := 1; dt_last := 1; dt_last_last := 1;
                      TS_rtol := 1; TS_atol := 1; potential_update := 1 |}
                   [0] [1] [0] [1] 0 1 2 1 _ _ _ _ _ _ _ _ _) eq_refl);
    simpl; try lia; try lra; unfold VecGetValue; simpl; lra.
Defined.

(** ** The homogeneous interface *)

(** X16.  [DDM1_Function_Preprocess] extends the three vectors together: the
    rows it asks to clear are the rows it asks to add elsewhere, and it names
    as many destinations as sources; what the vectors held before stays in
    front. *)
Theorem homo_interface_rows_lockstep (me : nat) (bd_nodes : list BoundaryNode)
    (rs rs' : RowSurgery) :
  HomoInterfaceBC.DDM1_Function_Preprocess me bd_nodes rs = Ok rs' ->
  exists src dst : list nat,
    src_row rs' = src_row rs ++ src /\
    clear_row rs' = clear_row rs ++ src /\
    dst_row rs' = dst_row rs ++ dst /\
    length src = length dst.
Proof.
  set (P := fun (rs : RowSurgery) (rs' : RowSurgery) =>
              exists src dst : list nat,
                src_row rs' = src_row rs ++ src /\
                clear_row rs' = clear_row rs ++ src /\
                dst_row rs' = dst_row rs ++ dst /\
                length src = length dst).
  assert (Hrefl : forall rs, P rs rs).
  { intros r. exists [], []. by rewrite !app_nil_r. }
  assert (Htrans : forall r1 r2 r3, P r1 r2 -> P r2 r3 -> P r1 r3).
  { intros r1 r2 r3 (s1 & d1 & Hs1 & Hc1 & Hd1 & Hl1) (s2 & d2 & Hs2 & Hc2 & Hd2 & Hl2).
    exists (s1 ++ s2), (d1 ++ d2).
    rewrite Hs2, Hc2, Hd2, Hs1, Hc1, Hd1, !length_app, Hl1, Hl2, !app_assoc. done. }
  assert (Hregion : forall fvm0 r rn r',
            HomoInterfaceBC.Preprocess_region fvm0 r rn = Ok r' -> P r r').
  { intros fvm0 r rn r'. unfold HomoInterfaceBC.Preprocess_region.
    destruct (type rn.1); intros [= <-]; simpl.
    - by eexists [_; _; _], [_; _; _].
    - by eexists [_], [_]. }
  assert (Hnode : forall r nd r', HomoInterfaceBC.Preprocess_node me r nd = Ok r' -> P r r').
  { intros r nd r'. unfold HomoInterfaceBC.Preprocess_node.
    destruct (negb _); [intros [= <-]; apply Hrefl |].
    destruct (region_node nd) as [|rn0 others]; [intros [= <-]; apply Hrefl |].
    apply (foldM_invariant _ (P r)); [| apply Hrefl].
    intros a b a' _ Ha Hb. apply (Htrans _ a); [done |]. by apply (Hregion rn0.2 a b). }
  unfold HomoInterfaceBC.DDM1_Function_Preprocess.
  apply (foldM_invariant _ (P rs)); [| apply Hrefl].
  intros a b a' _ Ha Hb. apply (Htrans _ a); [done |]. by apply (Hnode a b).
Qed.

Lemma homo_interface_rows_lockstep_witness :
  exists (rs' : RowSurgery) (src dst : list nat),
    HomoInterfaceBC.DDM1_Function_Preprocess 0
      [shared_node [SemiconductorRegion; SemiconductorRegion]] no_surgery = Ok rs' /\
    src_row rs' = src_row no_surgery ++ src /\
    clear_row rs' = clear_row no_surgery ++ src /\
    length src = length dst.
Proof.
  eexists.
  destruct (homo_interface_rows_lockstep 0
              [shared_node [SemiconductorRegion; SemiconductorRegion]] no_surgery _ eq_refl)
    as (src & dst & Hs & Hc & _ & Hl).
  exists src, dst. split; [reflexivity |]. split; [exact Hs |]. split; [exact Hc | exact Hl].
Defined.

(** X17.  [DDM1_Function] insists that the first region of every boundary node of
    this processor is a semiconductor region: any other type there is a fatal
    error, also where [DDM1_Function_Preprocess] has accepted the node. *)
Theorem homo_interface_reference_region (me : nat) (bd_nodes : list BoundaryNode)
    (x f : list R) (add_value_flag : InsertMode) (nd : BoundaryNode)
    (rn0 : SimulationRegion * FVM_Node) (others : list (SimulationRegion * FVM_Node)) :
  nd ∈ bd_nodes -> processor_id nd = me -> region_node nd = rn0 :: others ->
  type rn0.1 <> SemiconductorRegion ->
  HomoInterfaceBC.DDM1_Function me bd_nodes x f add_value_flag = genius_error.
Proof.
  intros Hin Hme Hrn Htype.
  unfold HomoInterfaceBC.DDM1_Function, HomoInterfaceBC.DDM1_Function_buffer.
  rewrite (foldM_abort _ _ nd Hin); [done |].
  intros buf. unfold HomoInterfaceBC.Function_node.
  rewrite Hme, Nat.eqb_refl, Hrn. simpl.
  by destruct (type rn0.1).
Qed.

Lemma homo_interface_reference_region_witness :
  let bd := [shared_node [InsulatorRegion]] in
  HomoInterfaceBC.DDM1_Function_Preprocess 0 bd no_surgery = Ok no_surgery /\
  HomoInterfaceBC.DDM1_Function 0 bd [1] [0] NOT_SET_VALUES = genius_error.
Proof.
  intros bd. split; [reflexivity |].
  by eapply (homo_interface_reference_region 0 bd [1] [0] NOT_SET_VALUES
               (shared_node [InsulatorRegion]));
    [apply list_elem_of_In; left | reflexivity | reflexivity |].
Defined.

(** ** The resistive region *)

Lemma added_into_zero (ix : list nat) :
  forall (y : list R) (d : nat), zero_vector y -> added_into ix y d = 0.
Proof.
  induction ix as [|i ix IH]; intros [|a y] d Hz; simpl; try done.
  apply Forall_cons in Hz as [-> Hz]. rewrite IH by done.
  destruct (Nat.eqb i d); lra.
Qed.

(** Adding zeros changes no entry. *)
Lemma VecSetValues_ADD_zero (ix : list nat) (y v : list R) (d : nat) :
  zero_vector y -> VecGetValue (VecSetValues v ix y ADD_VALUES) d = VecGetValue v d.
Proof.
  intros Hz. destruct (decide (d < length v)%nat) as [Hd | Hd].
  - rewrite VecSetValues_ADD_get by done. rewrite added_into_zero by done. lra.
  - rewrite !VecGetValue_ge; [done | lia | rewrite length_VecSetValues; lia].
Qed.

Section Metal.

Variable sigma : R.
Variable x : list R.

(** The buffers of the edge loop stay in lockstep. *)
Lemma metal_edge_loop_lockstep (edges : list Edge) :
  forall st : list nat * list R,
    length st.1 = length st.2 ->
    length (foldl (MetalSimulationRegion.edge_step sigma x) st edges).1 = length (foldl (MetalSimulationRegion.edge_step sigma x) st edges).2.
Proof.
  induction edges as [|edge edges IH]; intros st Hst; cbn [foldl]; [done |].
  apply IH. unfold MetalSimulationRegion.edge_step.
  destruct (on_processor (fvm_n1 edge)), (on_processor (fvm_n2 edge)); simpl;
    rewrite ?length_app; simpl; lia.
Qed.

(** Where the potential is the same at both ends of every edge, no flux is
    buffered but zeros. *)
Lemma metal_edge_loop_uniform (edges : list Edge) :
  (forall edge, edge ∈ edges ->
     VecGetValue x (local_offset (fvm_n1 edge)) = VecGetValue x (local_offset (fvm_n2 edge))) ->
  forall st : list nat * list R,
    zero_vector st.2 -> zero_vector (foldl (MetalSimulationRegion.edge_step sigma x) st edges).2.
Proof.
  induction edges as [|edge edges IH]; intros Hx st Hst; cbn [foldl]; [done |].
  apply IH; [intros e He; apply Hx; by right |].
  assert (Hf : MetalSimulationRegion.flux sigma x edge = 0).
  { unfold MetalSimulationRegion.flux. cbv zeta. rewrite (Hx edge) by (by left).
    unfold Rdiv. ring. }
  unfold MetalSimulationRegion.edge_step. rewrite Hf.
  destruct (on_processor (fvm_n1 edge)), (on_processor (fvm_n2 edge)); simpl;
    unfold zero_vector in *; rewrite ?Forall_app; repeat split; try done;
    repeat constructor; lra.
Qed.

(** On a mesh without ghost nodes the buffered fluxes cancel in pairs. *)
Lemma metal_edge_loop_sum (edges : list Edge) :
  SemiconductorSimulationRegion.edges_on_processor edges = true ->
  forall st : list nat * list R,
    sum_list (foldl (MetalSimulationRegion.edge_step sigma x) st edges).2 = sum_list st.2 /\
    forall i, i ∈ (foldl (MetalSimulationRegion.edge_step sigma x) st edges).1 ->
              i ∈ st.1 \/ exists edge, edge ∈ edges /\
                            (i = global_offset (fvm_n1 edge) \/ i = global_offset (fvm_n2 edge)).
Proof.
  induction edges as [|edge edges IH]; intros Hon st; cbn [foldl].
  - split; [done |]. intros i Hi. by left.
  - simpl in Hon. apply andb_prop in Hon as [Hedge Hon].
    apply andb_prop in Hedge as [H1 H2].
    destruct (IH Hon (MetalSimulationRegion.edge_step sigma x st edge)) as [Hsum Hrows]. split.
    + rewrite Hsum. unfold MetalSimulationRegion.edge_step. rewrite H1, H2. simpl.
      rewrite !sum_list_app. unfold sum_list. simpl. lra.
    + intros i Hi. destruct (Hrows i Hi) as [Hst | (e & He & Hie)].
      * unfold MetalSimulationRegion.edge_step in Hst. rewrite H1, H2 in Hst. simpl in Hst.
        rewrite !elem_of_app, !list_elem_of_singleton in Hst.
        destruct Hst as [[Hst | ->] | ->]; [by left | |];
          right; exists edge; (split; [by left | auto]).
      * right. exists e. split; [by right | done].
Qed.

End Metal.

(** X18.  A potential that is the same at both ends of every edge is a solution
    of the interior equations of the resistive region: [DDM1_Function] leaves
    every entry of the residual as it was. *)
Theorem metal_uniform_potential (sigma : R) (edges : list Edge) (x f : list R)
    (add_value_flag : InsertMode) :
  (forall edge, edge ∈ edges ->
     VecGetValue x (local_offset (fvm_n1 edge)) = VecGetValue x (local_offset (fvm_n2 edge))) ->
  forall i,
    VecGetValue (MetalSimulationRegion.DDM1_Function sigma edges x f add_value_flag).1 i
    = VecGetValue f i.
Proof.
  intros Hx i. unfold MetalSimulationRegion.DDM1_Function. cbv zeta. cbn [fst].
  case_bool_decide; [done |].
  apply VecSetValues_ADD_zero. apply metal_edge_loop_uniform; [done | constructor].
Qed.

Lemma metal_uniform_potential_witness :
  VecGetValue (MetalSimulationRegion.DDM1_Function 2 [two_node_edge] [5; 0; 0; 5] [1; 1; 1; 1]
                 NOT_SET_VALUES).1 0
  = VecGetValue [1; 1; 1; 1] 0.
Proof.
  apply metal_uniform_potential. intros edge Hedge.
  apply list_elem_of_singleton in Hedge as ->. reflexivity.
Defined.

(** X19.  Current continuity: on a mesh of this processor alone, whose rows lie
    within the residual, [DDM1_Function] leaves the sum of the residual as it
    was: what flows out of one control volume flows into its neighbour. *)
Theorem metal_current_conserved (sigma : R) (edges : list Edge) (x f : list R)
    (add_value_flag : InsertMode) :
  SemiconductorSimulationRegion.edges_on_processor edges = true ->
  (forall edge, edge ∈ edges ->
     (global_offset (fvm_n1 edge) < length f)%nat /\
     (global_offset (fvm_n2 edge) < length f)%nat) ->
  sum_list (MetalSimulationRegion.DDM1_Function sigma edges x f add_value_flag).1
  = sum_list f.
Proof.
  intros Hon Hrows. unfold MetalSimulationRegion.DDM1_Function. cbv zeta. cbn [fst].
  case_bool_decide; [done |].
  destruct (metal_edge_loop_sum sigma x edges Hon ([], [])) as [Hsum Hin].
  rewrite sum_list_VecSetValues_ADD.
  - rewrite Hsum. unfold sum_list. simpl. lra.
  - by apply metal_edge_loop_lockstep.
  - intros i Hi. destruct (Hin i Hi) as [Hnil | (edge & Hedge & [-> | ->])].
    + by apply elem_of_nil in Hnil.
    + by apply Hrows.
    + by apply Hrows.
Qed.

Lemma metal_current_conserved_witness :
  sum_list (MetalSimulationRegion.DDM1_Function 2 [two_node_edge] [5; 0; 0; 7] [1; 1; 1; 1]
              NOT_SET_VALUES).1
  = sum_list [1; 1; 1; 1].
Proof.
  apply metal_current_conserved; [reflexivity |].
  intros edge Hedge. apply list_elem_of_singleton in Hedge as ->. simpl. lia.
Defined.

Lemma VecSetValues_INSERT_untouched (ix : list nat) (y v : list R) (d : nat) :
  d ∉ ix -> VecGetValue (VecSetValues v ix y INSERT_VALUES) d = VecGetValue v d.
Proof.
  revert y v. induction ix as [|i ix IH]; intros [|a y] v Hd; simpl; try done.
  apply not_elem_of_cons in Hd as [Hne Hd].
  rewrite IH by done. by apply VecGetValue_insert_ne.
Qed.

(** Inserting a batch whose rows are all different stores every value at
    its row. *)
Lemma VecSetValues_INSERT_get (ix : list nat) :
  forall (y v : list R) (k i : nat) (a : R),
    NoDup ix -> ix !! k = Some i -> y !! k = Some a -> (i < length v)%nat ->
    VecGetValue (VecSetValues v ix y INSERT_VALUES) i = a.
Proof.
  induction ix as [|j ix IH]; intros [|b y] v k i a Hnd Hk Ha Hi; try done.
  apply NoDup_cons in Hnd as [Hj Hnd]. destruct k as [|k]; simpl in *.
  - injection Hk as ->. injection Ha as ->.
    rewrite VecSetValues_INSERT_untouched by done. by apply VecGetValue_insert_eq.
  - apply (IH y _ k); try done. by rewrite length_insert.
Qed.

(** X20.  Filling the solution vector from the nodes and updating the nodes from
    it gives every node the potential it had, now also as the potential of
    the step before; the scaling vector holds [1/(sigma*volume)] at the row of
    every node. *)
Theorem metal_fill_update (sigma : R) (volume : FVM_Node -> R) (nodes : list FVM_Node)
    (x L : list R) :
  NoDup (map global_offset nodes) ->
  (forall fvm_node, fvm_node ∈ nodes ->
     local_offset fvm_node = global_offset fvm_node /\
     (global_offset fvm_node < length x)%nat /\ (global_offset fvm_node < length L)%nat) ->
  let filled := MetalSimulationRegion.DDM1_Fill_Value sigma volume nodes x L in
  let updated := MetalSimulationRegion.DDM1_Update_Solution nodes filled.1 in
  map (fun fvm_node => psi (node_data fvm_node)) updated
  = map (fun fvm_node => psi (node_data fvm_node)) nodes /\
  map (fun fvm_node => psi_last (node_data fvm_node)) updated
  = map (fun fvm_node => psi (node_data fvm_node)) nodes /\
  forall fvm_node, fvm_node ∈ nodes ->
    VecGetValue filled.2 (global_offset fvm_node) = 1.0 / (sigma * volume fvm_node).
Proof.
  intros Hnd Hnodes filled updated.
  assert (Hget : forall fvm_node, fvm_node ∈ nodes ->
            VecGetValue filled.1 (global_offset fvm_node) = psi (node_data fvm_node) /\
            VecGetValue filled.2 (global_offset fvm_node) = 1.0 / (sigma * volume fvm_node)).
  { intros nd Hin. unfold filled, MetalSimulationRegion.DDM1_Fill_Value. cbv zeta.
    destruct (Hnodes nd Hin) as (_ & Hx & HL).
    apply list_elem_of_lookup in Hin as [k Hk].
    case_bool_decide as Hnil.
    - apply (f_equal (fun l => l !! k)) in Hnil. by rewrite list_lookup_fmap, Hk in Hnil.
    - cbn [fst snd]. split.
      + apply (VecSetValues_INSERT_get _ _ _ k); try done;
          by rewrite list_lookup_fmap, Hk.
      + apply (VecSetValues_INSERT_get _ _ _ k); try done;
          by rewrite list_lookup_fmap, Hk. }
  split; [| split].
  - unfold updated, MetalSimulationRegion.DDM1_Update_Solution. rewrite map_map. simpl.
    apply map_ext_in. intros nd Hin. apply list_elem_of_In in Hin.
    destruct (Hnodes nd Hin) as (-> & _). by apply Hget.
  - unfold updated, MetalSimulationRegion.DDM1_Update_Solution. by rewrite map_map.
  - intros nd Hin. by apply Hget.
Qed.

Lemma metal_fill_update_witness :
  let nodes := [fvm_at 0 0; fvm_at 1 1] in
  map (fun fvm_node => psi (node_data fvm_node))
      (MetalSimulationRegion.DDM1_Update_Solution nodes
         (MetalSimulationRegion.DDM1_Fill_Value 2 (fun _ => 1) nodes [7; 7] [1; 1]).1)
  = map (fun fvm_node => psi (node_data fvm_node)) nodes.
Proof.
  intros nodes.
  refine (proj1 (metal_fill_update 2 (fun _ => 1) nodes [7; 7] [1; 1] _ _)).
  - apply NoDup_cons. split; [| apply NoDup_singleton].
    intros Hin. by apply list_elem_of_singleton in Hin.
  - intros nd Hin. apply list_elem_of_In in Hin. simpl in Hin.
    destruct Hin as [<- | [<- | []]]; simpl; lia.
Defined.

(** ** The time derivative of the carrier densities *)

Lemma decimal_one : 1.0 = 1.
Proof. lra. Qed.

(** Both schemes differentiate a density that is linear in time exactly. *)
Lemma time_terms_linear (spec : SolverSpecify) (volume : FVM_Node -> R)
    (n p n_last p_last : FVM_NodeData -> R) (x : list R) (bn bp : FVM_Node -> R)
    (fvm_node : FVM_Node) :
  0 < dt spec -> 0 < dt_last spec ->
  VecGetValue x (local_offset fvm_node + 1)
  = n (node_data fvm_node) + bn fvm_node * dt spec ->
  VecGetValue x (local_offset fvm_node + 2)
  = p (node_data fvm_node) + bp fvm_node * dt spec ->
  (SemiconductorTimeDerivative.second_order spec = true ->
   n_last (node_data fvm_node) = n (node_data fvm_node) - bn fvm_node * dt_last spec /\
   p_last (node_data fvm_node) = p (node_data fvm_node) - bp fvm_node * dt_last spec) ->
  SemiconductorTimeDerivative.time_terms spec volume n p n_last p_last x fvm_node
  = [- bn fvm_node * volume fvm_node; - bp fvm_node * volume fvm_node].
Proof.
  intros Hdt Hdl Hn Hp Hlast.
  unfold SemiconductorTimeDerivative.time_terms. cbv zeta. rewrite Hn, Hp.
  destruct (SemiconductorTimeDerivative.second_order spec).
  - destruct (Hlast eq_refl) as [-> ->]. rewrite !decimal_one.
    apply (f_equal2 (fun a b : R => [a; b])); field; lra.
  - apply (f_equal2 (fun a b : R => [a; b])); field; lra.
Qed.

Lemma time_terms_linear_all (spec : SolverSpecify) (volume : FVM_Node -> R)
    (n p n_last p_last : FVM_NodeData -> R) (x : list R) (bn bp : FVM_Node -> R)
    (nodes : list FVM_Node) :
  0 < dt spec -> 0 < dt_last spec ->
  (forall fvm_node, fvm_node ∈ nodes ->
     VecGetValue x (local_offset fvm_node + 1)
     = n (node_data fvm_node) + bn fvm_node * dt spec /\
     VecGetValue x (local_offset fvm_node + 2)
     = p (node_data fvm_node) + bp fvm_node * dt spec /\
     (SemiconductorTimeDerivative.second_order spec = true ->
      n_last (node_data fvm_node) = n (node_data fvm_node) - bn fvm_node * dt_last spec /\
      p_last (node_data fvm_node) = p (node_data fvm_node) - bp fvm_node * dt_last spec)) ->
  flat_map (SemiconductorTimeDerivative.time_terms spec volume n p n_last p_last x) nodes
  = flat_map (fun fvm_node =>
                [- bn fvm_node * volume fvm_node; - bp fvm_node * volume fvm_node]) nodes.
Proof.
  intros Hdt Hdl. induction nodes as [|nd nodes IH]; intros Hall; cbn [flat_map]; [done |].
  destruct (Hall nd) as (Hn & Hp & Hlast); [by left |].
  rewrite (time_terms_linear spec volume n p n_last p_last x bn bp nd) by done.
  rewrite IH; [done |]. intros nd' Hin. apply Hall. by right.
Qed.

(** X21.  Where the carrier densities of every node are linear in time (the new
    value in [x], the stored value of the last step and, for the second-order
    scheme, the one of the step before), [DDM1_Time_Dependent_Function] adds
    to the rows of the two continuity equations of every node exactly minus
    the slope times the volume of the node, with the first-order as with the
    second-order scheme.  In particular it changes no entry of the residual
    when nothing moves. *)
Theorem time_derivative_exact (spec : SolverSpecify) (volume : FVM_Node -> R)
    (n p n_last p_last : FVM_NodeData -> R) (nodes : list FVM_Node) (x f : list R)
    (add_value_flag : InsertMode) (bn bp : FVM_Node -> R) :
  0 < dt spec -> 0 < dt_last spec ->
  (forall fvm_node, fvm_node ∈ nodes ->
     VecGetValue x (local_offset fvm_node + 1)
     = n (node_data fvm_node) + bn fvm_node * dt spec /\
     VecGetValue x (local_offset fvm_node + 2)
     = p (node_data fvm_node) + bp fvm_node * dt spec /\
     (SemiconductorTimeDerivative.second_order spec = true ->
      n_last (node_data fvm_node) = n (node_data fvm_node) - bn fvm_node * dt_last spec /\
      p_last (node_data fvm_node) = p (node_data fvm_node) - bp fvm_node * dt_last spec)) ->
  let result := SemiconductorTimeDerivative.DDM1_Time_Dependent_Function spec volume n p
                  n_last p_last nodes x f add_value_flag in
  result.1
  = VecSetValues f (flat_map SemiconductorTimeDerivative.time_rows nodes)
      (flat_map (fun fvm_node =>
                   [- bn fvm_node * volume fvm_node; - bp fvm_node * volume fvm_node]) nodes)
      ADD_VALUES /\
  ((forall fvm_node, fvm_node ∈ nodes -> bn fvm_node = 0 /\ bp fvm_node = 0) ->
   forall i, VecGetValue result.1 i = VecGetValue f i).
Proof.
  intros Hdt Hdl Hall result.
  assert (Hres : result.1
    = VecSetValues f (flat_map SemiconductorTimeDerivative.time_rows nodes)
        (flat_map (fun fvm_node =>
                     [- bn fvm_node * volume fvm_node; - bp fvm_node * volume fvm_node]) nodes)
        ADD_VALUES).
  { unfold result, SemiconductorTimeDerivative.DDM1_Time_Dependent_Function. cbv zeta.
    cbn [fst]. rewrite (time_terms_linear_all spec volume n p n_last p_last x bn bp) by done.
    case_bool_decide as Hnil; [| done]. rewrite Hnil. by destruct (flat_map _ nodes). }
  split; [done |]. intros Hsteady i. rewrite Hres. apply VecSetValues_ADD_zero.
  clear -Hsteady. induction nodes as [|nd nodes IH]; cbn [flat_map]; [constructor |].
  destruct (Hsteady nd) as [-> ->]; [by left |].
  repeat constructor; try lra. apply IH. intros nd' Hin. apply Hsteady. by right.
Qed.

Lemma time_derivative_exact_witness :
  let spec := {| TimeDependent := true; TS_type := BDF2; BDF2_restart := false;
                 dt := 1; dt_last := 2; dt_last_last := 1;
                 TS_rtol := 1; TS_atol := 1; potential_update := 1 |} in
  (SemiconductorTimeDerivative.DDM1_Time_Dependent_Function spec (fun _ => 1)
     (fun _ => 5) (fun _ => 5) (fun _ => 1) (fun _ => 3) [fvm_at 0 0] [0; 7; 6] [0; 0; 0]
     NOT_SET_VALUES).1
  = VecSetValues [0; 0; 0] [1; 2]%nat [- 2 * 1; - 1 * 1] ADD_VALUES.
Proof.
  intros spec. subst spec.
  refine (proj1 (time_derivative_exact _ (fun _ => 1) (fun _ => 5) (fun _ => 5)
                   (fun _ => 1) (fun _ => 3) [fvm_at 0 0] [0; 7; 6] [0; 0; 0] NOT_SET_VALUES
                   (fun _ => 2) (fun _ => 1) _ _ _)).
  - simpl. lra.
  - simpl. lra.
  - intros nd Hnd. apply list_elem_of_singleton in Hnd as ->.
    unfold VecGetValue. simpl. repeat split; intros; lra.
Defined.

(** ** The initial value of an electrode *)

Lemma Fill_Value_frame (is_last_processor : bool) (bc : OhmicContactBC) (x L : list R)
    (i : nat) :
  i <> bc_global_offset bc ->
  VecGetValue (OhmicContactInit.EBM3_Fill_Value is_last_processor bc x L).1 i
  = VecGetValue x i /\
  VecGetValue (OhmicContactInit.EBM3_Fill_Value is_last_processor bc x L).2 i
  = VecGetValue L i.
Proof.
  intros Hi. unfold OhmicContactInit.EBM3_Fill_Value, VecSetValue.
  destruct is_last_processor; [| done].
  destruct (is_inter_connect_bc bc), (is_voltage_driven (ext_circuit bc)),
    (is_current_driven (ext_circuit bc)); simpl;
    rewrite ?VecGetValue_insert_ne by done; done.
Qed.

Lemma Fill_Value_length (is_last_processor : bool) (bc : OhmicContactBC) (x L : list R) :
  length (OhmicContactInit.EBM3_Fill_Value is_last_processor bc x L).1 = length x.
Proof.
  unfold OhmicContactInit.EBM3_Fill_Value, VecSetValue.
  destruct is_last_processor; [| done].
  destruct (is_inter_connect_bc bc); simpl; by rewrite length_insert.
Qed.

Lemma Fill_Values_frame (is_last_processor : bool) (bcs : list OhmicContactBC) :
  forall (x L : list R) (i : nat),
    i ∉ map bc_global_offset bcs ->
    VecGetValue (OhmicContactInit.Fill_Values is_last_processor bcs x L).1 i
    = VecGetValue x i /\
    VecGetValue (OhmicContactInit.Fill_Values is_last_processor bcs x L).2 i
    = VecGetValue L i.
Proof.
  unfold OhmicContactInit.Fill_Values.
  induction bcs as [|bc bcs IH]; intros x L i Hi; cbn [foldl fst snd]; [done |].
  cbn [map] in Hi. apply not_elem_of_cons in Hi as [Hne Hi].
  destruct (OhmicContactInit.EBM3_Fill_Value is_last_processor bc x L) as [x1 L1] eqn:H1.
  destruct (IH x1 L1 i Hi) as [-> ->].
  destruct (Fill_Value_frame is_last_processor bc x L i Hne) as [Hx HL].
  rewrite H1 in Hx, HL. done.
Qed.

(** X22.  The last processor stores in the solution vector the potential of every
    electrode at the electrode's own row, the rows of the electrodes being
    different from one another, and nothing anywhere else; the other
    processors store nothing. *)
Theorem electrode_fill_values (bcs : list OhmicContactBC) (x L : list R) :
  NoDup (map bc_global_offset bcs) ->
  (forall bc, bc ∈ bcs -> (bc_global_offset bc < length x)%nat ->
     VecGetValue (OhmicContactInit.Fill_Values true bcs x L).1 (bc_global_offset bc)
     = potential (ext_circuit bc)) /\
  (forall i, i ∉ map bc_global_offset bcs ->
     VecGetValue (OhmicContactInit.Fill_Values true bcs x L).1 i = VecGetValue x i /\
     VecGetValue (OhmicContactInit.Fill_Values true bcs x L).2 i = VecGetValue L i) /\
  OhmicContactInit.Fill_Values false bcs x L = (x, L).
Proof.
  intros Hnd. split; [| split].
  - revert x L Hnd. unfold OhmicContactInit.Fill_Values.
    induction bcs as [|bc0 bcs IH]; intros x L Hnd bc Hin Hlen; cbn [foldl fst snd].
    + by apply elem_of_nil in Hin.
    + cbn [map] in Hnd. apply NoDup_cons in Hnd as [Hfresh Hnd].
      destruct (OhmicContactInit.EBM3_Fill_Value true bc0 x L) as [x1 L1] eqn:H1.
      pose proof (Fill_Value_length true bc0 x L) as Hlen1. rewrite H1 in Hlen1. simpl in Hlen1.
      apply elem_of_cons in Hin as [-> | Hin].
      * destruct (Fill_Values_frame true bcs x1 L1 (bc_global_offset bc0) Hfresh) as [Hx _].
        unfold OhmicContactInit.Fill_Values in Hx. rewrite Hx.
        assert (Hx1 : x1 = <[bc_global_offset bc0 := potential (ext_circuit bc0)]> x).
        { revert H1. unfold OhmicContactInit.EBM3_Fill_Value, VecSetValue.
          destruct (is_inter_connect_bc bc0); by intros [= <- _]. }
        rewrite Hx1. by apply VecGetValue_insert_eq.
      * apply IH; [done | done | by rewrite Hlen1].
  - intros i Hi. by apply Fill_Values_frame.
  - unfold OhmicContactInit.Fill_Values. clear Hnd.
    induction bcs as [|bc0 bcs IH]; cbn [foldl]; [done |]. exact IH.
Qed.

Lemma electrode_fill_values_witness :
  VecGetValue (OhmicContactInit.Fill_Values true [electrode (voltage_source 5)]
                 [0; 0; 0; 0; 0; 0; 0] [1; 1; 1; 1; 1; 1; 1]).1 6
  = potential (ext_circuit (electrode (voltage_source 5))).
Proof.
  refine (proj1 (electrode_fill_values [electrode (voltage_source 5)]
                   [0; 0; 0; 0; 0; 0; 0] [1; 1; 1; 1; 1; 1; 1] _)
                (electrode (voltage_source 5)) _ _).
  - apply NoDup_singleton.
  - by apply list_elem_of_singleton.
  - simpl. lia.
Defined.

(** ** The norms of the residual *)

(** A sum of squares vanishes only when every term does. *)
Lemma sum_squares_zero {A : Type} (g : A -> R) (l : list A) :
  0 <= sum_list (map (fun a => g a * g a) l) /\
  (sum_list (map (fun a => g a * g a) l) = 0 <-> forall a, a ∈ l -> g a = 0).
Proof.
  induction l as [|b l [IH0 IH]]; cbn [map]; rewrite ?sum_list_cons.
  - unfold sum_list. simpl. split; [lra |]. split; [| done].
    intros _ a Ha. by apply elem_of_nil in Ha.
  - pose proof (Rle_0_sqr (g b)) as Hb. unfold Rsqr in Hb. split; [lra |]. split.
    + intros Hsum a Ha. apply elem_of_cons in Ha as [-> | Ha].
      * assert (H0 : g b * g b = 0) by lra. by apply Rsqr_0_uniq in H0.
      * apply IH; [lra | done].
    + intros Hall. rewrite (Hall b) by (by left).
      rewrite (proj2 IH); [lra |]. intros a Ha. apply Hall. by right.
Qed.

(** What the residual contributes to the Poisson norm in one region. *)
Lemma semiconductor_nodes_poisson (region : SimulationRegion) (xx ff : list R)
    (nodes : list FVM_Node) :
  forall N : ErrorNorm.Norms,
    ErrorNorm.poisson_norm (foldl (ErrorNorm.semiconductor_node region xx ff) N nodes)
    = ErrorNorm.poisson_norm N
      + sum_list (map (fun fvm_node =>
                         VecGetValue ff (local_offset fvm_node
                                         + ebm_variable_offset region POTENTIAL)
                         * VecGetValue ff (local_offset fvm_node
                                           + ebm_variable_offset region POTENTIAL)) nodes) /\
    ErrorNorm.electrode_norm (foldl (ErrorNorm.semiconductor_node region xx ff) N nodes)
    = ErrorNorm.electrode_norm N.
Proof.
  induction nodes as [|nd nodes IH]; intros N; cbn [foldl map].
  - unfold sum_list. simpl. split; [lra | done].
  - destruct (IH (ErrorNorm.semiconductor_node region xx ff N nd)) as [-> ->].
    rewrite sum_list_cons. simpl. unfold ErrorNorm.squared. split; [lra | done].
Qed.

Lemma conductor_nodes_poisson (region : SimulationRegion) (xx ff : list R)
    (nodes : list FVM_Node) :
  forall N : ErrorNorm.Norms,
    ErrorNorm.poisson_norm (foldl (ErrorNorm.conductor_node region xx ff) N nodes)
    = ErrorNorm.poisson_norm N
      + sum_list (map (fun fvm_node =>
                         VecGetValue ff (local_offset fvm_node
                                         + ebm_variable_offset region POTENTIAL)
                         * VecGetValue ff (local_offset fvm_node
                                           + ebm_variable_offset region POTENTIAL)) nodes) /\
    ErrorNorm.electrode_norm (foldl (ErrorNorm.conductor_node region xx ff) N nodes)
    = ErrorNorm.electrode_norm N.
Proof.
  induction nodes as [|nd nodes IH]; intros N; cbn [foldl map].
  - unfold sum_list. simpl. split; [lra | done].
  - destruct (IH (ErrorNorm.conductor_node region xx ff N nd)) as [-> ->].
    rewrite sum_list_cons. simpl. unfold ErrorNorm.squared. split; [lra | done].
Qed.

(** The loop over the regions: it ends in an error exactly when it meets a
    region its switch has no case for, and otherwise adds to the Poisson norm
    the squared residual of the potential rows of every region that is not
    vacuum. *)
Lemma norm_regions_poisson (xx ff : list R) (regions : list SimulationRegion) :
  forall N : ErrorNorm.Norms,
    match foldM (ErrorNorm.norm_region xx ff) N regions with
    | Ok N' =>
        (forall region, region ∈ regions -> type region <> PMLRegion) /\
        ErrorNorm.electrode_norm N' = ErrorNorm.electrode_norm N /\
        exists rows : list (SimulationRegion * FVM_Node),
          ErrorNorm.poisson_norm N'
          = ErrorNorm.poisson_norm N
            + sum_list (map (fun rn : SimulationRegion * FVM_Node =>
                               VecGetValue ff (local_offset rn.2
                                               + ebm_variable_offset rn.1 POTENTIAL)
                               * VecGetValue ff (local_offset rn.2
                                                 + ebm_variable_offset rn.1 POTENTIAL)) rows) /\
          forall rn, rn ∈ rows <->
                     rn.1 ∈ regions /\ type rn.1 <> VacuumRegion /\
                     rn.2 ∈ on_processor_nodes rn.1
    | genius_error => exists region, region ∈ regions /\ type region = PMLRegion
    end.
Proof.
  induction regions as [|region regions IH]; intros N; cbn [foldM].
  - split; [intros r Hr; by apply elem_of_nil in Hr |]. split; [done |].
    exists []. split; [unfold sum_list; simpl; lra |].
    intros rn. split; [intros H; by apply elem_of_nil in H |].
    intros (H & _). by apply elem_of_nil in H.
  - assert (Hstep : match ErrorNorm.norm_region xx ff N region with
                    | Ok N1 =>
                        type region <> PMLRegion /\
                        ErrorNorm.electrode_norm N1 = ErrorNorm.electrode_norm N /\
                        ErrorNorm.poisson_norm N1
                        = ErrorNorm.poisson_norm N
                          + sum_list
                              (map (fun rn : SimulationRegion * FVM_Node =>
                                      VecGetValue ff (local_offset rn.2
                                                      + ebm_variable_offset rn.1 POTENTIAL)
                                      * VecGetValue ff (local_offset rn.2
                                                        + ebm_variable_offset rn.1 POTENTIAL))
                                 (if SimulationRegionType_eqb (type region) VacuumRegion
                                  then []
                                  else map (pair region) (on_processor_nodes region)))
                    | genius_error => type region = PMLRegion
                    end).
    { unfold ErrorNorm.norm_region.
      destruct (type region); simpl; rewrite ?map_map; simpl; try done;
        try (destruct (semiconductor_nodes_poisson region xx ff (on_processor_nodes region) N)
               as [-> ->]; done);
        try (destruct (conductor_nodes_poisson region xx ff (on_processor_nodes region) N)
               as [-> ->]; done).
      split; [done |]. split; [done |]. unfold sum_list. simpl. lra. }
    destruct (ErrorNorm.norm_region xx ff N region) as [N1|]; cbn [bind].
    + destruct Hstep as (Htype & He1 & Hp1). specialize (IH N1).
      destruct (foldM (ErrorNorm.norm_region xx ff) N1 regions) as [N'|].
      * destruct IH as (Hno & He & rows & Hp & Hrows).
        split; [intros r Hr; apply elem_of_cons in Hr as [-> | Hr]; [done | by apply Hno] |].
        split; [by rewrite He |].
        exists ((if SimulationRegionType_eqb (type region) VacuumRegion
                 then [] else map (pair region) (on_processor_nodes region)) ++ rows).
        split; [rewrite Hp, Hp1, map_app, sum_list_app; lra |].
        intros [r nd]. rewrite elem_of_app, Hrows, elem_of_cons. simpl. split.
        -- intros [Hin | (Hr & Hv & Hnd)]; [| by auto].
           destruct (type region) eqn:Ht; simpl in Hin;
             try (by apply elem_of_nil in Hin);
             apply list_elem_of_fmap in Hin as (nd' & [= -> ->] & Hnd');
             rewrite Ht; split; auto.
        -- intros ([-> | Hr] & Hv & Hnd); [| by auto]. left.
           destruct (type region) eqn:Ht; simpl; try done;
             apply list_elem_of_fmap; by exists nd.
      * destruct IH as (r & Hr & Ht). exists r. split; [by right | done].
    + exists region. split; [by left | done].
Qed.

Lemma norm_bcs_electrode (xx ff : list R) (offsets : list (option nat)) :
  forall N : ErrorNorm.Norms,
    ErrorNorm.poisson_norm (foldl (ErrorNorm.norm_bc xx ff) N offsets)
    = ErrorNorm.poisson_norm N /\
    ErrorNorm.electrode_norm (foldl (ErrorNorm.norm_bc xx ff) N offsets)
    = ErrorNorm.electrode_norm N
      + sum_list (map (fun offset => VecGetValue ff offset * VecGetValue ff offset)
                    (omap (fun offset : option nat => offset) offsets)).
Proof.
  induction offsets as [|[offset|] offsets IH]; intros N; cbn [foldl].
  - unfold sum_list. simpl. split; [done | lra].
  - destruct (IH (ErrorNorm.norm_bc xx ff N (Some offset))) as [-> ->].
    change (omap (fun offset : option nat => offset) (Some offset :: offsets))
      with (offset :: omap (fun offset : option nat => offset) offsets).
    cbn [map ErrorNorm.norm_bc ErrorNorm.poisson_norm ErrorNorm.electrode_norm].
    rewrite sum_list_cons. unfold ErrorNorm.squared. split; [done | lra].
  - apply IH.
Qed.

(** X23.  [error_norm] ends in a fatal error exactly when the system has a region
    of a type its switch has no case for.  On one processor, the norm of the
    Poisson equation it returns is zero exactly when the residual vanishes at
    the potential row of every node of every region that is not vacuum, and
    the norm of the electrode equations is zero exactly when the residual
    vanishes at the row of every boundary condition that has one. *)
Theorem error_norm_converged (_system : SimulationSystem)
    (bcs_local_offset : list (option nat)) (xx ff : list R) :
  (forall is_last_processor others,
     ErrorNorm.error_norm _system is_last_processor bcs_local_offset others xx ff
     = genius_error
     <-> exists region, region ∈ regions _system /\ type region = PMLRegion) /\
  (forall N,
     ErrorNorm.error_norm _system true bcs_local_offset [] xx ff = Ok N ->
     (ErrorNorm.poisson_norm N = 0 <->
      forall region fvm_node,
        region ∈ regions _system -> type region <> VacuumRegion ->
        fvm_node ∈ on_processor_nodes region ->
        VecGetValue ff (local_offset fvm_node + ebm_variable_offset region POTENTIAL) = 0) /\
     (ErrorNorm.electrode_norm N = 0 <->
      forall offset, Some offset ∈ bcs_local_offset -> VecGetValue ff offset = 0)).
Proof.
  pose proof (norm_regions_poisson xx ff (regions _system) ErrorNorm.cleared) as Hregions.
  unfold ErrorNorm.error_norm. split.
  - intros is_last others.
    destruct (foldM (ErrorNorm.norm_region xx ff) ErrorNorm.cleared (regions _system))
      as [N1|]; cbn [bind].
    + destruct Hregions as (Hno & _). split; [done |].
      intros (r & Hr & Ht). by destruct (Hno r Hr).
    + done.
  - intros N.
    destruct (foldM (ErrorNorm.norm_region xx ff) ErrorNorm.cleared (regions _system))
      as [N1|]; cbn [bind]; [| done].
    destruct Hregions as (_ & He & rows & Hp & Hrows).
    destruct (norm_bcs_electrode xx ff bcs_local_offset N1) as [Hp' He'].
    intros [= <-]. cbn [ErrorNorm.poisson_norm ErrorNorm.electrode_norm].
    unfold ErrorNorm.Parallel_sum_buffer, ErrorNorm.norm_buffer, VecGetValue.
    cbn [foldl lookup list_lookup default]. simpl.
    rewrite Hp', He', Hp, He. simpl. rewrite !Rplus_0_l.
    split.
    + destruct (sum_squares_zero
                  (fun rn : SimulationRegion * FVM_Node =>
                     VecGetValue ff (local_offset rn.2 + ebm_variable_offset rn.1 POTENTIAL))
                  rows) as [H0 Hz].
      split.
      * intros Hs. apply sqrt_eq_0 in Hs; [| done].
        intros region nd Hr Hv Hnd. apply (proj1 Hz Hs (region, nd)). by apply Hrows.
      * intros Hall. rewrite (proj2 Hz); [apply sqrt_0 |].
        intros [r nd] Hin. apply Hrows in Hin as (Hr & Hv & Hnd). by apply Hall.
    + destruct (sum_squares_zero (fun offset => VecGetValue ff offset)
                  (omap (fun offset : option nat => offset) bcs_local_offset)) as [H0 Hz].
      split.
      * intros Hs. apply sqrt_eq_0 in Hs; [| done].
        intros offset Hin. apply (proj1 Hz Hs). apply list_elem_of_omap.
        by exists (Some offset).
      * intros Hall. rewrite (proj2 Hz); [apply sqrt_0 |].
        intros offset Hin. apply list_elem_of_omap in Hin as (o & Ho & Hid).
        simpl in Hid. subst o. by apply Hall.
Qed.

Lemma error_norm_converged_witness :
  exists N,
    ErrorNorm.error_norm (one_region_system plain_model) true [Some 6%nat] []
      [1; 1; 1; 0; 0; 0; 1] [0; 0; 0; 0; 0; 0; 0] = Ok N /\
    ErrorNorm.poisson_norm N = 0 /\ ErrorNorm.electrode_norm N = 0.
Proof.
  eexists. split; [reflexivity |].
  destruct (error_norm_converged (one_region_system plain_model) [Some 6%nat]
              [1; 1; 1; 0; 0; 0; 1] [0; 0; 0; 0; 0; 0; 0]) as [_ Hok].
  destruct (Hok _ eq_refl) as [Hp He]. split.
  - apply Hp. intros region fvm_node Hr _ Hnd.
    apply list_elem_of_singleton in Hr as ->. by apply list_elem_of_singleton in Hnd as ->.
  - apply He. intros offset Ho. by apply list_elem_of_singleton in Ho as [= ->].
Defined.

(** ** The performance log *)

Lemma booked_insert_new (log : gmap PerfLog.Event PerfLog.PerfData) (key : PerfLog.Event)
    (d : PerfLog.PerfData) :
  log !! key = None ->
  PerfLog.booked (<[key := d]> log) = PerfLog.tot_time d + PerfLog.booked log.
Proof.
  intros Hnew. unfold PerfLog.booked.
  rewrite (map_fold_insert_L (fun _ d acc => PerfLog.tot_time d + acc)); [done | | done].
  intros. lra.
Qed.

Lemma booked_insert (log : gmap PerfLog.Event PerfLog.PerfData) (key : PerfLog.Event)
    (d : PerfLog.PerfData) :
  PerfLog.booked (<[key := d]> log)
  = PerfLog.booked log - PerfLog.tot_time (PerfLog.deref log key) + PerfLog.tot_time d.
Proof.
  unfold PerfLog.deref. destruct (log !! key) as [d0|] eqn:Hkey; simpl.
  - rewrite <- (insert_delete_eq log), booked_insert_new by apply lookup_delete_eq.
    rewrite <- (insert_delete_id log key d0) at 2 by done.
    rewrite booked_insert_new by apply lookup_delete_eq. lra.
  - rewrite booked_insert_new by done. lra.
Qed.

Lemma deref_insert_eq (log : gmap PerfLog.Event PerfLog.PerfData) (key : PerfLog.Event)
    (d : PerfLog.PerfData) :
  PerfLog.deref (<[key := d]> log) key = d.
Proof. unfold PerfLog.deref. by rewrite lookup_insert_eq. Qed.

Lemma deref_insert_ne (log : gmap PerfLog.Event PerfLog.PerfData) (key other : PerfLog.Event)
    (d : PerfLog.PerfData) :
  key <> other ->
  PerfLog.deref (<[key := d]> log) other = PerfLog.deref log other.
Proof. intros Hne. unfold PerfLog.deref. by rewrite lookup_insert_ne. Qed.

Lemma deref_entry (log : gmap PerfLog.Event PerfLog.PerfData) (key other : PerfLog.Event) :
  PerfLog.deref (PerfLog.entry key log) other = PerfLog.deref log other.
Proof.
  unfold PerfLog.entry. destruct (log !! key) eqn:Hkey; [done |].
  destruct (decide (key = other)) as [->|Hne].
  - rewrite deref_insert_eq. unfold PerfLog.deref. by rewrite Hkey.
  - by apply deref_insert_ne.
Qed.

Lemma booked_entry (log : gmap PerfLog.Event PerfLog.PerfData) (key : PerfLog.Event) :
  PerfLog.booked (PerfLog.entry key log) = PerfLog.booked log.
Proof.
  unfold PerfLog.entry. destruct (log !! key) eqn:Hkey; [done |].
  rewrite booked_insert_new by done. simpl. lra.
Qed.

(** X24.  Events are entered and left, and the total running time of the log
    stays the sum of the times booked on its events. *)
Theorem total_time_is_booked (s : PerfLog.t) (label header : string) (now : PerfLog.timeval) :
  PerfLog.total_time s = PerfLog.booked (PerfLog.log s) ->
  PerfLog.total_time (PerfLog.push label header now s)
  = PerfLog.booked (PerfLog.log (PerfLog.push label header now s))
  /\ (forall s', PerfLog.pop label header now s = Some s' ->
        PerfLog.total_time s' = PerfLog.booked (PerfLog.log s')).
Proof.
  intros Hinv. split.
  - unfold PerfLog.push. destruct (PerfLog.log_events s); [| done].
    cbv zeta. cbn [PerfLog.total_time PerfLog.log].
    destruct (PerfLog.log_stack s) as [|top rest]; cbn [fst snd].
    + rewrite booked_insert, deref_entry, booked_entry. simpl. lra.
    + rewrite booked_insert, booked_insert, !deref_entry, booked_entry.
      simpl. unfold PerfLog.elapsed_time. simpl. lra.
  - intros s'. unfold PerfLog.pop. destruct (PerfLog.log_events s); [| congruence].
    destruct (PerfLog.log_stack s) as [|top rest]; [done |].
    cbv zeta. case_bool_decide; [| done].
    intros [= <-]. cbn [PerfLog.total_time PerfLog.log].
    destruct rest as [|below rest].
    + rewrite booked_insert, deref_entry, booked_entry.
      simpl. unfold PerfLog.elapsed_time. simpl. lra.
    + rewrite booked_insert, booked_insert, booked_entry, !deref_entry.
      simpl. unfold PerfLog.elapsed_time. simpl. lra.
Qed.

Lemma total_time_is_booked_witness :
  let cleared := {| PerfLog.log_events := true; PerfLog.total_time := 0;
                    PerfLog.log := ∅; PerfLog.log_stack := [] |} in
  let t0 := {| PerfLog.tv_sec := 5; PerfLog.tv_usec := 0 |} in
  let now := {| PerfLog.tv_sec := 7; PerfLog.tv_usec := 250000 |} in
  let s := PerfLog.push "EBM3Solver_SNES()" "EBM3Solver" t0 cleared in
  PerfLog.total_time s = PerfLog.booked (PerfLog.log s)
  /\ PerfLog.total_time (PerfLog.push "EBM3Solver_SNES()" "EBM3Solver" now s)
     = PerfLog.booked (PerfLog.log (PerfLog.push "EBM3Solver_SNES()" "EBM3Solver" now s))
  /\ (forall s', PerfLog.pop "EBM3Solver_SNES()" "EBM3Solver" now s = Some s' ->
        PerfLog.total_time s' = PerfLog.booked (PerfLog.log s')).
Proof.
  intros cleared t0 now s.
  assert (Hcleared : PerfLog.total_time cleared = PerfLog.booked (PerfLog.log cleared))
    by reflexivity.
  pose proof (proj1 (total_time_is_booked cleared "EBM3Solver_SNES()" "EBM3Solver" t0 Hcleared))
    as Hinv.
  split; [exact Hinv |].
  exact (total_time_is_booked s "EBM3Solver_SNES()" "EBM3Solver" now Hinv).
Defined.

(** X25.  An event that is entered at one time and left at a later one, and
    is not the one running, is booked the time between the two and one
    more call, and the running events are as before. *)
Theorem push_pop_books_interval (s : PerfLog.t) (label header : string)
    (t1 t2 : PerfLog.timeval) :
  PerfLog.log_events s = true ->
  head (PerfLog.log_stack s) <> Some (header, label) ->
  exists s',
    PerfLog.pop label header t2 (PerfLog.push label header t1 s) = Some s'
    /\ PerfLog.log_stack s' = PerfLog.log_stack s
    /\ PerfLog.tot_time (PerfLog.deref (PerfLog.log s') (header, label))
       = PerfLog.tot_time (PerfLog.deref (PerfLog.log s) (header, label))
         + ((IZR (PerfLog.tv_sec t2) - IZR (PerfLog.tv_sec t1))
            + (IZR (PerfLog.tv_usec t2) - IZR (PerfLog.tv_usec t1)) * 1e-6)
    /\ PerfLog.count (PerfLog.deref (PerfLog.log s') (header, label))
       = to_unsigned (PerfLog.count (PerfLog.deref (PerfLog.log s) (header, label)) + 1).
Proof.
  intros Hon Htop. unfold PerfLog.push. rewrite Hon. cbv zeta.
  unfold PerfLog.pop. cbn [PerfLog.log_events PerfLog.log_stack PerfLog.log PerfLog.total_time].
  rewrite bool_decide_eq_true_2 by done. eexists. split; [reflexivity |].
  cbn [PerfLog.log_stack PerfLog.log]. split; [done |].
  set (key := (header, label)) in *.
  assert (Hentry : forall log d, PerfLog.entry key (<[key := d]> log) = <[key := d]> log).
  { intros log d. unfold PerfLog.entry. by rewrite lookup_insert_eq. }
  rewrite Hentry.
  destruct (PerfLog.log_stack s) as [|top rest]; cbn [fst snd].
  - rewrite !deref_insert_eq, deref_entry. simpl. unfold PerfLog.elapsed_time. simpl.
    split; [lra | done].
  - assert (Hne : top <> key) by (intros ->; by apply Htop).
    assert (Hne' : key <> top) by done.
    repeat first [ rewrite deref_insert_eq | rewrite deref_insert_ne by done
                 | rewrite deref_entry ].
    simpl. unfold PerfLog.elapsed_time. simpl. split; [lra | done].
Qed.

Lemma push_pop_books_interval_witness :
  let snes := ("EBM3Solver", "EBM3Solver_SNES()") in
  let running :=
    {| PerfLog.tot_time := 0; PerfLog.tstart := {| PerfLog.tv_sec := 5; PerfLog.tv_usec := 0 |};
       PerfLog.count := 1; PerfLog.open := false; PerfLog.called_recursively := 1 |} in
  let s := {| PerfLog.log_events := true; PerfLog.total_time := 0;
              PerfLog.log := {[ snes := running ]}; PerfLog.log_stack := [snes] |} in
  let t1 := {| PerfLog.tv_sec := 7; PerfLog.tv_usec := 250000 |} in
  let t2 := {| PerfLog.tv_sec := 9; PerfLog.tv_usec := 100000 |} in
  PerfLog.log_events s = true
  /\ head (PerfLog.log_stack s) <> Some ("EBM3Solver", "EBM3Solver_Residual()")
  /\ exists s',
       PerfLog.pop "EBM3Solver_Residual()" "EBM3Solver" t2
         (PerfLog.push "EBM3Solver_Residual()" "EBM3Solver" t1 s) = Some s'
       /\ PerfLog.log_stack s' = PerfLog.log_stack s
       /\ PerfLog.tot_time
            (PerfLog.deref (PerfLog.log s') ("EBM3Solver", "EBM3Solver_Residual()"))
          = PerfLog.tot_time
              (PerfLog.deref (PerfLog.log s) ("EBM3Solver", "EBM3Solver_Residual()"))
            + ((IZR (PerfLog.tv_sec t2) - IZR (PerfLog.tv_sec t1))
               + (IZR (PerfLog.tv_usec t2) - IZR (PerfLog.tv_usec t1)) * 1e-6)
       /\ PerfLog.count
            (PerfLog.deref (PerfLog.log s') ("EBM3Solver", "EBM3Solver_Residual()"))
          = to_unsigned
              (PerfLog.count
                 (PerfLog.deref (PerfLog.log s) ("EBM3Solver", "EBM3Solver_Residual()")) + 1).
Proof.
  intros snes running s t1 t2.
  assert (Hon : PerfLog.log_events s = true) by reflexivity.
  assert (Htop : head (PerfLog.log_stack s) <> Some ("EBM3Solver", "EBM3Solver_Residual()"))
    by (simpl; discriminate).
  split; [exact Hon |]. split; [exact Htop |].
  exact (push_pop_books_interval s "EBM3Solver_Residual()" "EBM3Solver" t1 t2 Hon Htop).
Defined.

(** ** Offsets of a boundary condition *)

(** X29.  The offsets stored for one solver survive what is stored for
    another: after the three offsets have been set under solver [s] and other
    values under a different solver [s'], selecting [s] again reads the first
    values back and selecting [s'] the second ones.  A solver index of 4 or
    more is refused with a fatal error. *)
Theorem offsets_per_solver (bc : BoundaryCondition.t) (s s' : nat)
    (g l a g' l' a' : nat) :
  length (BoundaryCondition._global_offset bc) = 4%nat ->
  length (BoundaryCondition._local_offset bc) = 4%nat ->
  length (BoundaryCondition._array_offset bc) = 4%nat ->
  (s < 4)%nat -> (s' < 4)%nat -> s <> s' ->
  let store g l a bc :=
    BoundaryCondition.set_array_offset a
      (BoundaryCondition.set_local_offset l (BoundaryCondition.set_global_offset g bc)) in
  (exists bc1 bc2 bc3,
     BoundaryCondition.set_solver_index s bc = Ok bc1 /\
     BoundaryCondition.set_solver_index s' (store g l a bc1) = Ok bc2 /\
     BoundaryCondition.set_solver_index s (store g' l' a' bc2) = Ok bc3 /\
     (BoundaryCondition.global_offset bc3, BoundaryCondition.local_offset bc3,
      BoundaryCondition.array_offset bc3) = (g, l, a) /\
     (BoundaryCondition.global_offset (store g' l' a' bc2),
      BoundaryCondition.local_offset (store g' l' a' bc2),
      BoundaryCondition.array_offset (store g' l' a' bc2)) = (g', l', a')) /\
  (forall k, (4 <= k)%nat -> BoundaryCondition.set_solver_index k bc = genius_error).
Proof.
  intros Hg Hl Ha Hs Hs' Hne store.
  assert (Hset : forall k b, (k < 4)%nat ->
            BoundaryCondition.set_solver_index k b
            = Ok {| BoundaryCondition._solver_index := k;
                    BoundaryCondition._global_offset := BoundaryCondition._global_offset b;
                    BoundaryCondition._local_offset := BoundaryCondition._local_offset b;
                    BoundaryCondition._array_offset := BoundaryCondition._array_offset b |}).
  { intros k b Hk. unfold BoundaryCondition.set_solver_index.
    by rewrite (proj2 (Nat.ltb_lt k 4) Hk). }
  split.
  - rewrite Hset by done. eexists _, _, _. split; [reflexivity |].
    rewrite Hset by done. split; [reflexivity |].
    rewrite Hset by done. split; [reflexivity |].
    unfold store, BoundaryCondition.global_offset, BoundaryCondition.local_offset,
      BoundaryCondition.array_offset. simpl.
    repeat first [ rewrite list_lookup_insert_ne by done
                 | rewrite list_lookup_insert_eq by (rewrite ?length_insert; lia) ].
    done.
  - intros k Hk. unfold BoundaryCondition.set_solver_index.
    by rewrite (proj2 (Nat.ltb_ge k 4) Hk).
Qed.

Lemma offsets_per_solver_witness :
  let bc := {| BoundaryCondition._solver_index := 0;
               BoundaryCondition._global_offset := [0; 0; 0; 0]%nat;
               BoundaryCondition._local_offset := [0; 0; 0; 0]%nat;
               BoundaryCondition._array_offset := [0; 0; 0; 0]%nat |} in
  let store g l a bc :=
    BoundaryCondition.set_array_offset a
      (BoundaryCondition.set_local_offset l (BoundaryCondition.set_global_offset g bc)) in
  exists bc1 bc2 bc3,
    BoundaryCondition.set_solver_index 0 bc = Ok bc1 /\
    BoundaryCondition.set_solver_index 1 (store 10 11 12 bc1)%nat = Ok bc2 /\
    BoundaryCondition.set_solver_index 0 (store 20 21 22 bc2)%nat = Ok bc3 /\
    (BoundaryCondition.global_offset bc3, BoundaryCondition.local_offset bc3,
     BoundaryCondition.array_offset bc3) = (10, 11, 12)%nat /\
    (BoundaryCondition.global_offset (store 20 21 22 bc2)%nat,
     BoundaryCondition.local_offset (store 20 21 22 bc2)%nat,
     BoundaryCondition.array_offset (store 20 21 22 bc2)%nat) = (20, 21, 22)%nat.
Proof.
  intros bc store.
  refine (proj1 (offsets_per_solver bc 0 1 10 11 12 20 21 22 eq_refl eq_refl eq_refl _ _ _));
    lia.
Defined.
